(** * angela: Merkle trees over a pluggable checksum

    A shallow embedding of [include/angela/Checksum.hpp] and
    [include/angela/Merkle.hpp].

    Conventions of the embedding.
    - [char] and [uint8_t] are [byte]; a [std::string_view] and a
      [std::array<uint8_t, N>] are [list byte]; the [std::string] returned
      by [hexDigest] is a [string].
    - [std::size_t] values are [Z] with the wrap-around at [2^64] written
      out where the code adds or subtracts; [int] counters are [Z], and an
      [int] addition that leaves the range is undefined behaviour.
    - [std::shared_ptr<MerkleNode>] is an optional address into a store of
      nodes; [std::make_shared] appends to the store.
    - Loops are run with fuel; running out of fuel means that the loop is
      still going, it is not a result of the program.
    - Memory is not a resource of the model: an allocation succeeds,
      whatever its size. *)

From Stdlib Require Import ZArith Lia Bool.
From Stdlib.Strings Require Import String Ascii Byte.
From stdpp Require Import base list.

Local Open Scope Z_scope.

(* [lia] also decides goals with a division or a remainder by a constant. *)
Ltac Zify.zify_post_hook ::= Z.to_euclidean_division_equations.

(** ** Outcomes of a run *)

Inductive outcome (A : Type) : Type :=
| Ok (a : A)        (* the code ran to the end *)
| Abort             (* an [assert] failed *)
| Undefined         (* undefined behaviour was reached *)
| Timeout.          (* the fuel ran out: the loop is still running *)

Arguments Ok {A} a.
Arguments Abort {A}.
Arguments Undefined {A}.
Arguments Timeout {A}.

(** Sequencing: anything but [Ok] ends the run. stdpp's [x ← m; k] is
    available through the instance. *)
Definition outcome_bind {A B} (k : A -> outcome B) (m : outcome A) : outcome B :=
  match m with
  | Ok a => k a
  | Abort => Abort
  | Undefined => Undefined
  | Timeout => Timeout
  end.

#[global] Instance outcome_mbind : MBind outcome := @outcome_bind.

(** [while (cond) body], [fuel] bounding the number of times the body runs. *)
Fixpoint while_ {S : Type} (fuel : nat) (cond : S -> bool)
    (body : S -> outcome S) (s : S) : outcome S :=
  if cond s then
    match fuel with
    | O => Timeout
    | Datatypes.S fuel' => s' ← body s; while_ fuel' cond body s'
    end
  else Ok s.

(** ** Machine integers *)

Definition SIZE_MAX : Z := 2 ^ 64 - 1.
Definition INT_MAX : Z := 2 ^ 31 - 1.
Definition STREAMSIZE_MAX : Z := 2 ^ 63 - 1.

(** Arithmetic of [std::size_t]. *)
Definition size_t_wrap (z : Z) : Z := z mod 2 ^ 64.
Definition size_t_add (a b : Z) : Z := size_t_wrap (a + b).
Definition size_t_sub (a b : Z) : Z := size_t_wrap (a - b).

(** [static_cast<std::streamsize>] of a [std::size_t]: the upper half of
    the range becomes negative. *)
Definition to_streamsize (z : Z) : Z :=
  if z <=? STREAMSIZE_MAX then z else z - 2 ^ 64.

(** [i += k] on an [int]. *)
Definition int_add (i k : Z) : outcome Z :=
  if i + k <=? INT_MAX then Ok (i + k) else Undefined.

(** [v[i]] and [v.back()] of a [std::vector]: out of range is undefined. *)
Definition vec_at {A} (v : list A) (i : Z) : outcome A :=
  if i <? 0 then Undefined
  else match v !! Z.to_nat i with
       | Some a => Ok a
       | None => Undefined
       end.

Definition vec_back {A} (v : list A) : outcome A :=
  match last v with
  | Some a => Ok a
  | None => Undefined
  end.

(** ** Checksum.hpp *)

(** [ChecksumBase<Bits, AlgoTag>]: the [std::array<uint8_t, Bits / 8>]. *)
Record ChecksumBase : Type := { data : list byte }.

Definition size_bytes (Bits : Z) : Z := Bits / 8.

(** [operator==] of [ChecksumBase] is the defaulted one: the arrays are
    compared element by element. *)
Definition byte_eqb (a b : byte) : bool := Byte.eqb a b.

Fixpoint bytes_eqb (a b : list byte) : bool :=
  match a, b with
  | [], [] => true
  | x :: a', y :: b' => byte_eqb x y && bytes_eqb a' b'
  | _, _ => false
  end.

Definition ChecksumBase_eqb (a b : ChecksumBase) : bool :=
  bytes_eqb (data a) (data b).

(** *** [operator<<] for an [int] under [std::hex], [setw], [setfill] *)

Definition hex_digit (d : Z) : ascii :=
  match d with
  | 0 => "0" | 1 => "1" | 2 => "2" | 3 => "3" | 4 => "4"
  | 5 => "5" | 6 => "6" | 7 => "7" | 8 => "8" | 9 => "9"
  | 10 => "a" | 11 => "b" | 12 => "c" | 13 => "d" | 14 => "e"
  | _ => "f"
  end%char.

(** The digits of a non-negative [int] in base 16, most significant first,
    no leading zero (one digit for 0); lowercase, no base prefix: neither
    [std::uppercase] nor [std::showbase] is set. *)
Fixpoint hex_digits_aux (fuel : nat) (v : Z) (acc : list ascii) : list ascii :=
  match fuel with
  | O => acc
  | Datatypes.S fuel' =>
      let acc' := hex_digit (v mod 16) :: acc in
      if v / 16 =? 0 then acc' else hex_digits_aux fuel' (v / 16) acc'
  end.

Definition hex_digits (v : Z) : list ascii := hex_digits_aux 8 v [].

(** [std::setw(w)] with [std::setfill(c)]: the field is padded on the left
    up to [w] characters and never truncated. *)
Definition pad_left (w : nat) (c : ascii) (field : list ascii) : list ascii :=
  replicate (w - length field)%nat c ++ field.

Definition put_hex_w2 (d : byte) : list ascii :=
  pad_left 2 "0"%char (hex_digits (Z.of_N (Byte.to_N d))).

Fixpoint string_of_chars (l : list ascii) : string :=
  match l with
  | [] => EmptyString
  | c :: l' => String c (string_of_chars l')
  end.

(** [ChecksumBase::hexDigest]: the loop appends one field per byte to the
    stream, [ss.str()] is what has been appended. *)
Definition hexDigest (c : ChecksumBase) : string :=
  string_of_chars (foldl (fun ss d => ss ++ put_hex_w2 d) [] (data c)).

(** *** OpenSSL's SHA-256 ([SHA256_Init], [SHA256_Update], [SHA256_Final])

    The library is not part of the repository; it is rendered after
    FIPS 180-4, on 32-bit words held in [Z]. *)
Module SHA256.

Definition w32 (x : Z) : Z := x mod 2 ^ 32.
Definition add32 (x y : Z) : Z := w32 (x + y).
Definition not32 (x : Z) : Z := Z.lxor x 0xffffffff.
Definition rotr (n x : Z) : Z :=
  Z.lor (Z.shiftr x n) (w32 (Z.shiftl x (32 - n))).

Definition Ch (x y z : Z) : Z := Z.lxor (Z.land x y) (Z.land (not32 x) z).
Definition Maj (x y z : Z) : Z :=
  Z.lxor (Z.lxor (Z.land x y) (Z.land x z)) (Z.land y z).
Definition Sigma0 (x : Z) : Z := Z.lxor (Z.lxor (rotr 2 x) (rotr 13 x)) (rotr 22 x).
Definition Sigma1 (x : Z) : Z := Z.lxor (Z.lxor (rotr 6 x) (rotr 11 x)) (rotr 25 x).
Definition sigma0 (x : Z) : Z := Z.lxor (Z.lxor (rotr 7 x) (rotr 18 x)) (Z.shiftr x 3).
Definition sigma1 (x : Z) : Z := Z.lxor (Z.lxor (rotr 17 x) (rotr 19 x)) (Z.shiftr x 10).

(** The constants are what FIPS 180-4 says they are: the first 32 bits of
    the fractional parts of the cube roots (for [K256]) and of the square
    roots (for [H_init]) of the first primes. *)
Fixpoint root_bits (bits : nat) (k n acc : Z) : Z :=
  match bits with
  | O => acc
  | Datatypes.S b =>
      let cand := acc + 2 ^ Z.of_nat b in
      root_bits b k n (if cand ^ k <=? n then cand else acc)
  end.

Definition frac_root32 (k p : Z) : Z :=
  w32 (root_bits 40 k (p * 2 ^ (32 * k)) 0).

Fixpoint primes_from (fuel : nat) (count : nat) (n : Z) (found : list Z) : list Z :=
  match fuel, count with
  | Datatypes.S fuel', Datatypes.S count' =>
      if forallb (fun q => negb (n mod q =? 0)) found
      then primes_from fuel' count' (n + 1) (found ++ [n])
      else primes_from fuel' count (n + 1) found
  | _, _ => found
  end.

Definition K256 : list Z :=
  Eval vm_compute in map (frac_root32 3) (primes_from 400 64 2 []).

(** The eight working variables, and the chaining value. *)
Record regs : Type :=
  { ra : Z; rb : Z; rc : Z; rd : Z; re : Z; rf : Z; rg : Z; rh : Z }.

Definition H_init : regs :=
  Eval vm_compute in
    match map (frac_root32 2) (primes_from 400 8 2 []) with
    | [a; b; c; d; e; f; g; h] =>
        {| ra := a; rb := b; rc := c; rd := d; re := e; rf := f; rg := g; rh := h |}
    | _ => {| ra := 0; rb := 0; rc := 0; rd := 0; re := 0; rf := 0; rg := 0; rh := 0 |}
    end.

Definition byteZ (b : byte) : Z := Z.of_N (Byte.to_N b).

Definition Zbyte (z : Z) : byte :=
  match Byte.of_N (Z.to_N (z mod 256)) with
  | Some b => b
  | None => x00
  end.

(** Big-endian 32-bit words of a block. *)
Fixpoint be_words (bs : list byte) : list Z :=
  match bs with
  | b0 :: b1 :: b2 :: b3 :: rest =>
      (byteZ b0 * 2 ^ 24 + byteZ b1 * 2 ^ 16 + byteZ b2 * 2 ^ 8 + byteZ b3)
        :: be_words rest
  | _ => []
  end.

Definition word_be (x : Z) : list byte :=
  [ Zbyte (Z.shiftr x 24); Zbyte (Z.shiftr x 16); Zbyte (Z.shiftr x 8); Zbyte x ].

Definition W_at (W : list Z) (t : nat) : Z := default 0 (W !! t).

(** The message schedule: [n] more words after those of [W]. *)
Fixpoint schedule (n : nat) (W : list Z) : list Z :=
  match n with
  | O => W
  | Datatypes.S n' =>
      let t := length W in
      let x := add32 (add32 (sigma1 (W_at W (t - 2))) (W_at W (t - 7)))
                     (add32 (sigma0 (W_at W (t - 15))) (W_at W (t - 16))) in
      schedule n' (W ++ [x])
  end.

Definition round (r : regs) (kw : Z * Z) : regs :=
  let T1 := add32 (add32 (add32 (rh r) (Sigma1 (re r)))
                         (add32 (Ch (re r) (rf r) (rg r)) (fst kw))) (snd kw) in
  let T2 := add32 (Sigma0 (ra r)) (Maj (ra r) (rb r) (rc r)) in
  {| ra := add32 T1 T2; rb := ra r; rc := rb r; rd := rc r;
     re := add32 (rd r) T1; rf := re r; rg := rf r; rh := rg r |}.

(** One 64-byte block folded into the chaining value. *)
Definition block_data_order (h : regs) (block : list byte) : regs :=
  let W := schedule 48 (be_words block) in
  let r := foldl round h (zip K256 W) in
  {| ra := add32 (ra h) (ra r); rb := add32 (rb h) (rb r);
     rc := add32 (rc h) (rc r); rd := add32 (rd h) (rd r);
     re := add32 (re h) (re r); rf := add32 (rf h) (rf r);
     rg := add32 (rg h) (rg r); rh := add32 (rh h) (rh r) |}.

(** [SHA256_CTX]: the chaining value, the bytes not yet hashed (fewer
    than a block) and the number of bytes seen. *)
Record SHA256_CTX : Type :=
  { ctx_h : regs; ctx_data : list byte; ctx_len : Z }.

Definition SHA256_Init : SHA256_CTX :=
  {| ctx_h := H_init; ctx_data := []; ctx_len := 0 |}.

(** Whole blocks of [bs] are hashed, the rest is kept. *)
Fixpoint absorb (fuel : nat) (h : regs) (bs : list byte) : regs * list byte :=
  match fuel with
  | O => (h, bs)
  | Datatypes.S fuel' =>
      if (64 <=? length bs)%nat
      then absorb fuel' (block_data_order h (take 64 bs)) (drop 64 bs)
      else (h, bs)
  end.

Definition SHA256_Update (c : SHA256_CTX) (input : list byte) : SHA256_CTX :=
  let bs := ctx_data c ++ input in
  let '(h, rest) := absorb (length bs) (ctx_h c) bs in
  {| ctx_h := h; ctx_data := rest; ctx_len := ctx_len c + Z.of_nat (length input) |}.

(** Padding: a 1 bit, zeros up to 56 modulo 64, the bit length on 64 bits. *)
Definition padding (rest : nat) (len : Z) : list byte :=
  let zeros := ((119 - rest) mod 64)%nat in
  let bits := (8 * len) mod 2 ^ 64 in
  x80 :: replicate zeros x00
    ++ word_be (Z.shiftr bits 32) ++ word_be (w32 bits).

Definition SHA256_Final (c : SHA256_CTX) : list byte :=
  let bs := ctx_data c ++ padding (length (ctx_data c)) (ctx_len c) in
  let h := fst (absorb (length bs) (ctx_h c) bs) in
  word_be (ra h) ++ word_be (rb h) ++ word_be (rc h) ++ word_be (rd h)
    ++ word_be (re h) ++ word_be (rf h) ++ word_be (rg h) ++ word_be (rh h).

End SHA256.

(** [Sha256::hash]. *)
Module Sha256.
Definition Bits : Z := 256.

Definition hash (contents : list byte) : ChecksumBase :=
  let sha256 := SHA256.SHA256_Init in
  let sha256 := SHA256.SHA256_Update sha256 contents in
  {| data := SHA256.SHA256_Final sha256 |}.
End Sha256.

(** ** Merkle.hpp *)

(** [MerkleNodeData<T>] *)
Record MerkleNodeData : Type :=
  { checksum : ChecksumBase; chunk_offset : Z; chunk_size : Z }.

(** The defaulted [operator==]: member by member. *)
Definition MerkleNodeData_eqb (a b : MerkleNodeData) : bool :=
  ChecksumBase_eqb (checksum a) (checksum b)
  && (chunk_offset a =? chunk_offset b)
  && (chunk_size a =? chunk_size b).

(** Addresses of nodes. A [shared_ptr] or [weak_ptr] field is [None] when
    it is null. *)
Abbreviation ptr := nat (only parsing).

(** [MerkleNode<T>]; its [data] member is [node] here, [data] being the
    array of the checksum. *)
Record MerkleNode : Type :=
  { node : MerkleNodeData;
    parent : option ptr;
    left : option ptr;
    right : option ptr }.

Definition isRoot (n : MerkleNode) : bool := negb (bool_decide (is_Some (parent n))).
Definition isLeaf (n : MerkleNode) : bool :=
  negb (bool_decide (is_Some (left n))) && negb (bool_decide (is_Some (right n))).

Definition MerkleNode_eqb (a b : MerkleNode) : bool :=
  if negb (eqb (isRoot a) (isRoot b)) then false
  else if negb (eqb (isLeaf a) (isLeaf b)) then false
  else MerkleNodeData_eqb (node a) (node b).

(** The nodes that have been allocated, by address. Nothing is released
    while a tree is built or compared. *)
Abbreviation store := (list MerkleNode) (only parsing).

(** [std::make_shared<MerkleNode>(data)]: the constructor of [MerkleNode]
    sets [data] and leaves the three pointers null. *)
Definition make_shared (h : store) (d : MerkleNodeData) : store * ptr :=
  (h ++ [{| node := d; parent := None; left := None; right := None |}], length h).

(** [*p] *)
Definition deref (h : store) (p : ptr) : outcome MerkleNode :=
  match h !! p with
  | Some n => Ok n
  | None => Undefined
  end.

(** [p->left = l] and [p->right = r] *)
Definition set_left (h : store) (p : ptr) (l : option ptr) : outcome store :=
  n ← deref h p;
  Ok (<[p := {| node := node n; parent := parent n; left := l; right := right n |}]> h).

Definition set_right (h : store) (p : ptr) (r : option ptr) : outcome store :=
  n ← deref h p;
  Ok (<[p := {| node := node n; parent := parent n; left := left n; right := r |}]> h).

(** [std::vector<std::shared_ptr<MerkleNode>>]; the pointers held in a
    level are never null. *)
Abbreviation Level := (list ptr) (only parsing).

(** *** [std::istringstream] *)

(** What [generate_leaves] uses of the stream: the characters not yet
    extracted, two state bits and the count of the last read. *)
Record istringstream : Type :=
  { rdbuf : list byte; eofbit : bool; failbit : bool; gcount : Z }.

Definition istringstream_of (contents : list byte) : istringstream :=
  {| rdbuf := contents; eofbit := false; failbit := false; gcount := 0 |}.

Definition eof (s : istringstream) : bool := eofbit s.
Definition good (s : istringstream) : bool := negb (eofbit s) && negb (failbit s).

(** [stream.read(buf, n)]: when the stream is not good, nothing is extracted
    and [failbit] is set; otherwise up to [n] characters are moved to the
    front of [buf] (none for [n <= 0]), and both [eofbit] and [failbit] are
    set when the count is not [n]. *)
Definition read (s : istringstream) (buf : list byte) (n : Z)
    : istringstream * list byte :=
  if good s then
    let got := take (Z.to_nat n) (rdbuf s) in
    let short := negb (Z.of_nat (length got) =? n) in
    ({| rdbuf := drop (Z.to_nat n) (rdbuf s);
        eofbit := short; failbit := short;
        gcount := Z.of_nat (length got) |},
     got ++ drop (length got) buf)
  else
    ({| rdbuf := rdbuf s; eofbit := eofbit s; failbit := true; gcount := 0 |}, buf).

(** [MerkleTree<Algo>] *)
Record MerkleTree : Type := { m_ChunkSize : Z; root : option ptr }.

(** [MerkleTree::operator==] *)
Definition MerkleTree_eq (h : store) (t other : MerkleTree) : outcome bool :=
  match root t, root other with
  | Some r, Some r' =>
      n ← deref h r;
      n' ← deref h r';
      Ok (MerkleNode_eqb n n')
  | _, _ => Ok false
  end.

Section Algo.

(** [Algo::hash], any checksum algorithm. *)
Variable hash : list byte -> ChecksumBase.

(** *** [MerkleTree::generate_leaves] *)

Record leaves_state : Type :=
  { gl_store : store;
    gl_stream : istringstream;
    gl_buf : list byte;
    gl_result : Level;
    gl_read_offset : Z }.

Definition generate_leaves_body (m_ChunkSize : Z) (st : leaves_state)
    : outcome leaves_state :=
  let buf := replicate (length (gl_buf st)) x00 in
  let '(stream, buf) := read (gl_stream st) buf (to_streamsize m_ChunkSize) in
  let bytes_read := size_t_wrap (gcount stream) in
  if negb (bytes_read =? 0) then
    let '(h, p) :=
      make_shared (gl_store st)
        {| checksum := hash (take (Z.to_nat bytes_read) buf);
           chunk_offset := gl_read_offset st;
           chunk_size := bytes_read |} in
    Ok {| gl_store := h; gl_stream := stream; gl_buf := buf;
          gl_result := gl_result st ++ [p];
          gl_read_offset := size_t_add (gl_read_offset st) bytes_read |}
  else
    Ok {| gl_store := gl_store st; gl_stream := stream; gl_buf := buf;
          gl_result := gl_result st;
          gl_read_offset := gl_read_offset st |}.

Definition generate_leaves (fuel : nat) (m_ChunkSize : Z) (h : store)
    (stream : istringstream) : outcome (store * Level) :=
  st ← while_ fuel (fun st => negb (eof (gl_stream st)))
         (generate_leaves_body m_ChunkSize)
         {| gl_store := h; gl_stream := stream;
            gl_buf := replicate (Z.to_nat m_ChunkSize) x00;
            gl_result := []; gl_read_offset := 0 |};
  Ok (gl_store st, gl_result st).

(** *** [MerkleTree::make_tree] *)

(** The inner loop, over the pairs of [prev]. *)
Record pairs_state : Type :=
  { ps_store : store; ps_level : Level; ps_i : Z }.

(** [i < prev.size() - 1]: the [int] is converted to [std::size_t], the
    subtraction is the one of [std::size_t]. *)
Definition pairs_cond (prev : Level) (st : pairs_state) : bool :=
  size_t_wrap (ps_i st) <? size_t_sub (Z.of_nat (length prev)) 1.

Definition pairs_body (prev : Level) (st : pairs_state) : outcome pairs_state :=
  let i := ps_i st in
  l ← vec_at prev i;
  r ← vec_at prev (i + 1);
  nl ← deref (ps_store st) l;
  nr ← deref (ps_store st) r;
  let data_l := data (checksum (node nl)) in
  let data_r := data (checksum (node nr)) in
  let chunk := data_l ++ data_r in
  let '(h, p) :=
    make_shared (ps_store st)
      {| checksum := hash chunk;
         chunk_offset := chunk_offset (node nl);
         chunk_size := size_t_add (chunk_size (node nl)) (chunk_size (node nr)) |} in
  h ← set_left h p (Some l);
  h ← set_right h p (Some r);
  i ← int_add i 2;
  Ok {| ps_store := h; ps_level := ps_level st ++ [p]; ps_i := i |}.

(** The outer loop. [tree_height] is [std::log2(leaves.size())], a
    [double]; [_i < tree_height] is decided as [2 ^ _i < leaves.size()],
    which is what it is over the reals and what the rounded logarithm
    gives for every size an [int] can count. *)
Record tree_state : Type :=
  { ts_store : store; ts_tree : list Level; ts_i : Z }.

Definition below_log2 (_i n : Z) : bool := 2 ^ _i <? n.

Definition levels_body (fuel : nat) (st : tree_state) : outcome tree_state :=
  prev ← vec_back (ts_tree st);
  ps ← while_ fuel (pairs_cond prev) (pairs_body prev)
         {| ps_store := ts_store st; ps_level := []; ps_i := 0 |};
  level ←
    (if negb (Z.of_nat (length prev) mod 2 =? 0)
     then (x ← vec_back prev; Ok (ps_level ps ++ [x]))
     else Ok (ps_level ps));
  _i ← int_add (ts_i st) 1;
  Ok {| ts_store := ps_store ps; ts_tree := ts_tree st ++ [level]; ts_i := _i |}.

Definition make_tree_levels (fuel : nat) (h : store) (leaves : Level)
    : outcome tree_state :=
  while_ fuel (fun st => below_log2 (ts_i st) (Z.of_nat (length leaves)))
    (levels_body fuel)
    {| ts_store := h; ts_tree := [leaves]; ts_i := 0 |}.

(** [make_tree] ends with [assert(tree.back().size() == 1)] and sets [root]
    to [tree.back().front()]. *)
Definition make_tree (fuel : nat) (h : store) (leaves : Level)
    : outcome (store * option ptr) :=
  st ← make_tree_levels fuel h leaves;
  back ← vec_back (ts_tree st);
  if Z.of_nat (length back) =? 1
  then r ← vec_at back 0; Ok (ts_store st, Some r)
  else Abort.

(** The constructor [MerkleTree(std::string_view contents, std::size_t
    chunk_size)], on the store [h]. *)
Definition MerkleTree_ctor (fuel : nat) (h : store) (contents : list byte)
    (chunk_size : Z) : outcome (store * MerkleTree) :=
  let stream := istringstream_of contents in
  '(h, leaves) ← generate_leaves fuel chunk_size h stream;
  '(h, r) ← make_tree fuel h leaves;
  Ok (h, {| m_ChunkSize := chunk_size; root := r |}).

End Algo.


(** * Notions of the specification *)

(** A byte written as the claim has it: two lowercase hexadecimal digits,
    the high one first, a zero when the byte is below 16. *)
Definition two_hex_digits (d : byte) : list ascii :=
  [hex_digit (SHA256.byteZ d / 16); hex_digit (SHA256.byteZ d mod 16)].

Definition is_lower_hex (c : ascii) : bool :=
  let n := Z.of_N (N_of_ascii c) in
  ((48 <=? n) && (n <=? 57)) || ((97 <=? n) && (n <=? 102)).


(** The arguments of the constructor are in range: the chunk size is one
    that a read can be asked for (a non-negative [std::streamsize]), the
    length of the contents is a [std::size_t], and the leaves are few enough
    for the [int] that counts them in [make_tree]. *)
Definition in_range (contents : list byte) (chunk_size : Z) : Prop :=
  chunk_size <= STREAMSIZE_MAX
  /\ Z.of_nat (length contents) <= SIZE_MAX
  /\ Z.of_nat (length contents) <= INT_MAX * chunk_size.

(** A stream in the good state with [rest] still to read. *)
Definition good_stream (rest : list byte) (k : Z) : istringstream :=
  {| rdbuf := rest; eofbit := false; failbit := false; gcount := k |}.

(** A node as [std::make_shared] leaves it. *)
Definition fresh_node (d : MerkleNodeData) : MerkleNode :=
  {| node := d; parent := None; left := None; right := None |}.

(** Every address of a level is allocated. *)
Definition valid_level (h : store) (lv : Level) : Prop :=
  Forall (fun p => (p < length h)%nat) lv.

(** Half of a count, rounded up. *)
Definition halve_up (m : nat) : nat := ((m + 1) / 2)%nat.

(** The number of passes the claims give for [n] leaves: the logarithm in
    base 2, rounded up. *)
Definition num_passes (n : nat) : nat := Z.to_nat (Z.log2_up (Z.of_nat n)).

(** Each level of [tree] but the first is half as long as the one before
    it, rounded up. *)
Definition halving (tree : list Level) : Prop :=
  forall (i : nat) (a b : Level),
    tree !! i = Some a -> tree !! S i = Some b -> length b = halve_up (length a).

Section AlgoSpec.

Variable hash : list byte -> ChecksumBase.

(** The chunks of [rest] hashed in stream order, the first one at offset
    [off]; [n] bounds their number. *)
Fixpoint leaf_data (n : nat) (c : Z) (off : Z) (rest : list byte)
    : list MerkleNodeData :=
  match n with
  | O => []
  | S n' =>
      match rest with
      | [] => []
      | _ :: _ =>
          let got := take (Z.to_nat c) rest in
          {| checksum := hash got; chunk_offset := off;
             chunk_size := Z.of_nat (length got) |}
            :: leaf_data n' c (size_t_add off (Z.of_nat (length got)))
                 (drop (Z.to_nat c) rest)
      end
  end.

(** The data of the parent of two nodes. *)
Definition join_data (a b : MerkleNodeData) : MerkleNodeData :=
  {| checksum := hash (data (checksum a) ++ data (checksum b));
     chunk_offset := chunk_offset a;
     chunk_size := size_t_add (chunk_size a) (chunk_size b) |}.

(** The parents of the pairs [(0,1), (2,3), ...] of a level. *)
Fixpoint paired (h : store) (prev : Level) : list MerkleNode :=
  match prev with
  | l :: r :: rest =>
      match h !! l, h !! r with
      | Some nl, Some nr =>
          {| node := join_data (node nl) (node nr);
             parent := None; left := Some l; right := Some r |}
            :: paired h rest
      | _, _ => []
      end
  | _ => []
  end.

(** The unpaired node of a level of odd length. *)
Definition odd_tail (prev : Level) : Level :=
  if Nat.odd (length prev) then option_list (last prev) else [].

(** One pass: the parents are allocated in order after the nodes of [h],
    the next level holds their addresses and then the odd tail. *)
Definition reduce_level (h : store) (prev : Level) : store * Level :=
  (h ++ paired h prev,
   seq (length h) (length (paired h prev)) ++ odd_tail prev).

(** [k] passes from the level [prev], the last one of [tree]. *)
Fixpoint reduce_levels (k : nat) (h : store) (tree : list Level) (prev : Level)
    : store * list Level :=
  match k with
  | O => (h, tree)
  | S k' =>
      let '(h', level) := reduce_level h prev in
      reduce_levels k' h' (tree ++ [level]) level
  end.

(** The data of the nodes of a level. *)
Definition level_data (h : store) (lv : Level) : list MerkleNodeData :=
  omap (fun p => node <$> h !! p) lv.

(** A pass on the data alone: adjacent nodes are joined, an odd tail is
    kept as it is. *)
Fixpoint reduce_data (ds : list MerkleNodeData) : list MerkleNodeData :=
  match ds with
  | a :: b :: rest => join_data a b :: reduce_data rest
  | _ => ds
  end.

(** The nodes of [ds] cover adjacent ranges of the input, from [off] on. *)
Fixpoint contiguous (off : Z) (ds : list MerkleNodeData) : Prop :=
  match ds with
  | [] => True
  | d :: rest =>
      chunk_offset d = off /\ 0 <= chunk_size d
      /\ contiguous (off + chunk_size d) rest
  end.

Definition total_span (ds : list MerkleNodeData) : Z :=
  foldr (fun d acc => chunk_size d + acc) 0 ds.

(** What the code makes of a node [n] of the store [h]: it has no parent
    (none is ever set); it has no children, or it has both, its digest is
    the hash of their digests, left first, its offset is the one of the
    left child and its span is the sum of theirs. [Q] is a property of the
    digests, such as their length; the children are among the nodes
    allocated from the address [base] on. *)
Definition node_ok (Q : ChecksumBase -> Prop) (base : nat) (h : store)
    (n : MerkleNode) : Prop :=
  parent n = None
  /\ ((left n = None /\ right n = None)
      \/ exists (l r : ptr) (nl nr : MerkleNode),
           left n = Some l /\ right n = Some r
           /\ (base <= l)%nat /\ (base <= r)%nat
           /\ h !! l = Some nl /\ h !! r = Some nr
           /\ checksum (node n)
              = hash (data (checksum (node nl)) ++ data (checksum (node nr)))
           /\ Q (checksum (node nl)) /\ Q (checksum (node nr))
           /\ chunk_offset (node n) = chunk_offset (node nl)
           /\ chunk_size (node n) = chunk_size (node nl) + chunk_size (node nr)).

Definition digest_sized (Q : ChecksumBase -> Prop) (d : MerkleNodeData) : Prop :=
  Q (checksum d).

(** What holds of the store [h] and of the level [lv] under construction
    after every pass, for an input of [total] bytes and nodes allocated from
    the address [base] on. *)
Definition tree_inv (Q : ChecksumBase -> Prop) (total : Z) (base : nat)
    (h : store) (lv : Level) : Prop :=
  valid_level h lv /\ (1 <= length lv)%nat
  /\ (base <= length h)%nat /\ Forall (fun p => (base <= p)%nat) lv
  /\ contiguous 0 (level_data h lv)
  /\ total_span (level_data h lv) = total
  /\ Forall (digest_sized Q) (level_data h lv)
  /\ (forall (p : ptr) (n : MerkleNode),
        (base <= p)%nat -> h !! p = Some n -> node_ok Q base h n).

End AlgoSpec.

(** Three leaves of one byte each, for examples. *)
Definition three_leaves : store :=
  [ fresh_node {| checksum := Sha256.hash [x61]; chunk_offset := 0; chunk_size := 1 |};
    fresh_node {| checksum := Sha256.hash [x62]; chunk_offset := 1; chunk_size := 1 |};
    fresh_node {| checksum := Sha256.hash [x63]; chunk_offset := 2; chunk_size := 1 |} ].

(** Two internal nodes with the same data and different children, after
    the three leaves. *)
Definition twin_nodes : store :=
  let d := {| checksum := Sha256.hash []; chunk_offset := 0; chunk_size := 2 |} in
  three_leaves
    ++ [ {| node := d; parent := None; left := Some 0%nat; right := Some 1%nat |};
         {| node := d; parent := None; left := Some 1%nat; right := Some 2%nat |} ].

(** * More of the code *)

(** ** Checksum.hpp and Merkle.hpp: the defaulted [operator<=>] *)

(** [std::array<uint8_t, N>] is compared element by element, the first
    difference decides; the elements are unsigned. *)
Fixpoint bytes_compare (a b : list byte) : comparison :=
  match a, b with
  | [], [] => Eq
  | [], _ :: _ => Lt
  | _ :: _, [] => Gt
  | x :: a', y :: b' =>
      match N.compare (Byte.to_N x) (Byte.to_N y) with
      | Eq => bytes_compare a' b'
      | c => c
      end
  end.

Definition ChecksumBase_compare (a b : ChecksumBase) : comparison :=
  bytes_compare (data a) (data b).

(** [MerkleNodeData]: member by member in the order of declaration, the
    first member that differs decides. *)
Definition MerkleNodeData_compare (a b : MerkleNodeData) : comparison :=
  match ChecksumBase_compare (checksum a) (checksum b) with
  | Eq =>
      match chunk_offset a ?= chunk_offset b with
      | Eq => chunk_size a ?= chunk_size b
      | c => c
      end
  | c => c
  end.

(** ** Merkle.hpp: the constructor from a stream *)

Section AlgoStream.

Variable hash : list byte -> ChecksumBase.

(** [generate_leaves] takes the stream by reference: what it leaves of the
    stream is the caller's. *)
Definition generate_leaves_stream (fuel : nat) (m_ChunkSize : Z) (h : store)
    (stream : istringstream) : outcome (store * Level * istringstream) :=
  st ← while_ fuel (fun st => negb (eof (gl_stream st)))
         (generate_leaves_body hash m_ChunkSize)
         {| gl_store := h; gl_stream := stream;
            gl_buf := replicate (Z.to_nat m_ChunkSize) x00;
            gl_result := []; gl_read_offset := 0 |};
  Ok (gl_store st, gl_result st, gl_stream st).


End AlgoStream.


(** ** Notions for the properties *)

(** The first comparison decides unless it is [Eq]. *)
Definition lex_comparison (c d : comparison) : comparison :=
  match c with
  | Eq => d
  | Lt => Lt
  | Gt => Gt
  end.

(** The stream is good, or it is at its end with both bits set. *)
Definition stream_inv (st : leaves_state) : Prop :=
  (eofbit (gl_stream st) = false /\ failbit (gl_stream st) = false)
  \/ (eofbit (gl_stream st) = true /\ failbit (gl_stream st) = true
      /\ rdbuf (gl_stream st) = []).

(** The contents of [main.cpp], for examples. *)
Definition hello_world : list byte := list_byte_of_string "hello world".

(** The value of a hexadecimal digit, and the byte of two of them. *)
Definition hex_value (c : ascii) : Z :=
  let n := Z.of_N (N_of_ascii c) in
  if n <? 58 then n - 48 else n - 87.

Fixpoint unhex (l : list ascii) : list byte :=
  match l with
  | hi :: lo :: rest => SHA256.Zbyte (16 * hex_value hi + hex_value lo) :: unhex rest
  | _ => []
  end.

(** The [i]-th chunk of [c] bytes of [s]. *)
Definition chunk_at (c : Z) (s : list byte) (i : nat) : list byte :=
  take (Z.to_nat c) (drop (i * Z.to_nat c) s).

(** The bytes of [s] that a node covers. *)
Definition covered_bytes (s : list byte) (d : MerkleNodeData) : list byte :=
  take (Z.to_nat (chunk_size d)) (drop (Z.to_nat (chunk_offset d)) s).

(** The leaves below the node at [p], from left to right; [fuel] bounds
    the depth. *)
Fixpoint leaves_of (fuel : nat) (h : store) (p : ptr) : list ptr :=
  match fuel with
  | O => []
  | S fuel' =>
      match h !! p with
      | None => []
      | Some n =>
          if isLeaf n then [p]
          else from_option (leaves_of fuel' h) [] (left n)
                 ++ from_option (leaves_of fuel' h) [] (right n)
      end
  end.

Section AlgoMore.

Variable hash : list byte -> ChecksumBase.

(** The root of a list of node data: passes of [reduce_data] until one
    node is left. *)
Fixpoint reduce_to_root (fuel : nat) (ds : list MerkleNodeData)
    : option MerkleNodeData :=
  match ds with
  | [] => None
  | [d] => Some d
  | _ :: _ :: _ =>
      match fuel with
      | O => None
      | S fuel' => reduce_to_root fuel' (reduce_data hash ds)
      end
  end.

(** A node reaches, by [left] and [right], only nodes allocated before it
    and not before [base]. *)
Definition wf_from (base : nat) (h : store) : Prop :=
  forall (p : ptr) (n : MerkleNode),
    (base <= p)%nat -> h !! p = Some n ->
    isLeaf n = true
    \/ exists l r : ptr,
         left n = Some l /\ right n = Some r
         /\ (base <= l < p)%nat /\ (base <= r < p)%nat.

(** The range of a node lies in the input, and the range of a right child
    begins where the range of the left child ends. *)
Definition node_range (total : Z) (h : store) (n : MerkleNode) : Prop :=
  0 <= chunk_offset (node n) /\ 0 <= chunk_size (node n)
  /\ chunk_offset (node n) + chunk_size (node n) <= total
  /\ (isLeaf n = true
      \/ exists (l r : ptr) (nl nr : MerkleNode),
           left n = Some l /\ right n = Some r
           /\ h !! l = Some nl /\ h !! r = Some nr
           /\ chunk_offset (node nr)
              = chunk_offset (node nl) + chunk_size (node nl)).

(** The leaves below a node, with fuel enough for its address. *)
Definition leaves_below (h : store) (p : ptr) : list ptr := leaves_of (S p) h p.

(** What holds further of the store and of the level under construction:
    the store is the one before the construction, then the leaves, then
    internal nodes, one fewer than the nodes that have left the level; the
    leaves below the level are all the leaves in order; the data of the
    level reduce to the root of the data of the leaves; a level of one node
    holds the node allocated last. *)
Definition shape_inv (total : Z) (h0 : store) (ds : list MerkleNodeData)
    (h : store) (lv : Level) : Prop :=
  (exists inner : list MerkleNode,
      h = h0 ++ map fresh_node ds ++ inner
      /\ Forall (fun n => isLeaf n = false) inner
      /\ (length inner + length lv = length ds)%nat)
  /\ wf_from (length h0) h
  /\ flat_map (leaves_below h) lv = seq (length h0) (length ds)
  /\ (forall (p : ptr) (n : MerkleNode),
        (length h0 <= p)%nat -> h !! p = Some n -> node_range total h n)
  /\ reduce_to_root (length (level_data h lv)) (level_data h lv)
     = reduce_to_root (length ds) ds
  /\ (length lv = 1%nat -> lv = [(length h - 1)%nat]).

End AlgoMore.
(** * Properties *)

(** ** Checksum.hpp: the hexadecimal rendering *)

Lemma put_hex_w2_two_digits (d : byte) : put_hex_w2 d = two_hex_digits d.
Proof. destruct d; reflexivity. Qed.

Lemma two_hex_digits_lower (d : byte) :
  forallb is_lower_hex (two_hex_digits d) = true.
Proof. destruct d; reflexivity. Qed.

Lemma string_of_chars_length (l : list ascii) :
  String.length (string_of_chars l) = length l.
Proof. induction l as [|c l IH]; simpl; [reflexivity | now rewrite IH]. Qed.

Lemma foldl_put_hex (bs : list byte) (acc : list ascii) :
  foldl (fun ss d => ss ++ put_hex_w2 d) acc bs
  = acc ++ concat (map two_hex_digits bs).
Proof.
  revert acc. induction bs as [|b bs IH]; intros acc; simpl.
  - now rewrite app_nil_r.
  - rewrite IH, put_hex_w2_two_digits, <- app_assoc. reflexivity.
Qed.

Lemma hexDigest_concat (c : ChecksumBase) :
  hexDigest c = string_of_chars (concat (map two_hex_digits (data c))).
Proof. unfold hexDigest. now rewrite foldl_put_hex. Qed.

Lemma concat_two_hex_length (bs : list byte) :
  length (concat (map two_hex_digits bs)) = (2 * length bs)%nat.
Proof. induction bs as [|b bs IH]; simpl; [reflexivity | rewrite IH; lia]. Qed.

Lemma concat_two_hex_lower (bs : list byte) :
  forallb is_lower_hex (concat (map two_hex_digits bs)) = true.
Proof.
  induction bs as [|b bs IH]; [reflexivity|].
  change (concat (map two_hex_digits (b :: bs)))
    with (two_hex_digits b ++ concat (map two_hex_digits bs)).
  rewrite forallb_app, IH, two_hex_digits_lower. reflexivity.
Qed.

Lemma Sha256_hash_length (contents : list byte) :
  Z.of_nat (length (data (Sha256.hash contents))) = size_bytes Sha256.Bits.
Proof. reflexivity. Qed.

(** C10. [hexDigest] writes every byte of the digest as exactly two
    lowercase hexadecimal digits, zero padded, in order and with nothing
    between or before them; the string is twice as long as the digest, 64
    characters for SHA-256; and the digest of "hello world" renders as the
    reference SHA-256 value. *)
Theorem hexDigest_two_lowercase_digits_per_byte :
  (forall c : ChecksumBase,
      hexDigest c = string_of_chars (concat (map two_hex_digits (data c)))
      /\ String.length (hexDigest c) = (2 * length (data c))%nat
      /\ forallb is_lower_hex (list_ascii_of_string (hexDigest c)) = true)
  /\ (forall contents : list byte,
         String.length (hexDigest (Sha256.hash contents)) = 64%nat)
  /\ hexDigest (Sha256.hash (list_byte_of_string "hello world"))
     = "b94d27b9934d3e08a52e52d7da7dabfac484efe37a5380ee9088f7ace2efcde9"%string.
Proof.
  split; [|split].
  - intros c. rewrite hexDigest_concat. split; [reflexivity|]. split.
    + rewrite string_of_chars_length. apply concat_two_hex_length.
    + replace (list_ascii_of_string (string_of_chars (concat (map two_hex_digits (data c)))))
        with (concat (map two_hex_digits (data c))).
      * apply concat_two_hex_lower.
      * generalize (concat (map two_hex_digits (data c))) as l.
        induction l as [|a l IH]; simpl; [reflexivity | now rewrite <- IH].
  - intros contents. rewrite hexDigest_concat, string_of_chars_length,
      concat_two_hex_length.
    pose proof (Sha256_hash_length contents) as H.
    change (size_bytes Sha256.Bits) with 32 in H. lia.
  - vm_compute. reflexivity.
Qed.

(** ** Outcomes, loops and vectors *)

Lemma bind_Ok {A B} (a : A) (k : A -> outcome B) : (Ok a ≫= k) = k a.
Proof. reflexivity. Qed.

Lemma while__done {S} fuel (cond : S -> bool) body s :
  cond s = false -> while_ fuel cond body s = Ok s.
Proof. intros H. destruct fuel; simpl; now rewrite H. Qed.

Lemma while__step {S} fuel (cond : S -> bool) body s s' :
  cond s = true -> body s = Ok s' ->
  while_ (Datatypes.S fuel) cond body s = while_ fuel cond body s'.
Proof. intros Hc Hb. simpl. now rewrite Hc, Hb. Qed.

(** A loop whose test never fails and whose body keeps the state is still
    running whatever the fuel. *)
Lemma while__stuck {S} fuel (cond : S -> bool) body s :
  cond s = true -> body s = Ok s -> while_ fuel cond body s = Timeout.
Proof.
  intros Hc Hb. induction fuel as [|fuel IH]; simpl; rewrite Hc; [reflexivity|].
  rewrite Hb. exact IH.
Qed.

Lemma size_t_wrap_small z : 0 <= z <= SIZE_MAX -> size_t_wrap z = z.
Proof. unfold size_t_wrap, SIZE_MAX. intros H. apply Z.mod_small. lia. Qed.

Lemma to_streamsize_small z : z <= STREAMSIZE_MAX -> to_streamsize z = z.
Proof.
  intros H. unfold to_streamsize. destruct (Z.leb_spec z STREAMSIZE_MAX); [reflexivity | lia].
Qed.

Lemma vec_at_app {A} (done todo : list A) (x : A) :
  vec_at (done ++ x :: todo) (Z.of_nat (length done)) = Ok x.
Proof.
  unfold vec_at. destruct (Z.ltb_spec (Z.of_nat (length done)) 0); [lia|].
  rewrite Nat2Z.id, list_lookup_middle; reflexivity.
Qed.

Lemma vec_at_app_succ {A} (done todo : list A) (x y : A) :
  vec_at (done ++ x :: y :: todo) (Z.of_nat (length done) + 1) = Ok y.
Proof.
  replace (done ++ x :: y :: todo) with ((done ++ [x]) ++ y :: todo)
    by now rewrite <- app_assoc.
  replace (Z.of_nat (length done) + 1) with (Z.of_nat (length (done ++ [x])))
    by (rewrite length_app; simpl; lia).
  apply vec_at_app.
Qed.

Lemma vec_back_app {A} (l : list A) (x : A) : vec_back (l ++ [x]) = Ok x.
Proof. unfold vec_back. now rewrite last_snoc. Qed.

Lemma deref_app_l (h h' : store) (p : ptr) :
  (p < length h)%nat -> deref (h ++ h') p = deref h p.
Proof. intros H. unfold deref. now rewrite lookup_app_l. Qed.

Lemma deref_Some (h : store) (p : ptr) (n : MerkleNode) :
  h !! p = Some n -> deref h p = Ok n.
Proof. intros H. unfold deref. now rewrite H. Qed.

Lemma set_left_new (h : store) (n : MerkleNode) (l : option ptr) :
  set_left (h ++ [n]) (length h) l
  = Ok (h ++ [{| node := node n; parent := parent n; left := l; right := right n |}]).
Proof.
  unfold set_left. rewrite (deref_Some _ _ n) by apply list_lookup_middle, eq_refl.
  rewrite bind_Ok. f_equal.
  replace (length h) with (length h + 0)%nat at 1 by lia.
  now rewrite insert_app_r.
Qed.

Lemma set_right_new (h : store) (n : MerkleNode) (r : option ptr) :
  set_right (h ++ [n]) (length h) r
  = Ok (h ++ [{| node := node n; parent := parent n; left := left n; right := r |}]).
Proof.
  unfold set_right. rewrite (deref_Some _ _ n) by apply list_lookup_middle, eq_refl.
  rewrite bind_Ok. f_equal.
  replace (length h) with (length h + 0)%nat at 1 by lia.
  now rewrite insert_app_r.
Qed.

(** ** [generate_leaves] *)

Section Leaves.

Variable hash : list byte -> ChecksumBase.

Lemma leaf_data_nil n c off : leaf_data hash n c off [] = [].
Proof. destruct n; reflexivity. Qed.

(** One pass of the loop on a good stream, for a chunk size of at least 1. *)
Lemma generate_leaves_body_good (c : Z) (rest buf : list byte) (h : store)
    (res : Level) (off k : Z) :
  1 <= c <= STREAMSIZE_MAX ->
  let got := take (Z.to_nat c) rest in
  let short := negb (Z.of_nat (length got) =? c) in
  let stream' :=
    {| rdbuf := drop (Z.to_nat c) rest; eofbit := short; failbit := short;
       gcount := Z.of_nat (length got) |} in
  let buf' := got ++ drop (length got) (replicate (length buf) x00) in
  generate_leaves_body hash c
    {| gl_store := h; gl_stream := good_stream rest k; gl_buf := buf;
       gl_result := res; gl_read_offset := off |}
  = Ok (match rest with
        | [] => {| gl_store := h; gl_stream := stream'; gl_buf := buf';
                   gl_result := res; gl_read_offset := off |}
        | _ :: _ =>
            {| gl_store :=
                 h ++ [fresh_node {| checksum := hash got; chunk_offset := off;
                                     chunk_size := Z.of_nat (length got) |}];
               gl_stream := stream'; gl_buf := buf';
               gl_result := res ++ [length h];
               gl_read_offset := size_t_add off (Z.of_nat (length got)) |}
        end).
Proof.
  intros Hc got short stream' buf'.
  unfold generate_leaves_body.
  cbn [gl_store gl_stream gl_buf gl_result gl_read_offset].
  rewrite to_streamsize_small by lia.
  unfold read, good_stream. cbn [good eofbit failbit negb andb rdbuf].
  fold got. fold short. fold stream'. fold buf'.
  cbn [gcount stream'].
  assert (Hlen : (length got <= Z.to_nat c)%nat) by (subst got; rewrite length_take; lia).
  rewrite size_t_wrap_small by (unfold STREAMSIZE_MAX, SIZE_MAX in *; lia).
  destruct rest as [|b rest].
  - assert (E : length got = 0%nat) by (subst got; now rewrite take_nil).
    rewrite E. reflexivity.
  - assert (Hpos : (0 < length got)%nat).
    { subst got. rewrite length_take. simpl. lia. }
    destruct (Z.eqb_spec (Z.of_nat (length got)) 0) as [E|_]; [lia|].
    cbn [negb make_shared]. rewrite Nat2Z.id.
    unfold buf' at 1. rewrite take_app_length. reflexivity.
Qed.

(** Nothing is left: the read sets [eofbit] and makes no leaf. *)
Lemma generate_leaves_loop_nil (c : Z) (buf : list byte) (h : store)
    (res : Level) (off k : Z) (fuel : nat) :
  1 <= c <= STREAMSIZE_MAX ->
  exists st,
    while_ (S fuel) (fun st => negb (eof (gl_stream st)))
      (generate_leaves_body hash c)
      {| gl_store := h; gl_stream := good_stream [] k; gl_buf := buf;
         gl_result := res; gl_read_offset := off |} = Ok st
    /\ gl_store st = h /\ gl_result st = res.
Proof.
  intros Hc. eexists. split.
  - erewrite while__step;
      [ | reflexivity | apply (generate_leaves_body_good c [] buf h res off k Hc) ].
    apply while__done. cbn [gl_stream eof eofbit].
    rewrite take_nil. cbn [length].
    destruct (Z.eqb_spec (Z.of_nat 0) c); [lia | reflexivity].
  - split; reflexivity.
Qed.

(** The loop of [generate_leaves] from a good stream: it ends, and it has
    appended the leaves of the unread characters. *)
Lemma generate_leaves_loop (c : Z) (n : nat) :
  1 <= c <= STREAMSIZE_MAX ->
  forall (rest buf : list byte) (h : store) (res : Level) (off k : Z) (fuel : nat),
    (length rest <= n)%nat -> (n < fuel)%nat ->
    exists st,
      while_ fuel (fun st => negb (eof (gl_stream st)))
        (generate_leaves_body hash c)
        {| gl_store := h; gl_stream := good_stream rest k; gl_buf := buf;
           gl_result := res; gl_read_offset := off |} = Ok st
      /\ gl_store st = h ++ map fresh_node (leaf_data hash (S n) c off rest)
      /\ gl_result st
         = res ++ seq (length h) (length (leaf_data hash (S n) c off rest)).
Proof.
  intros Hc. induction n as [|n IH]; intros rest buf h res off k fuel Hn Hf;
    (destruct fuel as [|fuel]; [lia|]);
    (destruct rest as [|b rest];
     [ destruct (generate_leaves_loop_nil c buf h res off k fuel Hc)
         as (st & Hst & Hs & Hr);
       exists st; split; [exact Hst|];
       cbn [leaf_data map length seq]; now rewrite !app_nil_r
     | ]).
  - simpl in Hn. lia.
  - pose proof (generate_leaves_body_good c (b :: rest) buf h res off k Hc) as Hb.
    cbv zeta in Hb.
    set (got := take (Z.to_nat c) (b :: rest)) in *.
    erewrite while__step; [| reflexivity | exact Hb].
    change (leaf_data hash (S (S n)) c off (b :: rest))
      with ({| checksum := hash got; chunk_offset := off;
               chunk_size := Z.of_nat (length got) |}
              :: leaf_data hash (S n) c (size_t_add off (Z.of_nat (length got)))
                   (drop (Z.to_nat c) (b :: rest))).
    destruct (Z.eqb_spec (Z.of_nat (length got)) c) as [Efull|Eshort].
    + (* a full chunk: the stream stays good *)
      cbn [negb].
      destruct (IH (drop (Z.to_nat c) (b :: rest))
                  (got ++ drop (length got) (replicate (length buf) x00))
                  (h ++ [fresh_node {| checksum := hash got; chunk_offset := off;
                                       chunk_size := Z.of_nat (length got) |}])
                  (res ++ [length h]) (size_t_add off (Z.of_nat (length got)))
                  (Z.of_nat (length got)) fuel) as (st & Hst & Hs & Hr).
      { rewrite length_drop. simpl in *. lia. }
      { lia. }
      exists st. split; [exact Hst|]. split.
      * rewrite Hs. cbn [map]. now rewrite <- app_assoc.
      * rewrite Hr. cbn [length seq]. rewrite <- app_assoc. cbn [app].
        rewrite length_app. cbn [length]. now rewrite Nat.add_1_r.
    + (* the last, shorter chunk: the read sets eofbit *)
      cbn [negb]. eexists. split; [apply while__done; reflexivity|].
      assert (Hd : drop (Z.to_nat c) (b :: rest) = []).
      { apply drop_ge. subst got. rewrite length_take in Eshort. lia. }
      cbn [gl_store gl_result]. rewrite Hd, leaf_data_nil. split; reflexivity.
Qed.

End Leaves.

(** ** [make_tree]: the inner loop *)

Lemma list_pair_ind {A} (P : list A -> Prop) :
  P [] -> (forall x, P [x]) -> (forall x y l, P l -> P (x :: y :: l)) ->
  forall l, P l.
Proof.
  intros H0 H1 H2 l.
  assert (H : P l /\ forall x, P (x :: l)).
  { induction l as [|a l [IHl IHx]]; split; auto. }
  apply H.
Qed.

Lemma length_div2_SS {A} (x y : A) (l : list A) :
  (length (x :: y :: l) / 2 = S (length l / 2))%nat.
Proof.
  cbn [length]. replace (S (S (length l))) with (1 * 2 + length l)%nat by lia.
  rewrite Nat.div_add_l by lia. reflexivity.
Qed.

Section Pairs.

Variable hash : list byte -> ChecksumBase.

Lemma pairs_body_step (h0 : store) (done rest : Level) (x y : ptr)
    (new : list MerkleNode) (lv : Level) (nl nr : MerkleNode) :
  h0 !! x = Some nl -> h0 !! y = Some nr ->
  Z.of_nat (length done) + 2 <= INT_MAX ->
  pairs_body hash (done ++ x :: y :: rest)
    {| ps_store := h0 ++ new; ps_level := lv; ps_i := Z.of_nat (length done) |}
  = Ok {| ps_store :=
            (h0 ++ new)
              ++ [{| node := join_data hash (node nl) (node nr);
                     parent := None; left := Some x; right := Some y |}];
          ps_level := lv ++ [length (h0 ++ new)];
          ps_i := Z.of_nat (length done) + 2 |}.
Proof.
  intros Hx Hy Hi. unfold pairs_body. cbn [ps_store ps_level ps_i].
  rewrite vec_at_app, bind_Ok, vec_at_app_succ, bind_Ok.
  rewrite !deref_app_l by (eapply lookup_lt_Some; eassumption).
  rewrite (deref_Some _ _ _ Hx), bind_Ok, (deref_Some _ _ _ Hy), bind_Ok.
  cbn [make_shared]. rewrite set_left_new, bind_Ok. cbn [node parent left right].
  rewrite set_right_new, bind_Ok. cbn [node parent left right].
  unfold int_add. destruct (Z.leb_spec (Z.of_nat (length done) + 2) INT_MAX); [|lia].
  reflexivity.
Qed.

Lemma pairs_cond_spec (prev : Level) (h : store) (lv : Level) (i : Z) :
  (1 <= length prev)%nat -> Z.of_nat (length prev) <= INT_MAX ->
  0 <= i <= INT_MAX ->
  pairs_cond prev {| ps_store := h; ps_level := lv; ps_i := i |}
  = (i <? Z.of_nat (length prev) - 1).
Proof.
  intros H1 H2 Hi. unfold pairs_cond, size_t_sub. cbn [ps_i].
  rewrite !size_t_wrap_small; [reflexivity | |];
    unfold INT_MAX, SIZE_MAX in *; lia.
Qed.

(** The inner loop over what is left of [prev]: it ends, having allocated
    the parents of the pairs in order. *)
Lemma pairs_loop (h0 : store) (todo : Level) :
  forall (done : Level) (new : list MerkleNode) (fuel : nat),
    valid_level h0 todo ->
    (1 <= length (done ++ todo))%nat ->
    Z.of_nat (length (done ++ todo)) <= INT_MAX ->
    (length todo / 2 <= fuel)%nat ->
    while_ fuel (pairs_cond (done ++ todo)) (pairs_body hash (done ++ todo))
      {| ps_store := h0 ++ new; ps_level := seq (length h0) (length new);
         ps_i := Z.of_nat (length done) |}
    = Ok {| ps_store := h0 ++ new ++ paired hash h0 todo;
            ps_level := seq (length h0) (length new + length (paired hash h0 todo));
            ps_i := Z.of_nat (length done + 2 * (length todo / 2)) |}.
Proof.
  induction todo as [|x|x y rest IH] using list_pair_ind;
    intros done new fuel Hv H1 Hmax Hfuel.
  - rewrite while__done.
    + cbn [paired length]. rewrite !app_nil_r.
      f_equal. f_equal; [f_equal; lia | simpl; lia].
    + rewrite length_app in Hmax, H1. cbn [length] in Hmax, H1.
      rewrite pairs_cond_spec by (rewrite ?length_app; cbn [length]; lia).
      rewrite length_app. cbn [length]. apply Z.ltb_ge. lia.
  - rewrite while__done.
    + cbn [paired length]. rewrite !app_nil_r.
      f_equal. f_equal; [f_equal; lia | simpl; lia].
    + rewrite length_app in Hmax, H1. cbn [length] in Hmax, H1.
      rewrite pairs_cond_spec by (rewrite ?length_app; cbn [length]; lia).
      rewrite length_app. cbn [length]. apply Z.ltb_ge. lia.
  - rewrite length_div2_SS in Hfuel. destruct fuel as [|fuel]; [lia|].
    apply Forall_cons in Hv as [Hx Hv]. apply Forall_cons in Hv as [Hy Hv].
    destruct (lookup_lt_is_Some_2 h0 x Hx) as [nl Hnl].
    destruct (lookup_lt_is_Some_2 h0 y Hy) as [nr Hnr].
    rewrite length_app in Hmax, H1. cbn [length] in Hmax, H1.
    erewrite while__step;
      [ | rewrite pairs_cond_spec by (rewrite ?length_app; cbn [length]; lia);
          rewrite length_app; cbn [length]; apply Z.ltb_lt; lia
        | apply (pairs_body_step h0 done rest x y new _ nl nr Hnl Hnr); lia ].
    set (nd := {| node := join_data hash (node nl) (node nr);
                  parent := None; left := Some x; right := Some y |}).
    specialize (IH (done ++ [x; y]) (new ++ [nd]) fuel Hv).
    rewrite <- !app_assoc in IH. cbn [app] in IH.
    rewrite !length_app in IH. cbn [length] in IH.
    replace (Z.of_nat (length done) + 2) with (Z.of_nat (length done + 2)) by lia.
    rewrite (length_app h0 new).
    replace (seq (length h0) (length new) ++ [(length h0 + length new)%nat])
      with (seq (length h0) (length new + 1)).
    2:{ rewrite seq_app. reflexivity. }
    replace ((h0 ++ new) ++ [nd]) with (h0 ++ new ++ [nd]) by now rewrite app_assoc.
    rewrite IH by lia.
    cbn [paired]. rewrite Hnl, Hnr. fold nd. rewrite length_div2_SS.
    cbn [length]. f_equal. f_equal.
    + f_equal. lia.
    + f_equal. lia.
Qed.

End Pairs.

(** ** [make_tree]: the outer loop *)

Lemma odd_Z_mod2 (m : nat) :
  negb (Z.of_nat m mod 2 =? 0) = Nat.odd m.
Proof.
  destruct (Nat.odd m) eqn:E.
  - apply Nat.odd_spec in E. destruct E as [q ->].
    destruct (Z.eqb_spec (Z.of_nat (2 * q + 1) mod 2) 0); [lia | reflexivity].
  - assert (Hev : Nat.even m = true) by (rewrite <- Nat.negb_odd, E; reflexivity).
    apply Nat.even_spec in Hev. destruct Hev as [q ->].
    destruct (Z.eqb_spec (Z.of_nat (2 * q) mod 2) 0); [reflexivity | lia].
Qed.

Lemma halve_up_odd (m : nat) :
  halve_up m = (m / 2 + if Nat.odd m then 1 else 0)%nat.
Proof.
  unfold halve_up.
  rewrite (Nat.div_mod_eq m 2) at 1.
  pose proof (Nat.mod_upper_bound m 2).
  destruct (Nat.odd m) eqn:E.
  - apply Nat.odd_spec in E. destruct E as [q Hq].
    replace (m mod 2)%nat with 1%nat.
    2:{ rewrite Hq, Nat.add_comm, Nat.mul_comm, Nat.Div0.mod_add. reflexivity. }
    replace (2 * (m / 2) + 1 + 1)%nat with ((m / 2 + 1) * 2)%nat by lia.
    now rewrite Nat.div_mul.
  - assert (Hev : Nat.even m = true) by (rewrite <- Nat.negb_odd, E; reflexivity).
    apply Nat.even_spec in Hev. destruct Hev as [q Hq].
    replace (m mod 2)%nat with 0%nat.
    2:{ rewrite Hq, Nat.mul_comm, Nat.Div0.mod_mul. reflexivity. }
    replace (2 * (m / 2) + 0 + 1)%nat with (1 + (m / 2) * 2)%nat by lia.
    rewrite Nat.div_add by lia. simpl. lia.
Qed.

Lemma halve_up_bounds (m : nat) :
  (1 <= m -> 1 <= halve_up m <= m)%nat.
Proof.
  intros H. unfold halve_up. split.
  - apply Nat.div_le_lower_bound; lia.
  - apply Nat.Div0.div_le_upper_bound; lia.
Qed.

Section Levels.

Variable hash : list byte -> ChecksumBase.

Lemma paired_length (h : store) (prev : Level) :
  valid_level h prev -> length (paired hash h prev) = (length prev / 2)%nat.
Proof.
  induction prev as [|x|x y rest IH] using list_pair_ind; intros Hv.
  - reflexivity.
  - reflexivity.
  - apply Forall_cons in Hv as [Hx Hv]. apply Forall_cons in Hv as [Hy Hv].
    destruct (lookup_lt_is_Some_2 h x Hx) as [nl Hnl].
    destruct (lookup_lt_is_Some_2 h y Hy) as [nr Hnr].
    rewrite length_div2_SS. cbn [paired]. rewrite Hnl, Hnr. cbn [length].
    now rewrite IH.
Qed.

Lemma odd_tail_length (prev : Level) :
  (1 <= length prev)%nat ->
  length (odd_tail prev) = if Nat.odd (length prev) then 1%nat else 0%nat.
Proof.
  intros H. unfold odd_tail. destruct (Nat.odd (length prev)); [|reflexivity].
  destruct prev as [|x prev] using rev_ind; [simpl in H; lia|].
  now rewrite last_snoc.
Qed.

Lemma odd_tail_Forall (P : ptr -> Prop) (prev : Level) :
  Forall P prev -> Forall P (odd_tail prev).
Proof.
  intros Hv. unfold odd_tail. destruct (Nat.odd (length prev)); [|constructor].
  destruct (last prev) as [x|] eqn:E; [|constructor].
  constructor; [|constructor].
  apply last_Some in E as [l' ->]. apply Forall_app in Hv as [_ Hv].
  now apply Forall_cons in Hv as [Hx _].
Qed.

Lemma odd_tail_valid (h : store) (prev : Level) :
  valid_level h prev -> valid_level h (odd_tail prev).
Proof. apply odd_tail_Forall. Qed.

Lemma valid_level_mono (h h' : store) (lv : Level) :
  valid_level h lv -> valid_level (h ++ h') lv.
Proof.
  unfold valid_level. intros H. eapply Forall_impl; [exact H|].
  intros p Hp. rewrite length_app. simpl in *. lia.
Qed.

Lemma valid_level_seq (h h' : store) :
  valid_level (h ++ h') (seq (length h) (length h')).
Proof.
  unfold valid_level. apply Forall_forall. intros p Hp.
  apply elem_of_seq in Hp. rewrite length_app. lia.
Qed.

(** What a pass keeps: the next level is allocated, not empty, and half as
    long, rounded up. *)
Lemma reduce_level_basics (h : store) (prev : Level) :
  valid_level h prev -> (1 <= length prev)%nat ->
  valid_level (reduce_level hash h prev).1 (reduce_level hash h prev).2
  /\ length (reduce_level hash h prev).2 = halve_up (length prev)
  /\ (1 <= length (reduce_level hash h prev).2 <= length prev)%nat.
Proof.
  intros Hv H1. unfold reduce_level. cbn [fst snd].
  assert (Hlen : length (seq (length h) (length (paired hash h prev)) ++ odd_tail prev)
                 = halve_up (length prev)).
  { rewrite length_app, length_seq, paired_length, odd_tail_length by assumption.
    now rewrite halve_up_odd. }
  split; [|split].
  - apply Forall_app. split.
    + apply valid_level_seq.
    + apply valid_level_mono, odd_tail_valid, Hv.
  - exact Hlen.
  - rewrite Hlen. now apply halve_up_bounds.
Qed.

(** One pass of the outer loop is [reduce_level]. *)
Lemma levels_body_spec (fuel : nat) (h : store) (tr : list Level) (prev : Level)
    (i : Z) :
  valid_level h prev -> (1 <= length prev)%nat ->
  Z.of_nat (length prev) <= INT_MAX -> i + 1 <= INT_MAX ->
  (length prev / 2 <= fuel)%nat ->
  levels_body hash fuel {| ts_store := h; ts_tree := tr ++ [prev]; ts_i := i |}
  = Ok {| ts_store := (reduce_level hash h prev).1;
          ts_tree := (tr ++ [prev]) ++ [(reduce_level hash h prev).2];
          ts_i := i + 1 |}.
Proof.
  intros Hv H1 Hmax Hi Hfuel. unfold levels_body. cbn [ts_store ts_tree ts_i].
  rewrite vec_back_app, bind_Ok.
  pose proof (pairs_loop hash h prev [] [] fuel Hv) as Hloop.
  cbn [app length seq] in Hloop. rewrite app_nil_r in Hloop.
  change (Z.of_nat 0) with 0 in Hloop.
  rewrite Hloop by assumption. rewrite bind_Ok. cbn [ps_store ps_level].
  rewrite odd_Z_mod2. unfold reduce_level, odd_tail. cbn [fst snd].
  unfold int_add. destruct (Z.leb_spec (i + 1) INT_MAX); [|lia].
  destruct (Nat.odd (length prev)).
  - destruct prev as [|x prev _] using rev_ind; [simpl in H1; lia|].
    rewrite vec_back_app, bind_Ok, last_snoc. reflexivity.
  - rewrite bind_Ok. cbn [option_list]. now rewrite app_nil_r.
Qed.

Lemma reduce_levels_S (k : nat) (h : store) (tree : list Level) (prev : Level) :
  reduce_levels hash (S k) h tree prev
  = reduce_levels hash k (reduce_level hash h prev).1
      (tree ++ [(reduce_level hash h prev).2]) (reduce_level hash h prev).2.
Proof. reflexivity. Qed.

Lemma below_log2_spec (j : Z) (n : nat) :
  (1 <= n)%nat ->
  below_log2 j (Z.of_nat n) = (j <? Z.log2_up (Z.of_nat n)).
Proof.
  intros Hn. unfold below_log2.
  pose proof (Z.log2_up_lt_pow2 (Z.of_nat n) j ltac:(lia)) as H.
  destruct (Z.ltb_spec (2 ^ j) (Z.of_nat n)), (Z.ltb_spec j (Z.log2_up (Z.of_nat n)));
    try reflexivity; exfalso; tauto || lia.
Qed.

Lemma log2_up_int (n : nat) :
  Z.of_nat n <= INT_MAX -> Z.log2_up (Z.of_nat n) <= 31.
Proof.
  intros H. change 31 with (Z.log2_up INT_MAX). now apply Z.log2_up_le_mono.
Qed.

(** The outer loop with [k] passes to go is [reduce_levels k]. *)
Lemma make_tree_levels_loop (n fuel0 : nat) :
  (1 <= n)%nat -> Z.of_nat n <= INT_MAX -> (n / 2 <= fuel0)%nat ->
  forall (k : nat) (j : Z) (h : store) (tr : list Level) (prev : Level) (fuel : nat),
    0 <= j -> j + Z.of_nat k = Z.log2_up (Z.of_nat n) ->
    valid_level h prev -> (1 <= length prev <= n)%nat -> (k <= fuel)%nat ->
    while_ fuel (fun st => below_log2 (ts_i st) (Z.of_nat n))
      (levels_body hash fuel0)
      {| ts_store := h; ts_tree := tr ++ [prev]; ts_i := j |}
    = Ok {| ts_store := (reduce_levels hash k h (tr ++ [prev]) prev).1;
            ts_tree := (reduce_levels hash k h (tr ++ [prev]) prev).2;
            ts_i := j + Z.of_nat k |}.
Proof.
  intros Hn Hmax Hfuel0.
  induction k as [|k IH]; intros j h tr prev fuel Hj Hjk Hv Hlen Hfuel.
  - rewrite while__done.
    + cbn [reduce_levels fst snd]. do 2 f_equal. lia.
    + cbn [ts_i]. rewrite below_log2_spec by assumption. apply Z.ltb_ge. lia.
  - destruct fuel as [|fuel]; [lia|].
    pose proof (log2_up_int n Hmax) as H31.
    assert (Hdiv : (length prev / 2 <= n / 2)%nat)
      by (apply Nat.Div0.div_le_mono; lia).
    erewrite while__step;
      [ | cbn [ts_i]; rewrite below_log2_spec by assumption; apply Z.ltb_lt; lia
        | apply levels_body_spec; unfold INT_MAX in *; lia || assumption ].
    destruct (reduce_level_basics h prev Hv) as (Hv' & Hl' & Hb'); [lia|].
    rewrite IH; try assumption; try lia.
    rewrite reduce_levels_S. do 2 f_equal. lia.
Qed.

Lemma log2_up_le_self (n : nat) : (num_passes n <= n)%nat.
Proof.
  unfold num_passes. pose proof (Z.log2_up_le_lin (Z.of_nat n)). lia.
Qed.

(** The loop of [make_tree] on at least one leaf. *)
Lemma make_tree_levels_spec (fuel : nat) (h : store) (leaves : Level) :
  valid_level h leaves -> (1 <= length leaves)%nat ->
  Z.of_nat (length leaves) <= INT_MAX -> (length leaves <= fuel)%nat ->
  make_tree_levels hash fuel h leaves
  = Ok {| ts_store := (reduce_levels hash (num_passes (length leaves)) h [leaves] leaves).1;
          ts_tree := (reduce_levels hash (num_passes (length leaves)) h [leaves] leaves).2;
          ts_i := Z.log2_up (Z.of_nat (length leaves)) |}.
Proof.
  intros Hv H1 Hmax Hfuel. unfold make_tree_levels.
  pose proof (Z.log2_up_nonneg (Z.of_nat (length leaves))) as Hnn.
  pose proof (log2_up_le_self (length leaves)) as Hle.
  assert (Hdiv : (length leaves / 2 <= length leaves)%nat)
    by (apply Nat.Div0.div_le_upper_bound; lia).
  change [leaves] with ([] ++ [leaves]) at 1.
  rewrite (make_tree_levels_loop (length leaves) fuel H1 Hmax ltac:(lia)
             (num_passes (length leaves)) 0 h [] leaves fuel);
    try assumption; unfold num_passes in *; try lia.
  cbn [app]. do 2 f_equal. lia.
Qed.

End Levels.

(** ** The data of the levels *)

Section Data.

Variable hash : list byte -> ChecksumBase.

Lemma level_data_cons (h : store) (p : ptr) (lv : Level) (n : MerkleNode) :
  h !! p = Some n -> level_data h (p :: lv) = node n :: level_data h lv.
Proof. intros H. unfold level_data. cbn [omap list_omap]. now rewrite H. Qed.

Lemma level_data_app (h : store) (a b : Level) :
  level_data h (a ++ b) = level_data h a ++ level_data h b.
Proof. unfold level_data. apply omap_app. Qed.

Lemma level_data_mono (h h' : store) (lv : Level) :
  valid_level h lv -> level_data (h ++ h') lv = level_data h lv.
Proof.
  induction 1 as [|p lv Hp _ IH]; [reflexivity|].
  destruct (lookup_lt_is_Some_2 h p Hp) as [n Hn].
  rewrite (level_data_cons h p lv n Hn).
  rewrite (level_data_cons (h ++ h') p lv n) by (now rewrite lookup_app_l).
  now rewrite IH.
Qed.

Lemma level_data_new (h new : store) :
  level_data (h ++ new) (seq (length h) (length new)) = map node new.
Proof.
  revert h. induction new as [|n new IH]; intros h; [reflexivity|].
  cbn [length seq map].
  rewrite (level_data_cons _ _ _ n) by apply list_lookup_middle, eq_refl.
  f_equal. specialize (IH (h ++ [n])).
  rewrite <- app_assoc, length_app in IH. cbn [app length] in IH.
  now rewrite Nat.add_1_r in IH.
Qed.

Lemma level_data_length (h : store) (lv : Level) :
  valid_level h lv -> length (level_data h lv) = length lv.
Proof.
  induction 1 as [|p lv Hp _ IH]; [reflexivity|].
  destruct (lookup_lt_is_Some_2 h p Hp) as [n Hn].
  rewrite (level_data_cons h p lv n Hn). cbn [length]. now rewrite IH.
Qed.

Lemma odd_tail_SS (x y : ptr) (rest : Level) :
  odd_tail (x :: y :: rest) = odd_tail rest.
Proof.
  unfold odd_tail. cbn [length]. rewrite Nat.odd_succ_succ.
  destruct rest as [|z rest]; [reflexivity|]. reflexivity.
Qed.

(** A pass on the store is [reduce_data] on the data. *)
Lemma paired_data (h : store) (prev : Level) :
  valid_level h prev ->
  map node (paired hash h prev) ++ level_data h (odd_tail prev)
  = reduce_data hash (level_data h prev).
Proof.
  induction prev as [|x|x y rest IH] using list_pair_ind; intros Hv.
  - reflexivity.
  - apply Forall_cons in Hv as [Hx _].
    destruct (lookup_lt_is_Some_2 h x Hx) as [n Hn].
    change (odd_tail [x]) with [x]. cbn [paired map app].
    now rewrite (level_data_cons h x [] n Hn).
  - apply Forall_cons in Hv as [Hx Hv]. apply Forall_cons in Hv as [Hy Hv].
    destruct (lookup_lt_is_Some_2 h x Hx) as [nl Hnl].
    destruct (lookup_lt_is_Some_2 h y Hy) as [nr Hnr].
    rewrite odd_tail_SS. cbn [paired]. rewrite Hnl, Hnr. cbn [map app node].
    rewrite (level_data_cons h x _ nl Hnl), (level_data_cons h y _ nr Hnr).
    cbn [reduce_data]. now rewrite IH.
Qed.

Lemma reduce_level_data (h : store) (prev : Level) :
  valid_level h prev ->
  level_data (reduce_level hash h prev).1 (reduce_level hash h prev).2
  = reduce_data hash (level_data h prev).
Proof.
  intros Hv. unfold reduce_level. cbn [fst snd].
  rewrite level_data_app, level_data_new.
  rewrite level_data_mono by now apply odd_tail_valid.
  now apply paired_data.
Qed.

Lemma total_span_nonneg (off : Z) (ds : list MerkleNodeData) :
  contiguous off ds -> 0 <= total_span ds.
Proof.
  revert off. induction ds as [|d ds IH]; intros off H.
  - reflexivity.
  - cbn [contiguous] in H. destruct H as (_ & Hs & Hc). specialize (IH _ Hc).
    cbn [total_span foldr]. fold (total_span ds). lia.
Qed.

(** Adjacent ranges stay adjacent, and the total span is kept, as long as
    the total is a [size_t]. *)
Lemma reduce_data_contiguous (ds : list MerkleNodeData) :
  forall off,
    contiguous off ds -> total_span ds <= SIZE_MAX ->
    contiguous off (reduce_data hash ds)
    /\ total_span (reduce_data hash ds) = total_span ds.
Proof.
  induction ds as [|a|a b rest IH] using list_pair_ind; intros off Hc Ht.
  - split; [exact Hc | reflexivity].
  - split; [exact Hc | reflexivity].
  - cbn [contiguous] in Hc. destruct Hc as (Ha & Hsa & Hb & Hsb & Hrest).
    pose proof (total_span_nonneg _ _ Hrest) as Hnn.
    cbn [total_span foldr] in Ht. fold (total_span rest) in Ht.
    assert (Hw : size_t_add (chunk_size a) (chunk_size b)
                 = chunk_size a + chunk_size b).
    { unfold size_t_add. apply size_t_wrap_small. lia. }
    destruct (IH (off + chunk_size a + chunk_size b)) as (IHc & IHt);
      [exact Hrest | lia |].
    cbn [reduce_data contiguous join_data chunk_offset chunk_size total_span foldr].
    fold (total_span (reduce_data hash rest)). fold (total_span rest).
    rewrite Hw, IHt. repeat split; try lia.
    replace (off + (chunk_size a + chunk_size b))
      with (off + chunk_size a + chunk_size b) by lia.
    exact IHc.
Qed.

End Data.

(** ** The invariant of the construction *)

Section Invariant.

Variable hash : list byte -> ChecksumBase.
Variable Q : ChecksumBase -> Prop.
Hypothesis hash_Q : forall contents, Q (hash contents).
Variable base : nat.

Lemma node_ok_mono (h h' : store) (n : MerkleNode) :
  node_ok hash Q base h n -> node_ok hash Q base (h ++ h') n.
Proof.
  intros (Hp & [Hleaf | (l & r & nl & nr & Hl & Hr & Hbl & Hbr & Hnl & Hnr & Hrest)]).
  - split; [exact Hp | left; exact Hleaf].
  - split; [exact Hp|]. right. exists l, r, nl, nr.
    repeat split; try tauto; now apply lookup_app_l_Some.
Qed.

Lemma reduce_data_sized (ds : list MerkleNodeData) :
  Forall (digest_sized Q) ds ->
  Forall (digest_sized Q) (reduce_data hash ds).
Proof.
  induction ds as [|a|a b rest IH] using list_pair_ind; intros H; try exact H.
  apply Forall_cons in H as [_ H]. apply Forall_cons in H as [_ H].
  cbn [reduce_data]. constructor; [|now apply IH].
  unfold digest_sized, join_data. cbn [checksum]. apply hash_Q.
Qed.

(** The parents made by a pass are as the claims ask. *)
Lemma paired_ok (h : store) (prev : Level) :
  forall off,
    valid_level h prev ->
    Forall (fun p => (base <= p)%nat) prev ->
    contiguous off (level_data h prev) ->
    total_span (level_data h prev) <= SIZE_MAX ->
    Forall (digest_sized Q) (level_data h prev) ->
    Forall (node_ok hash Q base h) (paired hash h prev).
Proof.
  induction prev as [|x|x y rest IH] using list_pair_ind;
    intros off Hv Hbs Hc Ht Hs; try constructor.
  - apply Forall_cons in Hv as [Hx Hv]. apply Forall_cons in Hv as [Hy Hv].
    apply Forall_cons in Hbs as [Hbx Hbs]. apply Forall_cons in Hbs as [Hby Hbs].
    destruct (lookup_lt_is_Some_2 h x Hx) as [nl Hnl].
    destruct (lookup_lt_is_Some_2 h y Hy) as [nr Hnr].
    rewrite (level_data_cons h x _ nl Hnl), (level_data_cons h y _ nr Hnr) in *.
    cbn [contiguous] in Hc. destruct Hc as (Ha & Hsa & Hb & Hsb & Hrest).
    pose proof (total_span_nonneg _ _ Hrest) as Hnn.
    cbn [total_span foldr] in Ht. fold (total_span (level_data h rest)) in Ht.
    apply Forall_cons in Hs as [Hda Hs]. apply Forall_cons in Hs as [Hdb Hs].
    cbn [paired]. rewrite Hnl, Hnr. constructor.
    + split; [reflexivity|]. right. exists x, y, nl, nr.
      cbn [left right node join_data checksum chunk_offset chunk_size].
      repeat split; try assumption.
      * unfold size_t_add. apply size_t_wrap_small. lia.
    + apply (IH (off + chunk_size (node nl) + chunk_size (node nr)));
        try assumption. lia.
Qed.

(** A pass keeps the invariant. *)
Lemma reduce_level_inv (total : Z) (h : store) (prev : Level) :
  total <= SIZE_MAX ->
  tree_inv hash Q total base h prev ->
  tree_inv hash Q total base
    (reduce_level hash h prev).1 (reduce_level hash h prev).2.
Proof.
  intros Ht (Hv & H1 & Hbase & Hb & Hc & Hs & Hd & Hok).
  destruct (reduce_level_basics hash h prev Hv H1) as (Hv' & Hl' & Hb').
  destruct (reduce_data_contiguous hash _ 0 Hc ltac:(lia)) as (Hc' & Hs').
  unfold tree_inv. rewrite reduce_level_data by assumption.
  refine (conj Hv' (conj _ (conj _ (conj _ (conj Hc' (conj _ (conj _ _)))))));
    try lia.
  - unfold reduce_level. cbn [fst]. rewrite length_app. lia.
  - unfold reduce_level. cbn [snd]. apply Forall_app. split.
    + apply Forall_forall. intros p Hp. apply elem_of_seq in Hp. lia.
    + now apply odd_tail_Forall.
  - now apply reduce_data_sized.
  - intros p n Hp Hn. unfold reduce_level in Hn |- *. cbn [fst] in Hn |- *.
    apply lookup_app_Some in Hn as [Hn | [Hge Hn]].
    + apply node_ok_mono. now apply (Hok p).
    + apply node_ok_mono.
      pose proof (paired_ok h prev 0 Hv Hb Hc ltac:(lia) Hd) as Hall.
      rewrite Forall_forall in Hall. apply Hall.
      apply list_elem_of_lookup. eauto.
Qed.

End Invariant.

(** ** All the passes *)

Lemma halving_snoc (tr : list Level) (prev lv : Level) :
  halving (tr ++ [prev]) -> length lv = halve_up (length prev) ->
  halving ((tr ++ [prev]) ++ [lv]).
Proof.
  intros Hh Hl i a b Ha Hb.
  destruct (Nat.lt_ge_cases (S i) (length (tr ++ [prev]))) as [Hlt|Hge].
  - rewrite lookup_app_l in Ha by lia. rewrite lookup_app_l in Hb by lia.
    exact (Hh i a b Ha Hb).
  - rewrite length_app in Hge. cbn [length] in Hge.
    assert (Hi : i = length tr).
    { apply lookup_lt_Some in Hb. rewrite !length_app in Hb. cbn [length] in Hb. lia. }
    subst i.
    rewrite lookup_app_l in Ha by (rewrite length_app; cbn [length]; lia).
    rewrite list_lookup_middle in Ha by reflexivity.
    replace (S (length tr)) with (length (tr ++ [prev])) in Hb
      by (rewrite length_app; cbn [length]; lia).
    rewrite list_lookup_middle in Hb by reflexivity.
    congruence.
Qed.

Lemma halving_singleton (lv : Level) : halving [lv].
Proof. intros i a b Ha Hb. destruct i; discriminate. Qed.

(** A count of at most [2 ^ k] is brought to 1 by [k] halvings. *)
Lemma iter_halve_up (k : nat) :
  forall m : nat,
    (1 <= m)%nat -> Z.of_nat m <= 2 ^ Z.of_nat k ->
    Nat.iter k halve_up m = 1%nat.
Proof.
  induction k as [|k IH]; intros m H1 Hm.
  - simpl in *. lia.
  - rewrite Nat.iter_succ_r. apply IH.
    + now apply halve_up_bounds.
    + rewrite Nat2Z.inj_succ, Z.pow_succ_r in Hm by lia.
      unfold halve_up. rewrite Nat2Z.inj_div.
      generalize dependent (2 ^ Z.of_nat k). intros x Hx. lia.
Qed.

Lemma iter_halve_up_passes (n : nat) :
  (1 <= n)%nat -> Nat.iter (num_passes n) halve_up n = 1%nat.
Proof.
  intros H. apply iter_halve_up; [exact H|]. unfold num_passes.
  rewrite Z2Nat.id by apply Z.log2_up_nonneg.
  destruct (Z.eq_dec (Z.of_nat n) 1) as [E|E].
  - rewrite E. change (Z.log2_up 1) with 0. lia.
  - apply Z.log2_up_spec. lia.
Qed.

Section Passes.

Variable hash : list byte -> ChecksumBase.

(** [k] passes: a property kept by every pass is kept; the levels are
    appended to the tree, each half as long as the one before. *)
Lemma reduce_levels_spec (P : store -> Level -> Prop) :
  (forall h prev,
      valid_level h prev -> (1 <= length prev)%nat -> P h prev ->
      P (reduce_level hash h prev).1 (reduce_level hash h prev).2) ->
  forall (k : nat) (h : store) (tr : list Level) (prev : Level),
    valid_level h prev -> (1 <= length prev)%nat -> P h prev ->
    halving (tr ++ [prev]) ->
    exists (tr' : list Level) (lv : Level),
      (reduce_levels hash k h (tr ++ [prev]) prev).2 = tr' ++ [lv]
      /\ length tr' = (length tr + k)%nat
      /\ (forall i, (i <= length tr)%nat -> (tr' ++ [lv]) !! i = (tr ++ [prev]) !! i)
      /\ halving (tr' ++ [lv])
      /\ length lv = Nat.iter k halve_up (length prev)
      /\ valid_level (reduce_levels hash k h (tr ++ [prev]) prev).1 lv
      /\ P (reduce_levels hash k h (tr ++ [prev]) prev).1 lv
      /\ exists new, (reduce_levels hash k h (tr ++ [prev]) prev).1 = h ++ new.
Proof.
  intros Hstep. induction k as [|k IH]; intros h tr prev Hv H1 HP Hh.
  - exists tr, prev. cbn [reduce_levels fst snd Nat.iter].
    repeat split; try assumption; try lia.
    exists []. now rewrite app_nil_r.
  - rewrite reduce_levels_S.
    destruct (reduce_level_basics hash h prev Hv H1) as (Hv' & Hl' & Hb').
    destruct (IH (reduce_level hash h prev).1 (tr ++ [prev]) (reduce_level hash h prev).2)
      as (tr' & lv & Htree & Hlen & Hpre & Hhalv & Hlv & Hvlv & HPlv & new & Hnew);
      try assumption; try lia.
    + now apply Hstep.
    + now apply halving_snoc.
    + exists tr', lv. rewrite Htree, Hnew.
      rewrite length_app in Hlen. cbn [length] in Hlen.
      rewrite Nat.iter_succ_r, <- Hl'.
      split; [reflexivity|]. split; [lia|]. split.
      { intros i Hi. rewrite Hpre by (rewrite length_app; cbn [length]; lia).
        apply lookup_app_l. rewrite length_app. cbn [length]. lia. }
      split; [exact Hhalv|]. split; [exact Hlv|].
      rewrite <- Hnew. split; [exact Hvlv|]. split; [exact HPlv|].
      rewrite Hnew. unfold reduce_level. cbn [fst]. rewrite <- app_assoc. eauto.
Qed.

End Passes.

(** ** [make_tree] *)

Section MakeTree.

Variable hash : list byte -> ChecksumBase.

(** [make_tree] on at least one leaf: the loop runs [num_passes] times, the
    assertion holds and the root is the only node of the last level. *)
Lemma make_tree_spec (P : store -> Level -> Prop) :
  (forall h prev,
      valid_level h prev -> (1 <= length prev)%nat -> P h prev ->
      P (reduce_level hash h prev).1 (reduce_level hash h prev).2) ->
  forall (fuel : nat) (h : store) (leaves : Level),
    valid_level h leaves -> (1 <= length leaves)%nat ->
    Z.of_nat (length leaves) <= INT_MAX -> (length leaves <= fuel)%nat ->
    P h leaves ->
    exists (st : tree_state) (r : ptr) (tr' : list Level),
      make_tree_levels hash fuel h leaves = Ok st
      /\ make_tree hash fuel h leaves = Ok (ts_store st, Some r)
      /\ ts_i st = Z.log2_up (Z.of_nat (length leaves))
      /\ ts_store st
         = (reduce_levels hash (num_passes (length leaves)) h [leaves] leaves).1
      /\ ts_tree st = tr' ++ [[r]]
      /\ length tr' = num_passes (length leaves)
      /\ ts_tree st !! 0%nat = Some leaves
      /\ halving (ts_tree st)
      /\ valid_level (ts_store st) [r]
      /\ P (ts_store st) [r]
      /\ exists new, ts_store st = h ++ new.
Proof.
  intros Hstep fuel h leaves Hv H1 Hmax Hfuel HP.
  pose proof (make_tree_levels_spec hash fuel h leaves Hv H1 Hmax Hfuel) as Hrun.
  destruct (reduce_levels_spec hash P Hstep (num_passes (length leaves)) h []
              leaves Hv H1 HP (halving_singleton leaves))
    as (tr' & lv & Htree & Hlen & Hpre & Hhalv & Hlv & Hvlv & HPlv & Hnew).
  cbn [app] in Htree, Hlen, Hpre.
  rewrite iter_halve_up_passes in Hlv by exact H1.
  destruct lv as [|r [|r' lv]]; try discriminate Hlv.
  eexists _, r, tr'. split; [exact Hrun|].
  cbn [ts_store ts_tree ts_i]. rewrite Htree.
  split.
  { unfold make_tree. rewrite Hrun, bind_Ok. cbn [ts_tree ts_store].
    rewrite Htree, vec_back_app, bind_Ok. reflexivity. }
  split; [reflexivity|]. split; [reflexivity|]. split; [reflexivity|].
  split; [exact Hlen|]. split; [apply (Hpre 0%nat); cbn [length]; lia|].
  split; [exact Hhalv|]. split; [exact Hvlv|]. split; [exact HPlv|exact Hnew].
Qed.

End MakeTree.

(** ** The constructor *)

Section Ctor.

Variable hash : list byte -> ChecksumBase.
Variable Q : ChecksumBase -> Prop.
Hypothesis hash_Q : forall contents, Q (hash contents).

Lemma generate_leaves_spec (fuel : nat) (c : Z) (h : store) (s : list byte) :
  1 <= c <= STREAMSIZE_MAX -> (length s < fuel)%nat ->
  generate_leaves hash fuel c h (istringstream_of s)
  = Ok (h ++ map fresh_node (leaf_data hash (S (length s)) c 0 s),
        seq (length h) (length (leaf_data hash (S (length s)) c 0 s))).
Proof.
  intros Hc Hfuel. unfold generate_leaves.
  destruct (generate_leaves_loop hash c (length s) Hc s
              (replicate (Z.to_nat c) x00) h [] 0 0 fuel (le_n _) Hfuel)
    as (st & Hst & Hs & Hr).
  change (istringstream_of s) with (good_stream s 0).
  rewrite Hst, bind_Ok, Hs, Hr. reflexivity.
Qed.

Lemma take_length_pos (c : Z) (b : byte) (rest : list byte) :
  1 <= c ->
  1 <= Z.of_nat (length (take (Z.to_nat c) (b :: rest)))
  /\ Z.of_nat (length (take (Z.to_nat c) (b :: rest)))
     + Z.of_nat (length (drop (Z.to_nat c) (b :: rest)))
     = Z.of_nat (length (b :: rest))
  /\ Z.of_nat (length (take (Z.to_nat c) (b :: rest))) <= c.
Proof.
  intros Hc. rewrite length_take, length_drop. cbn [length]. lia.
Qed.

Lemma leaf_data_contiguous (c : Z) (n : nat) :
  1 <= c ->
  forall (rest : list byte) (off : Z),
    0 <= off -> off + Z.of_nat (length rest) <= SIZE_MAX ->
    (length rest <= n)%nat ->
    contiguous off (leaf_data hash n c off rest)
    /\ total_span (leaf_data hash n c off rest) = Z.of_nat (length rest).
Proof.
  intros Hc. induction n as [|n IH]; intros rest off Hoff Hmax Hn.
  - destruct rest; [|simpl in Hn; lia]. split; reflexivity.
  - destruct rest as [|b rest]; [split; reflexivity|].
    destruct (take_length_pos c b rest Hc) as (Hpos & Hsum & _).
    cbn [leaf_data]. set (got := take (Z.to_nat c) (b :: rest)) in *.
    assert (Hw : size_t_add off (Z.of_nat (length got)) = off + Z.of_nat (length got)).
    { unfold size_t_add. apply size_t_wrap_small. lia. }
    rewrite Hw.
    assert (Hdrop : (length (drop (Z.to_nat c) (b :: rest)) <= n)%nat).
    { subst got. rewrite length_take in Hpos. rewrite length_drop.
      cbn [length] in *. lia. }
    destruct (IH (drop (Z.to_nat c) (b :: rest)) (off + Z.of_nat (length got)))
      as (IHc & IHt); try lia.
    cbn [contiguous total_span foldr chunk_offset chunk_size].
    fold (total_span (leaf_data hash n c (off + Z.of_nat (length got))
                        (drop (Z.to_nat c) (b :: rest)))).
    rewrite IHt. repeat split; try lia. exact IHc.
Qed.

Lemma leaf_data_sized (c : Z) (n : nat) :
  forall (rest : list byte) (off : Z),
    Forall (digest_sized Q) (leaf_data hash n c off rest).
Proof.
  induction n as [|n IH]; intros rest off; [constructor|].
  destruct rest as [|b rest]; [constructor|].
  cbn [leaf_data]. constructor; [apply hash_Q | apply IH].
Qed.

(** The leaves but the last one are full chunks. *)
Lemma leaf_data_count (c : Z) (n : nat) :
  1 <= c ->
  forall (rest : list byte) (off : Z),
    rest <> [] -> (length rest <= n)%nat ->
    (1 <= length (leaf_data hash n c off rest))%nat
    /\ (Z.of_nat (length (leaf_data hash n c off rest)) - 1) * c
       < Z.of_nat (length rest).
Proof.
  intros Hc. induction n as [|n IH]; intros rest off Hne Hn.
  - destruct rest; [congruence | simpl in Hn; lia].
  - destruct rest as [|b rest]; [congruence|].
    destruct (take_length_pos c b rest Hc) as (Hpos & Hsum & Hle).
    cbn [leaf_data]. set (got := take (Z.to_nat c) (b :: rest)) in *.
    cbn [length]. split; [lia|].
    destruct (drop (Z.to_nat c) (b :: rest)) as [|b' rest'] eqn:Hd.
    + rewrite leaf_data_nil. cbn [length] in *. lia.
    + destruct (IH (b' :: rest') (size_t_add off (Z.of_nat (length got))))
        as (IH1 & IH2); [congruence | |].
      { subst got. rewrite length_take in Hpos. rewrite <- Hd, length_drop.
        cbn [length] in *. lia. }
      assert (Hfull : Z.of_nat (length got) = c).
      { subst got. rewrite length_take.
        assert (Z.to_nat c < length (b :: rest))%nat; [|lia].
        apply Nat.nle_gt. intros Hge. rewrite drop_ge in Hd by exact Hge.
        discriminate Hd. }
      set (L := length (leaf_data hash n c (size_t_add off (Z.of_nat (length got)))
                          (b' :: rest'))) in *.
      rewrite Nat2Z.inj_succ.
      replace ((Z.succ (Z.of_nat L) - 1) * c) with ((Z.of_nat L - 1) * c + c) by ring.
      cbn [length] in Hsum, IH2 |- *.
      lia.
Qed.

Lemma fresh_node_ok (base : nat) (h : store) (d : MerkleNodeData) :
  node_ok hash Q base h (fresh_node d).
Proof. split; [reflexivity | left; split; reflexivity]. Qed.

Lemma level_data_fresh (h : store) (ds : list MerkleNodeData) :
  level_data (h ++ map fresh_node ds) (seq (length h) (length ds)) = ds.
Proof.
  rewrite <- (length_map fresh_node ds), level_data_new, map_map.
  apply map_id.
Qed.

(** The invariant holds of the leaves. *)
Lemma leaves_inv (h0 : store) (s : list byte) (c : Z) :
  s <> [] -> 1 <= c -> Z.of_nat (length s) <= SIZE_MAX ->
  let ds := leaf_data hash (S (length s)) c 0 s in
  tree_inv hash Q (Z.of_nat (length s)) (length h0)
    (h0 ++ map fresh_node ds) (seq (length h0) (length ds)).
Proof.
  intros Hne Hc Hmax ds.
  destruct (leaf_data_contiguous c (S (length s)) Hc s 0) as (Hcont & Htot);
    try lia.
  destruct (leaf_data_count c (S (length s)) Hc s 0 Hne) as (Hpos & _); [lia|].
  fold ds in Hcont, Htot, Hpos.
  unfold tree_inv. rewrite level_data_fresh.
  refine (conj _ (conj _ (conj _ (conj _ (conj Hcont (conj Htot (conj _ _))))))).
  - rewrite <- (length_map fresh_node ds). apply valid_level_seq.
  - now rewrite length_seq.
  - rewrite length_app. lia.
  - apply Forall_forall. intros p Hp. apply elem_of_seq in Hp. lia.
  - apply leaf_data_sized.
  - intros p n Hp Hn. apply lookup_app_Some in Hn as [Hn | [_ Hn]].
    + apply lookup_lt_Some in Hn. lia.
    + apply list_lookup_fmap_Some in Hn as (d & -> & _).
      apply fresh_node_ok.
Qed.

(** The constructor on a non-empty input, for a chunk size of at least 1:
    it returns a tree with a root, and the invariant holds of the root. *)
Lemma MerkleTree_ctor_spec (fuel : nat) (h0 : store) (s : list byte) (c : Z) :
  s <> [] -> 1 <= c -> in_range s c -> (length s < fuel)%nat ->
  exists (h : store) (r : ptr),
    MerkleTree_ctor hash fuel h0 s c
    = Ok (h, {| m_ChunkSize := c; root := Some r |})
    /\ tree_inv hash Q (Z.of_nat (length s)) (length h0) h [r]
    /\ exists new, h = h0 ++ new.
Proof.
  intros Hne Hc (Hcmax & Hsmax & Hint) Hfuel.
  pose proof (leaves_inv h0 s c Hne Hc Hsmax) as Hinv. cbv zeta in Hinv.
  destruct (leaf_data_count c (S (length s)) Hc s 0 Hne) as (Hpos & Hcount); [lia|].
  set (ds := leaf_data hash (S (length s)) c 0 s) in *.
  assert (Hv : valid_level (h0 ++ map fresh_node ds) (seq (length h0) (length ds)))
    by apply Hinv.
  destruct (make_tree_spec hash
              (tree_inv hash Q (Z.of_nat (length s)) (length h0))
              (fun h prev _ _ => reduce_level_inv hash Q hash_Q (length h0)
                                   (Z.of_nat (length s)) h prev Hsmax)
              fuel (h0 ++ map fresh_node ds) (seq (length h0) (length ds)))
    as (st & r & tr' & _ & Hmk & _ & _ & _ & _ & _ & _ & _ & HP & new & Hnew);
    try assumption; rewrite ?length_seq; try lia.
  { unfold INT_MAX in *. nia. }
  { nia. }
  exists (ts_store st), r. split; [|split; [exact HP|]].
  - unfold MerkleTree_ctor.
    rewrite generate_leaves_spec by lia. fold ds. rewrite bind_Ok.
    rewrite Hmk, bind_Ok. reflexivity.
  - rewrite Hnew, <- app_assoc. eauto.
Qed.

End Ctor.

Section Root.

Variable hash : list byte -> ChecksumBase.
Variable Q : ChecksumBase -> Prop.

(** What the invariant says of a last level of one node. *)
Lemma tree_inv_root (total : Z) (base : nat) (h : store) (r : ptr) :
  tree_inv hash Q total base h [r] ->
  exists n : MerkleNode,
    h !! r = Some n /\ (base <= r)%nat
    /\ chunk_offset (node n) = 0 /\ chunk_size (node n) = total
    /\ Q (checksum (node n))
    /\ node_ok hash Q base h n.
Proof.
  intros (Hv & _ & _ & Hb & Hc & Ht & Hd & Hok).
  apply Forall_cons in Hv as [Hr _]. apply Forall_cons in Hb as [Hbr _].
  destruct (lookup_lt_is_Some_2 h r Hr) as [n Hn].
  rewrite (level_data_cons h r [] n Hn) in Hc, Ht, Hd.
  cbn in Hc, Ht. apply Forall_cons in Hd as [Hq _].
  exists n. split; [exact Hn|]. split; [exact Hbr|]. split; [tauto|].
  split; [lia|]. split; [exact Hq|]. exact (Hok r n Hbr Hn).
Qed.

End Root.

(** C8. On [n >= 1] leaves the loop of [make_tree] ends after exactly
    [ceil (log2 n)] passes; every pass takes a level of [k] nodes to one of
    [ceil (k / 2)] nodes; the last level has exactly one node, so that the
    assertion holds and that node is the root; with a single leaf no pass
    runs and the leaf is the root. The leaves are allocated nodes, and
    there are no more of them than an [int] counts. *)
Theorem make_tree_log2_passes (hash : list byte -> ChecksumBase)
    (fuel : nat) (h : store) (leaves : Level) :
  valid_level h leaves -> (1 <= length leaves)%nat ->
  Z.of_nat (length leaves) <= INT_MAX -> (length leaves <= fuel)%nat ->
  exists (st : tree_state) (r : ptr),
    make_tree_levels hash fuel h leaves = Ok st
    /\ ts_i st = Z.log2_up (Z.of_nat (length leaves))
    /\ length (ts_tree st) = S (Z.to_nat (Z.log2_up (Z.of_nat (length leaves))))
    /\ ts_tree st !! 0%nat = Some leaves
    /\ halving (ts_tree st)
    /\ last (ts_tree st) = Some [r]
    /\ make_tree hash fuel h leaves = Ok (ts_store st, Some r)
    /\ (length leaves = 1%nat ->
        ts_tree st = [leaves] /\ ts_store st = h /\ ts_i st = 0 /\ leaves = [r]).
Proof.
  intros Hv H1 Hmax Hfuel.
  destruct (make_tree_spec hash (fun _ _ => True) (fun _ _ _ _ _ => I)
              fuel h leaves Hv H1 Hmax Hfuel I)
    as (st & r & tr' & Hrun & Hmk & Hi & Hst & Htree & Hlen & H0 & Hhalv & _).
  exists st, r. split; [exact Hrun|]. split; [exact Hi|]. split.
  { rewrite Htree, length_app, Hlen. cbn [length]. unfold num_passes. lia. }
  split; [exact H0|]. split; [exact Hhalv|]. split.
  { rewrite Htree. apply last_snoc. }
  split; [exact Hmk|].
  intros Hone. rewrite Hone in *. change (num_passes 1) with 0%nat in *.
  destruct tr'; [|discriminate Hlen]. cbn [app] in Htree. rewrite Htree in H0.
  cbn in H0. injection H0 as <-. cbn [reduce_levels fst] in Hst.
  now rewrite Htree, Hst, Hi.
Qed.

Lemma make_tree_log2_passes_witness :
  valid_level three_leaves [0; 1; 2]%nat
  /\ (1 <= length [0; 1; 2]%nat)%nat
  /\ Z.of_nat (length [0; 1; 2]%nat) <= INT_MAX
  /\ (length [0; 1; 2]%nat <= 3)%nat
  /\ exists (st : tree_state) (r : ptr),
       make_tree_levels Sha256.hash 3 three_leaves [0; 1; 2]%nat = Ok st
       /\ ts_i st = Z.log2_up (Z.of_nat (length [0; 1; 2]%nat))
       /\ length (ts_tree st)
          = S (Z.to_nat (Z.log2_up (Z.of_nat (length [0; 1; 2]%nat))))
       /\ ts_tree st !! 0%nat = Some [0; 1; 2]%nat
       /\ halving (ts_tree st)
       /\ last (ts_tree st) = Some [r]
       /\ make_tree Sha256.hash 3 three_leaves [0; 1; 2]%nat = Ok (ts_store st, Some r)
       /\ (length [0; 1; 2]%nat = 1%nat ->
           ts_tree st = [[0; 1; 2]%nat] /\ ts_store st = three_leaves
           /\ ts_i st = 0 /\ [0; 1; 2]%nat = [r]).
Proof.
  assert (Hv : valid_level three_leaves [0; 1; 2]%nat) by (repeat constructor).
  assert (H1 : (1 <= length [0; 1; 2]%nat)%nat) by (repeat constructor).
  assert (Hmax : Z.of_nat (length [0; 1; 2]%nat) <= INT_MAX)
    by (vm_compute; discriminate).
  assert (Hfuel : (length [0; 1; 2]%nat <= 3)%nat) by apply le_n.
  split; [exact Hv|]. split; [exact H1|]. split; [exact Hmax|].
  split; [exact Hfuel|].
  exact (make_tree_log2_passes Sha256.hash 3 three_leaves [0; 1; 2]%nat
           Hv H1 Hmax Hfuel).
Defined.

(** ** The claims on the constructor *)

(** C1. For a non-empty input and a chunk size of at least 1, the
    constructor returns a tree whose root has the length of the input as
    span ([chunk_size]) and 0 as offset ([chunk_offset]). The arguments are
    values of their types, few enough leaves for the [int] counter. *)
Theorem root_spans_whole_input (hash : list byte -> ChecksumBase)
    (fuel : nat) (h0 : store) (s : list byte) (c : Z) :
  s <> [] -> 1 <= c -> in_range s c -> (length s < fuel)%nat ->
  exists (h : store) (r : ptr) (n : MerkleNode),
    MerkleTree_ctor hash fuel h0 s c
    = Ok (h, {| m_ChunkSize := c; root := Some r |})
    /\ h !! r = Some n
    /\ chunk_size (node n) = Z.of_nat (length s)
    /\ chunk_offset (node n) = 0.
Proof.
  intros Hne Hc Hr Hfuel.
  destruct (MerkleTree_ctor_spec hash (fun _ => True) (fun _ => I)
              fuel h0 s c Hne Hc Hr Hfuel) as (h & r & Hrun & Hinv & _).
  destruct (tree_inv_root hash _ _ _ h r Hinv) as (n & Hn & _ & Hoff & Hsz & _).
  exists h, r, n. auto.
Qed.

Lemma root_spans_whole_input_witness :
  list_byte_of_string "hello world" <> []
  /\ 1 <= 4
  /\ in_range (list_byte_of_string "hello world") 4
  /\ (length (list_byte_of_string "hello world") < 12)%nat
  /\ exists (h : store) (r : ptr) (n : MerkleNode),
       MerkleTree_ctor Sha256.hash 12 [] (list_byte_of_string "hello world") 4
       = Ok (h, {| m_ChunkSize := 4; root := Some r |})
       /\ h !! r = Some n
       /\ chunk_size (node n) = 11
       /\ chunk_offset (node n) = 0.
Proof.
  assert (Hne : list_byte_of_string "hello world" <> []) by discriminate.
  assert (Hr : in_range (list_byte_of_string "hello world") 4).
  { unfold in_range, SIZE_MAX, INT_MAX, STREAMSIZE_MAX. vm_compute. intuition discriminate. }
  assert (Hfuel : (length (list_byte_of_string "hello world") < 12)%nat)
    by (vm_compute; lia).
  split; [exact Hne|]. split; [lia|]. split; [exact Hr|]. split; [exact Hfuel|].
  apply (root_spans_whole_input Sha256.hash 12 [] (list_byte_of_string "hello world") 4 Hne);
    [lia | exact Hr | exact Hfuel].
Defined.

(** C5. Every internal node of a tree that the constructor builds has two
    children; its digest is the hash of the digest of the left child
    followed by the digest of the right child, a buffer of
    [2 * size_bytes] bytes; its offset is the offset of the left child and
    its span is the sum of the spans of the children. The nodes of the tree
    are those allocated from [length h0] on: the root is one, and so are
    the children of one. *)
Theorem internal_node_joins_children (hash : list byte -> ChecksumBase)
    (Bits : Z) (fuel : nat) (h0 : store) (s : list byte) (c : Z) :
  (forall contents, Z.of_nat (length (data (hash contents))) = size_bytes Bits) ->
  s <> [] -> 1 <= c -> in_range s c -> (length s < fuel)%nat ->
  exists (h : store) (r : ptr),
    MerkleTree_ctor hash fuel h0 s c
    = Ok (h, {| m_ChunkSize := c; root := Some r |})
    /\ (length h0 <= r < length h)%nat
    /\ forall (p : ptr) (n : MerkleNode),
         (length h0 <= p)%nat -> h !! p = Some n -> isLeaf n = false ->
         exists (l r : ptr) (nl nr : MerkleNode),
           left n = Some l /\ right n = Some r
           /\ (length h0 <= l)%nat /\ (length h0 <= r)%nat
           /\ h !! l = Some nl /\ h !! r = Some nr
           /\ checksum (node n)
              = hash (data (checksum (node nl)) ++ data (checksum (node nr)))
           /\ Z.of_nat (length (data (checksum (node nl)) ++ data (checksum (node nr))))
              = 2 * size_bytes Bits
           /\ chunk_offset (node n) = chunk_offset (node nl)
           /\ chunk_size (node n) = chunk_size (node nl) + chunk_size (node nr).
Proof.
  intros Hsize Hne Hc Hr Hfuel.
  destruct (MerkleTree_ctor_spec hash
              (fun ck => Z.of_nat (length (data ck)) = size_bytes Bits) Hsize
              fuel h0 s c Hne Hc Hr Hfuel) as (h & r & Hrun & Hinv & _).
  destruct (tree_inv_root hash _ _ _ h r Hinv) as (nr & Hnr & Hbr & _).
  exists h, r. split; [exact Hrun|]. split.
  { apply lookup_lt_Some in Hnr. lia. }
  intros p n Hp Hn Hint.
  destruct Hinv as (_ & _ & _ & _ & _ & _ & _ & Hok).
  destruct (Hok p n Hp Hn) as (_ & [[Hl Hr'] | H]).
  - unfold isLeaf in Hint. rewrite Hl, Hr' in Hint. discriminate Hint.
  - destruct H as (l & r' & nl & nr' & Hl & Hr' & Hbl & Hbr' & Hnl & Hnr' & Hck
                   & Hql & Hqr & Hoff & Hsz).
    exists l, r', nl, nr'. rewrite length_app.
    repeat split; try assumption. lia.
Qed.

Lemma internal_node_joins_children_witness :
  (forall contents,
      Z.of_nat (length (data (Sha256.hash contents))) = size_bytes Sha256.Bits)
  /\ list_byte_of_string "hello world" <> []
  /\ 1 <= 4
  /\ in_range (list_byte_of_string "hello world") 4
  /\ (length (list_byte_of_string "hello world") < 12)%nat
  /\ exists (h : store) (r : ptr),
    MerkleTree_ctor Sha256.hash 12 [] (list_byte_of_string "hello world") 4
    = Ok (h, {| m_ChunkSize := 4; root := Some r |})
    /\ (length (@nil MerkleNode) <= r < length h)%nat
    /\ forall (p : ptr) (n : MerkleNode),
         (length (@nil MerkleNode) <= p)%nat -> h !! p = Some n -> isLeaf n = false ->
         exists (l r : ptr) (nl nr : MerkleNode),
           left n = Some l /\ right n = Some r
           /\ (length (@nil MerkleNode) <= l)%nat
           /\ (length (@nil MerkleNode) <= r)%nat
           /\ h !! l = Some nl /\ h !! r = Some nr
           /\ checksum (node n)
              = Sha256.hash (data (checksum (node nl)) ++ data (checksum (node nr)))
           /\ Z.of_nat (length (data (checksum (node nl)) ++ data (checksum (node nr))))
              = 2 * size_bytes Sha256.Bits
           /\ chunk_offset (node n) = chunk_offset (node nl)
           /\ chunk_size (node n) = chunk_size (node nl) + chunk_size (node nr).
Proof.
  assert (Hsize : forall contents,
             Z.of_nat (length (data (Sha256.hash contents))) = size_bytes Sha256.Bits)
    by (intros contents; reflexivity).
  assert (Hne : list_byte_of_string "hello world" <> []) by discriminate.
  assert (Hr : in_range (list_byte_of_string "hello world") 4).
  { unfold in_range, SIZE_MAX, INT_MAX, STREAMSIZE_MAX. vm_compute. intuition discriminate. }
  assert (Hfuel : (length (list_byte_of_string "hello world") < 12)%nat)
    by (vm_compute; lia).
  split; [exact Hsize|]. split; [exact Hne|]. split; [lia|].
  split; [exact Hr|]. split; [exact Hfuel|].
  apply (internal_node_joins_children Sha256.hash Sha256.Bits 12 []
           (list_byte_of_string "hello world") 4 Hsize Hne); [lia | exact Hr | exact Hfuel].
Defined.

Lemma leaf_data_single (hash : list byte -> ChecksumBase) (n : nat) (c off : Z)
    (s : list byte) :
  s <> [] -> Z.of_nat (length s) <= c ->
  leaf_data hash (S n) c off s
  = [{| checksum := hash s; chunk_offset := off;
        chunk_size := Z.of_nat (length s) |}].
Proof.
  intros Hne Hc. destruct s as [|b s]; [congruence|].
  cbn [leaf_data]. rewrite take_ge, drop_ge by lia.
  now rewrite leaf_data_nil.
Qed.

Lemma make_tree_single (hash : list byte -> ChecksumBase) (fuel : nat)
    (h : store) (p : ptr) :
  make_tree_levels hash fuel h [p]
  = Ok {| ts_store := h; ts_tree := [[p]]; ts_i := 0 |}
  /\ make_tree hash fuel h [p] = Ok (h, Some p).
Proof.
  assert (H : make_tree_levels hash fuel h [p]
              = Ok {| ts_store := h; ts_tree := [[p]]; ts_i := 0 |})
    by (apply while__done; reflexivity).
  split; [exact H|]. unfold make_tree. rewrite H. reflexivity.
Qed.

(** C9. When the chunk size is at least the length of a non-empty input,
    there is exactly one leaf and it is the root: its digest is the hash of
    the whole input, its offset is 0, its span is the length of the input;
    no pass of the reduction runs, and no other node is allocated. *)
Theorem single_chunk_root_is_the_leaf (hash : list byte -> ChecksumBase)
    (fuel : nat) (h0 : store) (s : list byte) (c : Z) :
  s <> [] -> Z.of_nat (length s) <= c -> c <= STREAMSIZE_MAX ->
  (length s < fuel)%nat ->
  let leaf := {| node := {| checksum := hash s; chunk_offset := 0;
                            chunk_size := Z.of_nat (length s) |};
                 parent := None; left := None; right := None |} in
  generate_leaves hash fuel c h0 (istringstream_of s)
  = Ok (h0 ++ [leaf], [length h0])
  /\ make_tree_levels hash fuel (h0 ++ [leaf]) [length h0]
     = Ok {| ts_store := h0 ++ [leaf]; ts_tree := [[length h0]]; ts_i := 0 |}
  /\ MerkleTree_ctor hash fuel h0 s c
     = Ok (h0 ++ [leaf], {| m_ChunkSize := c; root := Some (length h0) |})
  /\ (h0 ++ [leaf]) !! length h0 = Some leaf
  /\ isLeaf leaf = true.
Proof.
  intros Hne Hlen Hc Hfuel leaf.
  assert (H1 : 1 <= c) by (destruct s; [congruence | simpl in Hlen; lia]).
  assert (Hgen : generate_leaves hash fuel c h0 (istringstream_of s)
                 = Ok (h0 ++ [leaf], [length h0])).
  { rewrite generate_leaves_spec by lia.
    rewrite leaf_data_single by assumption. reflexivity. }
  destruct (make_tree_single hash fuel (h0 ++ [leaf]) (length h0)) as (Hlv & Hmk).
  split; [exact Hgen|]. split; [exact Hlv|]. split; [|split].
  - unfold MerkleTree_ctor. rewrite Hgen, bind_Ok, Hmk. reflexivity.
  - apply list_lookup_middle. reflexivity.
  - reflexivity.
Qed.

Lemma single_chunk_root_is_the_leaf_witness :
  list_byte_of_string "hello world" <> []
  /\ Z.of_nat (length (list_byte_of_string "hello world")) <= 11
  /\ 11 <= STREAMSIZE_MAX
  /\ (length (list_byte_of_string "hello world") < 12)%nat
  /\ MerkleTree_ctor Sha256.hash 12 [] (list_byte_of_string "hello world") 11
     = Ok ([{| node := {| checksum := Sha256.hash (list_byte_of_string "hello world");
                          chunk_offset := 0;
                          chunk_size := 11 |};
               parent := None; left := None; right := None |}],
           {| m_ChunkSize := 11; root := Some 0%nat |}).
Proof.
  assert (Hne : list_byte_of_string "hello world" <> []) by discriminate.
  assert (Hlen : Z.of_nat (length (list_byte_of_string "hello world")) <= 11)
    by (vm_compute; discriminate).
  assert (Hc : 11 <= STREAMSIZE_MAX) by (vm_compute; discriminate).
  assert (Hfuel : (length (list_byte_of_string "hello world") < 12)%nat)
    by (vm_compute; lia).
  split; [exact Hne|]. split; [exact Hlen|]. split; [exact Hc|].
  split; [exact Hfuel|].
  exact (proj1 (proj2 (proj2
    (single_chunk_root_is_the_leaf Sha256.hash 12 []
       (list_byte_of_string "hello world") 11 Hne Hlen Hc Hfuel)))).
Defined.

(** C3 (the code differs). On the empty input, for a chunk size of at least
    1, [generate_leaves] returns no leaf; [make_tree] then runs no pass and
    its assertion [tree.back().size() == 1] fails on the empty level: no
    tree, rootless or not, is returned. *)
Theorem empty_input_fails_the_assertion (hash : list byte -> ChecksumBase)
    (fuel : nat) (h0 : store) (c : Z) :
  1 <= c <= STREAMSIZE_MAX -> (1 <= fuel)%nat ->
  generate_leaves hash fuel c h0 (istringstream_of []) = Ok (h0, [])
  /\ make_tree hash fuel h0 [] = Abort
  /\ MerkleTree_ctor hash fuel h0 [] c = Abort.
Proof.
  intros Hc Hfuel.
  assert (Hgen : generate_leaves hash fuel c h0 (istringstream_of []) = Ok (h0, [])).
  { rewrite generate_leaves_spec by (cbn [length]; lia).
    cbn [leaf_data map length seq]. now rewrite app_nil_r. }
  assert (Hlv : make_tree_levels hash fuel h0 []
                = Ok {| ts_store := h0; ts_tree := [[]]; ts_i := 0 |})
    by (apply while__done; reflexivity).
  assert (Hmk : make_tree hash fuel h0 [] = Abort)
    by (unfold make_tree; rewrite Hlv; reflexivity).
  split; [exact Hgen|]. split; [exact Hmk|].
  unfold MerkleTree_ctor. rewrite Hgen, bind_Ok, Hmk. reflexivity.
Qed.

Lemma empty_input_fails_the_assertion_witness :
  1 <= 4 <= STREAMSIZE_MAX /\ (1 <= 5)%nat
  /\ MerkleTree_ctor Sha256.hash 5 [] [] 4 = Abort.
Proof.
  assert (Hc : 1 <= 4 <= STREAMSIZE_MAX) by (vm_compute; intuition discriminate).
  assert (Hfuel : (1 <= 5)%nat) by lia.
  split; [exact Hc|]. split; [exact Hfuel|].
  exact (proj2 (proj2 (empty_input_fails_the_assertion Sha256.hash 5 [] 4 Hc Hfuel))).
Defined.

(** A pass of the loop of [generate_leaves] for a chunk size of 0. *)
Lemma generate_leaves_body_zero (hash : list byte -> ChecksumBase)
    (h0 : store) (s : list byte) :
  generate_leaves_body hash 0
    {| gl_store := h0; gl_stream := istringstream_of s;
       gl_buf := replicate (Z.to_nat 0) x00;
       gl_result := []; gl_read_offset := 0 |}
  = Ok {| gl_store := h0; gl_stream := istringstream_of s;
          gl_buf := replicate (Z.to_nat 0) x00;
          gl_result := []; gl_read_offset := 0 |}.
Proof.
  unfold generate_leaves_body.
  cbn [gl_stream gl_buf gl_store gl_result gl_read_offset].
  change (to_streamsize 0) with 0.
  unfold read, istringstream_of. cbn [good eofbit failbit negb andb rdbuf].
  change (Z.to_nat 0) with 0%nat. rewrite take_0, drop_0.
  reflexivity.
Qed.

(** For a chunk size of 0 the constructor is in the loop of
    [generate_leaves] whatever the fuel. *)
Lemma MerkleTree_ctor_zero (hash : list byte -> ChecksumBase) (fuel : nat)
    (h0 : store) (s : list byte) :
  MerkleTree_ctor hash fuel h0 s 0 = Timeout.
Proof.
  unfold MerkleTree_ctor, generate_leaves.
  rewrite while__stuck; [reflexivity | reflexivity |].
  apply generate_leaves_body_zero.
Qed.

(** C2 (amended). With a chunk size of 0 the constructor raises no error:
    nothing tests the chunk size, the loop of [generate_leaves] is entered,
    and a pass of it asks the stream for no character, reads none, leaves
    the stream as it was and makes no leaf; no run of the constructor ends
    in a failure. *)
Theorem chunk_size_zero_reads_nothing (hash : list byte -> ChecksumBase)
    (h0 : store) (s : list byte) :
  let st0 := {| gl_store := h0; gl_stream := istringstream_of s;
                gl_buf := replicate (Z.to_nat 0) x00;
                gl_result := []; gl_read_offset := 0 |} in
  negb (eof (gl_stream st0)) = true
  /\ generate_leaves_body hash 0 st0 = Ok st0
  /\ gl_result st0 = [] /\ rdbuf (gl_stream st0) = s
  /\ forall fuel : nat,
       MerkleTree_ctor hash fuel h0 s 0 <> Abort
       /\ MerkleTree_ctor hash fuel h0 s 0 <> Undefined.
Proof.
  intros st0. split; [reflexivity|]. split; [apply generate_leaves_body_zero|].
  split; [reflexivity|]. split; [reflexivity|].
  intros fuel. rewrite MerkleTree_ctor_zero. split; discriminate.
Qed.

(** C2 as stated fails: on "hello world" with a chunk size of 0 the
    constructor does not fail, whatever the fuel it is still in the loop. *)
Lemma chunk_size_zero_does_not_fail :
  ~ (exists fuel : nat,
        MerkleTree_ctor Sha256.hash fuel [] (list_byte_of_string "hello world") 0
        <> Timeout).
Proof.
  intros [fuel H]. apply H. apply MerkleTree_ctor_zero.
Qed.

(** No node that the constructor allocates is given a parent: [isRoot] is
    true of all of them. *)
Lemma allocated_nodes_have_no_parent (hash : list byte -> ChecksumBase)
    (fuel : nat) (h0 : store) (s : list byte) (c : Z) :
  s <> [] -> 1 <= c -> in_range s c -> (length s < fuel)%nat ->
  exists (h : store) (t : MerkleTree),
    MerkleTree_ctor hash fuel h0 s c = Ok (h, t)
    /\ forall (p : ptr) (n : MerkleNode),
         (length h0 <= p)%nat -> h !! p = Some n ->
         parent n = None /\ isRoot n = true.
Proof.
  intros Hne Hc Hr Hfuel.
  destruct (MerkleTree_ctor_spec hash (fun _ => True) (fun _ => I)
              fuel h0 s c Hne Hc Hr Hfuel) as (h & r & Hrun & Hinv & _).
  exists h, {| m_ChunkSize := c; root := Some r |}. split; [exact Hrun|].
  intros p n Hp Hn.
  destruct Hinv as (_ & _ & _ & _ & _ & _ & _ & Hok).
  destruct (Hok p n Hp Hn) as (Hpar & _).
  split; [exact Hpar|]. unfold isRoot. now rewrite Hpar.
Qed.

(** C4 (the code differs). [make_tree] sets [left] and [right] of the nodes
    it makes and never [parent]: in the tree built from "ab" with a chunk
    size of 1, each of the three nodes has no parent, and [isRoot] is true
    of the two leaves as it is of the root. *)
Theorem parent_is_never_set :
  exists (h : store) (a b r : MerkleNode),
    MerkleTree_ctor Sha256.hash 3 [] (list_byte_of_string "ab") 1
    = Ok (h, {| m_ChunkSize := 1; root := Some 2%nat |})
    /\ h = [a; b; r]
    /\ left r = Some 0%nat /\ right r = Some 1%nat
    /\ parent a = None /\ parent b = None /\ parent r = None
    /\ isRoot a = true /\ isRoot b = true /\ isRoot r = true.
Proof.
  do 4 eexists. split; [vm_compute; reflexivity|].
  repeat split.
Qed.

(** ** The odd tail *)

Section OddTail.

Variable hash : list byte -> ChecksumBase.

(** The [j]-th parent of a pass has the nodes at the positions [2 * j] and
    [2 * j + 1] of the level as children, and their joined data. *)
Lemma paired_lookup (h : store) (prev : Level) :
  forall (j : nat) (n : MerkleNode),
    paired hash h prev !! j = Some n ->
    exists (l r : ptr) (nl nr : MerkleNode),
      prev !! (2 * j)%nat = Some l /\ prev !! (2 * j + 1)%nat = Some r
      /\ h !! l = Some nl /\ h !! r = Some nr
      /\ n = {| node := join_data hash (node nl) (node nr);
                parent := None; left := Some l; right := Some r |}.
Proof.
  induction prev as [|x|x y rest IH] using list_pair_ind; intros j n Hj;
    try discriminate Hj.
  cbn [paired] in Hj.
  destruct (h !! x) as [nl|] eqn:Hx; [|discriminate Hj].
  destruct (h !! y) as [nr|] eqn:Hy; [|discriminate Hj].
  destruct j as [|j].
  - injection Hj as <-. exists x, y, nl, nr. auto.
  - cbn [lookup list_lookup] in Hj. destruct (IH j n Hj) as (l & r & ml & mr & H).
    exists l, r, ml, mr.
    replace (2 * S j)%nat with (S (S (2 * j))) by lia.
    replace (S (S (2 * j)) + 1)%nat with (S (S (2 * j + 1))) by lia.
    exact H.
Qed.

Lemma odd_tail_last (prev : Level) (x : ptr) :
  Nat.odd (length prev) = true -> last prev = Some x -> odd_tail prev = [x].
Proof. intros Hodd Hx. unfold odd_tail. now rewrite Hodd, Hx. Qed.

End OddTail.

(** C6. In a pass over a level of odd length the last node is carried: it
    is the last node of the next level, at the same address and with the
    node it had, so with the same digest, offset and span; the parents made
    by the pass are those of the pairs before it, one hash each, and it is
    a child of none of them. With three leaves the first pass makes the
    parent [P0] of the first two and carries the third, the second makes
    the root of [P0] and the third, and the span of the root is the sum of
    the three spans. *)
Theorem odd_tail_is_carried_unchanged (hash : list byte -> ChecksumBase)
    (fuel : nat) (h : store) :
  (forall (tr : list Level) (prev : Level) (i : Z) (x : ptr),
      valid_level h prev -> Nat.odd (length prev) = true -> last prev = Some x ->
      Z.of_nat (length prev) <= INT_MAX -> i + 1 <= INT_MAX ->
      (length prev / 2 <= fuel)%nat ->
      exists (st : tree_state) (lv : Level) (new : list MerkleNode),
        levels_body hash fuel {| ts_store := h; ts_tree := tr ++ [prev]; ts_i := i |}
        = Ok st
        /\ ts_tree st = (tr ++ [prev]) ++ [lv]
        /\ last lv = Some x
        /\ length lv = S (length prev / 2)
        /\ ts_store st = h ++ new
        /\ length new = (length prev / 2)%nat
        /\ ts_store st !! x = h !! x
        /\ forall (j : nat) (n : MerkleNode),
             new !! j = Some n ->
             (2 * j + 1 < length prev - 1)%nat
             /\ left n = prev !! (2 * j)%nat
             /\ right n = prev !! (2 * j + 1)%nat)
  /\ (forall (L0 L1 L2 : ptr) (n0 n1 n2 : MerkleNode),
         h !! L0 = Some n0 -> h !! L1 = Some n1 -> h !! L2 = Some n2 ->
         0 <= chunk_size (node n0) -> 0 <= chunk_size (node n1) ->
         0 <= chunk_size (node n2) ->
         chunk_size (node n0) + chunk_size (node n1) + chunk_size (node n2)
         <= SIZE_MAX ->
         (3 <= fuel)%nat ->
         let P0 := {| node := join_data hash (node n0) (node n1);
                      parent := None; left := Some L0; right := Some L1 |} in
         let Root := {| node := join_data hash (node P0) (node n2);
                        parent := None; left := Some (length h);
                        right := Some L2 |} in
         make_tree_levels hash fuel h [L0; L1; L2]
         = Ok {| ts_store := h ++ [P0; Root];
                 ts_tree := [[L0; L1; L2]; [length h; L2]; [S (length h)]];
                 ts_i := 2 |}
         /\ make_tree hash fuel h [L0; L1; L2]
            = Ok (h ++ [P0; Root], Some (S (length h)))
         /\ chunk_size (node Root)
            = chunk_size (node n0) + chunk_size (node n1) + chunk_size (node n2)).
Proof.
  split.
  - intros tr prev i x Hv Hodd Hx Hmax Hi Hfuel.
    assert (H1 : (1 <= length prev)%nat).
    { destruct prev; [discriminate Hx | cbn [length]; lia]. }
    exists {| ts_store := (reduce_level hash h prev).1;
              ts_tree := (tr ++ [prev]) ++ [(reduce_level hash h prev).2];
              ts_i := i + 1 |},
      (reduce_level hash h prev).2, (paired hash h prev).
    split; [now apply levels_body_spec|].
    cbn [ts_store ts_tree]. unfold reduce_level. cbn [fst snd].
    rewrite (odd_tail_last prev x Hodd Hx), paired_length by exact Hv.
    split; [reflexivity|]. split; [apply last_snoc|]. split.
    { rewrite length_app, length_seq. cbn [length]. lia. }
    split; [reflexivity|]. split; [reflexivity|]. split.
    { apply lookup_app_l. apply last_Some in Hx as [l' ->].
      apply Forall_app in Hv as [_ Hv]. now apply Forall_cons in Hv as [Hx' _]. }
    intros j n Hj.
    destruct (paired_lookup hash h prev j n Hj) as (l & r & nl & nr & Hl & Hr & _ & _ & ->).
    cbn [left right]. split; [|split; congruence].
    apply lookup_lt_Some in Hr.
    apply Nat.odd_spec in Hodd. destruct Hodd as [q Hq]. lia.
  - intros L0 L1 L2 n0 n1 n2 H0 H1 H2 Hs0 Hs1 Hs2 Hsum Hfuel P0 Root.
    assert (Hv : valid_level h [L0; L1; L2]).
    { repeat constructor; eapply lookup_lt_Some; eassumption. }
    assert (Hrun : make_tree_levels hash fuel h [L0; L1; L2]
                   = Ok {| ts_store := h ++ [P0; Root];
                           ts_tree := [[L0; L1; L2]; [length h; L2]; [S (length h)]];
                           ts_i := 2 |}).
    { rewrite make_tree_levels_spec;
        [ | exact Hv | cbn [length]; lia | vm_compute; discriminate | cbn [length]; lia ].
      change (num_passes (length [L0; L1; L2])) with 2%nat.
      change (Z.log2_up (Z.of_nat (length [L0; L1; L2]))) with 2.
      rewrite !reduce_levels_S. cbn [reduce_levels].
      assert (E1 : reduce_level hash h [L0; L1; L2] = (h ++ [P0], [length h; L2])).
      { unfold reduce_level. cbn [paired]. rewrite H0, H1. reflexivity. }
      rewrite E1. cbn [fst snd].
      assert (E2 : reduce_level hash (h ++ [P0]) [length h; L2]
                   = (h ++ [P0; Root], [S (length h)])).
      { unfold reduce_level. cbn [paired].
        rewrite list_lookup_middle by reflexivity.
        rewrite lookup_app_l by (eapply lookup_lt_Some; eassumption).
        rewrite H2. fold Root. rewrite <- app_assoc, length_app.
        cbn [app length seq odd_tail Nat.odd Nat.even option_list].
        f_equal. f_equal. lia. }
      rewrite E2. reflexivity. }
    split; [exact Hrun|]. split.
    + unfold make_tree. rewrite Hrun. reflexivity.
    + unfold Root, P0. cbn [node join_data chunk_size]. unfold size_t_add.
      rewrite (size_t_wrap_small (chunk_size (node n0) + chunk_size (node n1))) by lia.
      apply size_t_wrap_small. lia.
Qed.

Lemma odd_tail_is_carried_unchanged_witness :
  (valid_level three_leaves [0; 1; 2]%nat
   /\ Nat.odd (length [0; 1; 2]%nat) = true
   /\ last [0; 1; 2]%nat = Some 2%nat
   /\ Z.of_nat (length [0; 1; 2]%nat) <= INT_MAX
   /\ 0 + 1 <= INT_MAX
   /\ (length [0; 1; 2]%nat / 2 <= 3)%nat
   /\ exists (st : tree_state) (lv : Level) (new : list MerkleNode),
        levels_body Sha256.hash 3
          {| ts_store := three_leaves; ts_tree := [] ++ [[0; 1; 2]%nat]; ts_i := 0 |}
        = Ok st
        /\ ts_tree st = ([] ++ [[0; 1; 2]%nat]) ++ [lv]
        /\ last lv = Some 2%nat
        /\ length lv = S (length [0; 1; 2]%nat / 2)
        /\ ts_store st = three_leaves ++ new
        /\ length new = (length [0; 1; 2]%nat / 2)%nat
        /\ ts_store st !! 2%nat = three_leaves !! 2%nat
        /\ forall (j : nat) (n : MerkleNode),
             new !! j = Some n ->
             (2 * j + 1 < length [0; 1; 2]%nat - 1)%nat
             /\ left n = [0; 1; 2]%nat !! (2 * j)%nat
             /\ right n = [0; 1; 2]%nat !! (2 * j + 1)%nat)
  /\ exists (h : store) (root : MerkleNode),
       make_tree Sha256.hash 3 three_leaves [0; 1; 2]%nat = Ok (h, Some 4%nat)
       /\ h !! 4%nat = Some root
       /\ left root = Some 3%nat /\ right root = Some 2%nat
       /\ chunk_size (node root) = 1 + 1 + 1.
Proof.
  assert (Hv : valid_level three_leaves [0; 1; 2]%nat)
    by (repeat constructor).
  assert (Hodd : Nat.odd (length [0; 1; 2]%nat) = true) by reflexivity.
  assert (Hx : last [0; 1; 2]%nat = Some 2%nat) by reflexivity.
  assert (Hmax : Z.of_nat (length [0; 1; 2]%nat) <= INT_MAX)
    by (vm_compute; discriminate).
  assert (Hi : 0 + 1 <= INT_MAX) by (vm_compute; discriminate).
  assert (Hfuel : (length [0; 1; 2]%nat / 2 <= 3)%nat) by (vm_compute; lia).
  split.
  - split; [exact Hv|]. split; [exact Hodd|]. split; [exact Hx|].
    split; [exact Hmax|]. split; [exact Hi|]. split; [exact Hfuel|].
    exact (proj1 (odd_tail_is_carried_unchanged Sha256.hash 3 three_leaves)
             [] [0; 1; 2]%nat 0 2%nat Hv Hodd Hx Hmax Hi Hfuel).
  - assert (Hs : 0 <= 1) by (vm_compute; discriminate).
    assert (Hsum : 1 + 1 + 1 <= SIZE_MAX) by (vm_compute; discriminate).
    assert (H3 : (3 <= 3)%nat) by apply le_n.
    destruct (proj2 (odd_tail_is_carried_unchanged Sha256.hash 3 three_leaves)
                0%nat 1%nat 2%nat _ _ _ eq_refl eq_refl eq_refl Hs Hs Hs Hsum H3)
      as (_ & Hmk & Hsz).
    eexists _, _. split; [exact Hmk|]. split; [reflexivity|].
    split; [reflexivity|]. split; [reflexivity|]. exact Hsz.
Defined.

(** ** [operator==] *)

Lemma bytes_eqb_eq (a b : list byte) : bytes_eqb a b = true <-> a = b.
Proof.
  revert b. induction a as [|x a IH]; intros [|y b]; cbn [bytes_eqb];
    try (split; [discriminate | congruence]); [tauto|].
  rewrite andb_true_iff, IH. unfold byte_eqb. split.
  - intros [Hxy ->]. apply Byte.byte_dec_bl in Hxy. now subst.
  - intros [= -> ->]. split; [apply Byte.byte_dec_lb|]; reflexivity.
Qed.

Lemma MerkleNodeData_eqb_eq (a b : MerkleNodeData) :
  MerkleNodeData_eqb a b = true <-> a = b.
Proof.
  destruct a as [[da] oa sa], b as [[db] ob sb].
  unfold MerkleNodeData_eqb, ChecksumBase_eqb. cbn [checksum chunk_offset chunk_size data].
  rewrite !andb_true_iff, bytes_eqb_eq, !Z.eqb_eq. split.
  - intros [[-> ->] ->]. reflexivity.
  - intros [= -> -> ->]. auto.
Qed.

Lemma MerkleNode_eqb_spec (a b : MerkleNode) :
  MerkleNode_eqb a b = true
  <-> isRoot a = isRoot b /\ isLeaf a = isLeaf b /\ node a = node b.
Proof.
  unfold MerkleNode_eqb. rewrite <- MerkleNodeData_eqb_eq.
  destruct (isRoot a), (isRoot b), (isLeaf a), (isLeaf b); cbn;
    intuition discriminate.
Qed.

(** C7. Two trees are equal exactly when both have a root and the two root
    nodes agree on [isRoot], on [isLeaf] and on their data (digest, offset,
    span); the children are compared in no other way. A tree without a
    root is equal to no tree, be it another tree without a root or
    itself. *)
Theorem tree_equality_is_root_equality (h : store) (t other : MerkleTree) :
  (MerkleTree_eq h t other = Ok true
   <-> exists (r r' : ptr) (n n' : MerkleNode),
         root t = Some r /\ root other = Some r'
         /\ h !! r = Some n /\ h !! r' = Some n'
         /\ isRoot n = isRoot n' /\ isLeaf n = isLeaf n'
         /\ checksum (node n) = checksum (node n')
         /\ chunk_offset (node n) = chunk_offset (node n')
         /\ chunk_size (node n) = chunk_size (node n'))
  /\ (root t = None \/ root other = None -> MerkleTree_eq h t other = Ok false)
  /\ (root t = None -> MerkleTree_eq h t t = Ok false).
Proof.
  split; [|split].
  - unfold MerkleTree_eq. split.
    + destruct (root t) as [r|]; [|discriminate].
      destruct (root other) as [r'|]; [|discriminate].
      unfold deref.
      destruct (h !! r) as [n|] eqn:Hn; [|discriminate].
      destruct (h !! r') as [n'|] eqn:Hn'; [|discriminate].
      cbn. intros [= Heq]. apply MerkleNode_eqb_spec in Heq as (H1 & H2 & H3).
      exists r, r', n, n'. rewrite H3. auto 10.
    + intros (r & r' & n & n' & -> & -> & Hn & Hn' & H1 & H2 & H3 & H4 & H5).
      rewrite (deref_Some _ _ _ Hn), bind_Ok, (deref_Some _ _ _ Hn'), bind_Ok.
      f_equal. apply MerkleNode_eqb_spec. split; [exact H1|]. split; [exact H2|].
      destruct (node n), (node n'). cbn in *. congruence.
  - unfold MerkleTree_eq. intros [-> | ->]; [reflexivity|].
    destruct (root t); reflexivity.
  - unfold MerkleTree_eq. intros ->. reflexivity.
Qed.

Lemma tree_equality_is_root_equality_witness :
  MerkleTree_eq twin_nodes {| m_ChunkSize := 1; root := Some 3%nat |}
    {| m_ChunkSize := 1; root := Some 4%nat |} = Ok true
  /\ MerkleTree_eq twin_nodes {| m_ChunkSize := 1; root := None |}
       {| m_ChunkSize := 1; root := None |} = Ok false.
Proof.
  split.
  - apply (proj2 (proj1 (tree_equality_is_root_equality twin_nodes
                           {| m_ChunkSize := 1; root := Some 3%nat |}
                           {| m_ChunkSize := 1; root := Some 4%nat |}))).
    do 4 eexists. repeat split; reflexivity.
  - exact (proj2 (proj2 (tree_equality_is_root_equality twin_nodes
                           {| m_ChunkSize := 1; root := None |}
                           {| m_ChunkSize := 1; root := None |})) eq_refl).
Defined.

(** [main.cpp]: the trees of "hello world" and of "hello worlb", built one
    after the other with a chunk size of 1, are not equal, and the tree of
    "hello world" is equal to itself. *)
Example main_trees_differ :
  exists (h1 h2 : store) (tree_1 tree_2 : MerkleTree),
    MerkleTree_ctor Sha256.hash 12 [] (list_byte_of_string "hello world") 1
    = Ok (h1, tree_1)
    /\ MerkleTree_ctor Sha256.hash 12 h1 (list_byte_of_string "hello worlb") 1
       = Ok (h2, tree_2)
    /\ MerkleTree_eq h2 tree_1 tree_2 = Ok false
    /\ MerkleTree_eq h2 tree_1 tree_1 = Ok true.
Proof.
  do 4 eexists. split; [vm_compute; reflexivity|].
  split; [vm_compute; reflexivity|]. split; vm_compute; reflexivity.
Qed.

(** * More properties *)

(** ** The orders and the equalities *)

Lemma bytes_compare_eq (a b : list byte) : bytes_compare a b = Eq <-> a = b.
Proof.
  revert b. induction a as [|x a IH]; intros [|y b]; cbn [bytes_compare];
    try (split; [discriminate | congruence]); [tauto|].
  destruct (N.compare_spec (Byte.to_N x) (Byte.to_N y)) as [E|E|E].
  - apply (f_equal Byte.of_N) in E. rewrite !Byte.of_to_N in E.
    injection E as ->. rewrite IH. split; congruence.
  - split; [discriminate|]. intros [= -> ->]. lia.
  - split; [discriminate|]. intros [= -> ->]. lia.
Qed.

Lemma bytes_compare_antisym (a b : list byte) :
  bytes_compare b a = CompOpp (bytes_compare a b).
Proof.
  revert b. induction a as [|x a IH]; intros [|y b]; cbn [bytes_compare];
    try reflexivity.
  rewrite (N.compare_antisym (Byte.to_N x) (Byte.to_N y)).
  destruct (Byte.to_N x ?= Byte.to_N y)%N; cbn [CompOpp]; auto.
Qed.

Lemma bytes_compare_trans (a : list byte) :
  forall b c, bytes_compare a b = Lt -> bytes_compare b c = Lt ->
              bytes_compare a c = Lt.
Proof.
  induction a as [|x a IH]; intros [|y b] [|z c]; cbn [bytes_compare];
    try discriminate; try reflexivity.
  destruct (N.compare_spec (Byte.to_N x) (Byte.to_N y)) as [E1|E1|E1];
    destruct (N.compare_spec (Byte.to_N y) (Byte.to_N z)) as [E2|E2|E2];
    try discriminate; intros H1 H2.
  - rewrite E1, E2, N.compare_refl. eauto.
  - rewrite E1. now apply N.compare_lt_iff in E2 as ->.
  - rewrite <- E2. now apply N.compare_lt_iff in E1 as ->.
  - assert (E : (Byte.to_N x < Byte.to_N z)%N) by lia.
    now apply N.compare_lt_iff in E as ->.
Qed.

(** X1. The defaulted [operator<=>] of a checksum agrees with its
    [operator==], and it is a strict order: comparing the other way round
    gives the opposite result, and less-than is transitive. *)
Theorem ChecksumBase_compare_order (a b c : ChecksumBase) :
  (ChecksumBase_compare a b = Eq <-> ChecksumBase_eqb a b = true)
  /\ ChecksumBase_compare b a = CompOpp (ChecksumBase_compare a b)
  /\ (ChecksumBase_compare a b = Lt -> ChecksumBase_compare b c = Lt ->
      ChecksumBase_compare a c = Lt).
Proof.
  unfold ChecksumBase_compare, ChecksumBase_eqb. split; [|split].
  - now rewrite bytes_compare_eq, bytes_eqb_eq.
  - apply bytes_compare_antisym.
  - apply bytes_compare_trans.
Qed.

Lemma ChecksumBase_compare_order_witness :
  ChecksumBase_compare (Sha256.hash [x63]) (Sha256.hash [x62]) = Lt
  /\ ChecksumBase_compare (Sha256.hash [x62]) (Sha256.hash [x61]) = Lt
  /\ ChecksumBase_compare (Sha256.hash [x63]) (Sha256.hash [x61]) = Lt.
Proof.
  assert (H1 : ChecksumBase_compare (Sha256.hash [x63]) (Sha256.hash [x62]) = Lt)
    by (vm_compute; reflexivity).
  assert (H2 : ChecksumBase_compare (Sha256.hash [x62]) (Sha256.hash [x61]) = Lt)
    by (vm_compute; reflexivity).
  split; [exact H1|]. split; [exact H2|].
  exact (proj2 (proj2 (ChecksumBase_compare_order (Sha256.hash [x63])
                         (Sha256.hash [x62]) (Sha256.hash [x61]))) H1 H2).
Defined.

Lemma lex_compare_trans (c1 c2 c3 d1 d2 d3 : comparison) :
  (c1 = Eq -> c3 = c2) -> (c2 = Eq -> c3 = c1) ->
  (c1 = Lt -> c2 = Lt -> c3 = Lt) ->
  (c1 = Eq -> c2 = Eq -> d1 = Lt -> d2 = Lt -> d3 = Lt) ->
  lex_comparison c1 d1 = Lt -> lex_comparison c2 d2 = Lt ->
  lex_comparison c3 d3 = Lt.
Proof.
  intros H1 H2 H3 H4.
  destruct c1, c2; cbn [lex_comparison]; intros Ha Hb; try discriminate.
  - rewrite (H1 eq_refl). cbn [lex_comparison]. auto.
  - now rewrite (H1 eq_refl).
  - now rewrite (H2 eq_refl).
  - now rewrite H3.
Qed.

Lemma MerkleNodeData_compare_lex (a b : MerkleNodeData) :
  MerkleNodeData_compare a b
  = lex_comparison (ChecksumBase_compare (checksum a) (checksum b))
      (lex_comparison (chunk_offset a ?= chunk_offset b)
         (chunk_size a ?= chunk_size b)).
Proof.
  unfold MerkleNodeData_compare.
  destruct (ChecksumBase_compare (checksum a) (checksum b)); reflexivity.
Qed.

Lemma Z_compare_trans_pieces (x y z : Z) :
  ((x ?= y) = Eq -> (x ?= z) = (y ?= z))
  /\ ((y ?= z) = Eq -> (x ?= z) = (x ?= y))
  /\ ((x ?= y) = Lt -> (y ?= z) = Lt -> (x ?= z) = Lt).
Proof.
  split; [|split].
  - intros H. apply Z.compare_eq in H. now subst.
  - intros H. apply Z.compare_eq in H. now subst.
  - rewrite !Z.compare_lt_iff. lia.
Qed.

Lemma ChecksumBase_compare_pieces (a b c : ChecksumBase) :
  (ChecksumBase_compare a b = Eq -> ChecksumBase_compare a c = ChecksumBase_compare b c)
  /\ (ChecksumBase_compare b c = Eq -> ChecksumBase_compare a c = ChecksumBase_compare a b).
Proof.
  unfold ChecksumBase_compare. split; intros H; apply bytes_compare_eq in H;
    now rewrite H.
Qed.

(** X2. The defaulted [operator<=>] of the data of a node orders by
    checksum, then offset, then span; it agrees with [operator==], comparing
    the other way round gives the opposite result, and less-than is
    transitive. *)
Theorem MerkleNodeData_compare_order (a b c : MerkleNodeData) :
  (MerkleNodeData_compare a b = Eq <-> MerkleNodeData_eqb a b = true)
  /\ MerkleNodeData_compare b a = CompOpp (MerkleNodeData_compare a b)
  /\ (MerkleNodeData_compare a b = Lt -> MerkleNodeData_compare b c = Lt ->
      MerkleNodeData_compare a c = Lt).
Proof.
  split; [|split].
  - unfold MerkleNodeData_compare, MerkleNodeData_eqb, ChecksumBase_compare,
      ChecksumBase_eqb.
    rewrite !andb_true_iff, bytes_eqb_eq, !Z.eqb_eq.
    destruct (bytes_compare (data (checksum a)) (data (checksum b))) eqn:E1.
    + apply bytes_compare_eq in E1.
      destruct (Z.compare_spec (chunk_offset a) (chunk_offset b)) as [E2|E2|E2].
      * rewrite Z.compare_eq_iff. tauto.
      * split; [discriminate | lia].
      * split; [discriminate | lia].
    + split; [discriminate|]. intros [[H _] _].
      apply bytes_compare_eq in H. congruence.
    + split; [discriminate|]. intros [[H _] _].
      apply bytes_compare_eq in H. congruence.
  - unfold MerkleNodeData_compare, ChecksumBase_compare.
    rewrite (bytes_compare_antisym (data (checksum a)) (data (checksum b))).
    rewrite (Z.compare_antisym (chunk_offset a) (chunk_offset b)).
    rewrite (Z.compare_antisym (chunk_size a) (chunk_size b)).
    destruct (bytes_compare (data (checksum a)) (data (checksum b))); cbn [CompOpp];
      try reflexivity.
    destruct (chunk_offset a ?= chunk_offset b); cbn [CompOpp]; reflexivity.
  - rewrite !MerkleNodeData_compare_lex.
    destruct (ChecksumBase_compare_pieces (checksum a) (checksum b) (checksum c))
      as (P1 & P2).
    destruct (Z_compare_trans_pieces (chunk_offset a) (chunk_offset b) (chunk_offset c))
      as (O1 & O2 & O3).
    destruct (Z_compare_trans_pieces (chunk_size a) (chunk_size b) (chunk_size c))
      as (S1 & S2 & S3).
    apply lex_compare_trans; try assumption.
    + apply bytes_compare_trans.
    + intros _ _. apply lex_compare_trans; try assumption. auto.
Qed.

Lemma MerkleNodeData_compare_order_witness :
  let a := {| checksum := Sha256.hash []; chunk_offset := 0; chunk_size := 4 |} in
  let b := {| checksum := Sha256.hash []; chunk_offset := 4; chunk_size := 4 |} in
  let c := {| checksum := Sha256.hash []; chunk_offset := 4; chunk_size := 7 |} in
  MerkleNodeData_compare a b = Lt /\ MerkleNodeData_compare b c = Lt
  /\ MerkleNodeData_compare a c = Lt.
Proof.
  intros a b c.
  assert (H1 : MerkleNodeData_compare a b = Lt) by (vm_compute; reflexivity).
  assert (H2 : MerkleNodeData_compare b c = Lt) by (vm_compute; reflexivity).
  split; [exact H1|]. split; [exact H2|].
  exact (proj2 (proj2 (MerkleNodeData_compare_order a b c)) H1 H2).
Defined.

(** ** [operator==] of trees *)

Lemma MerkleNode_eqb_sym (a b : MerkleNode) : MerkleNode_eqb a b = MerkleNode_eqb b a.
Proof.
  apply eq_true_iff_eq. rewrite !MerkleNode_eqb_spec. intuition congruence.
Qed.

(** X3. Equality of trees is symmetric and transitive, and a tree is equal
    to itself when its root is set; on the trees that have a root it is an
    equivalence. *)
Theorem MerkleTree_eq_equivalence (h : store) (a b c : MerkleTree) :
  MerkleTree_eq h a b = MerkleTree_eq h b a
  /\ (MerkleTree_eq h a b = Ok true -> MerkleTree_eq h b c = Ok true ->
      MerkleTree_eq h a c = Ok true)
  /\ (forall (r : ptr), root a = Some r -> (r < length h)%nat ->
      MerkleTree_eq h a a = Ok true).
Proof.
  split; [|split].
  - unfold MerkleTree_eq.
    destruct (root a) as [ra|], (root b) as [rb|]; try reflexivity.
    unfold deref.
    destruct (h !! ra) as [na|], (h !! rb) as [nb|]; try reflexivity.
    cbn. now rewrite MerkleNode_eqb_sym.
  - unfold MerkleTree_eq.
    destruct (root a) as [ra|]; [|discriminate].
    destruct (root b) as [rb|]; [|discriminate].
    destruct (root c) as [rc|]; [|discriminate].
    unfold deref.
    destruct (h !! ra) as [na|]; [|discriminate].
    destruct (h !! rb) as [nb|]; [|discriminate].
    destruct (h !! rc) as [nc|]; [|discriminate].
    cbn. intros [= H1] [= H2]. f_equal.
    apply MerkleNode_eqb_spec in H1, H2. apply MerkleNode_eqb_spec.
    intuition congruence.
  - intros r Hr Hlt. unfold MerkleTree_eq. rewrite Hr.
    destruct (lookup_lt_is_Some_2 h r Hlt) as [n Hn].
    rewrite (deref_Some _ _ _ Hn). cbn. f_equal.
    apply MerkleNode_eqb_spec. auto.
Qed.

Lemma MerkleTree_eq_equivalence_witness :
  MerkleTree_eq twin_nodes {| m_ChunkSize := 1; root := Some 3%nat |}
    {| m_ChunkSize := 2; root := Some 4%nat |} = Ok true
  /\ MerkleTree_eq twin_nodes {| m_ChunkSize := 2; root := Some 4%nat |}
       {| m_ChunkSize := 3; root := Some 3%nat |} = Ok true
  /\ MerkleTree_eq twin_nodes {| m_ChunkSize := 1; root := Some 3%nat |}
       {| m_ChunkSize := 3; root := Some 3%nat |} = Ok true
  /\ (3 < length twin_nodes)%nat
  /\ MerkleTree_eq twin_nodes {| m_ChunkSize := 1; root := Some 3%nat |}
       {| m_ChunkSize := 1; root := Some 3%nat |} = Ok true.
Proof.
  pose (a := {| m_ChunkSize := 1; root := Some 3%nat |}).
  pose (b := {| m_ChunkSize := 2; root := Some 4%nat |}).
  pose (c := {| m_ChunkSize := 3; root := Some 3%nat |}).
  assert (H1 : MerkleTree_eq twin_nodes a b = Ok true) by (vm_compute; reflexivity).
  assert (H2 : MerkleTree_eq twin_nodes b c = Ok true) by (vm_compute; reflexivity).
  assert (H3 : (3 < length twin_nodes)%nat) by (vm_compute; repeat constructor).
  split; [exact H1|]. split; [exact H2|]. split.
  - exact (proj1 (proj2 (MerkleTree_eq_equivalence twin_nodes a b c)) H1 H2).
  - split; [exact H3|].
    exact (proj2 (proj2 (MerkleTree_eq_equivalence twin_nodes a b c)) 3%nat eq_refl H3).
Defined.

(** ** [hexDigest] can be read back *)

Lemma unhex_two_hex_digits (d : byte) (rest : list ascii) :
  unhex (two_hex_digits d ++ rest) = d :: unhex rest.
Proof.
  change (two_hex_digits d ++ rest)
    with (hex_digit (SHA256.byteZ d / 16) :: hex_digit (SHA256.byteZ d mod 16) :: rest).
  cbn [unhex]. f_equal. destruct d; reflexivity.
Qed.

Lemma unhex_concat (bs : list byte) :
  unhex (concat (map two_hex_digits bs)) = bs.
Proof.
  induction bs as [|b bs IH]; [reflexivity|].
  cbn [map concat]. now rewrite unhex_two_hex_digits, IH.
Qed.

Lemma list_ascii_of_string_of_chars (l : list ascii) :
  list_ascii_of_string (string_of_chars l) = l.
Proof. induction l as [|a l IH]; simpl; [reflexivity | now rewrite IH]. Qed.

(** X4. The bytes of a digest can be read back from its rendering, so
    [hexDigest] gives different strings for different digests. *)
Theorem hexDigest_injective (a b : ChecksumBase) :
  unhex (list_ascii_of_string (hexDigest a)) = data a
  /\ (hexDigest a = hexDigest b -> a = b).
Proof.
  assert (H : forall c, unhex (list_ascii_of_string (hexDigest c)) = data c).
  { intros c. rewrite hexDigest_concat, list_ascii_of_string_of_chars.
    apply unhex_concat. }
  split; [apply H|]. intros E.
  destruct a as [da], b as [db]. f_equal.
  change da with (data {| data := da |}). rewrite <- H, E, H. reflexivity.
Qed.

Lemma hexDigest_injective_witness :
  unhex (list_ascii_of_string (hexDigest (Sha256.hash [x61])))
  = data (Sha256.hash [x61])
  /\ hexDigest (Sha256.hash [x61]) = hexDigest {| data := data (Sha256.hash [x61]) |}
  /\ Sha256.hash [x61] = {| data := data (Sha256.hash [x61]) |}.
Proof.
  assert (E : hexDigest (Sha256.hash [x61])
              = hexDigest {| data := data (Sha256.hash [x61]) |})
    by (vm_compute; reflexivity).
  split; [|split; [exact E|]].
  - exact (proj1 (hexDigest_injective (Sha256.hash [x61])
                    {| data := data (Sha256.hash [x61]) |})).
  - exact (proj2 (hexDigest_injective (Sha256.hash [x61])
                    {| data := data (Sha256.hash [x61]) |}) E).
Defined.

(** ** The leaves *)

Lemma while__exit {S} (fuel : nat) (cond : S -> bool) body (s s' : S) :
  while_ fuel cond body s = Ok s' -> cond s' = false.
Proof.
  revert s. induction fuel as [|fuel IH]; intros s; cbn [while_];
    destruct (cond s) eqn:E; try discriminate;
    try (intros [= <-]; exact E).
  destruct (body s) as [s1| | |]; try discriminate. cbn. apply IH.
Qed.

Lemma while__invariant {S} (I : S -> Prop) (cond : S -> bool) body :
  (forall s s', I s -> cond s = true -> body s = Ok s' -> I s') ->
  forall (fuel : nat) (s s' : S),
    I s -> while_ fuel cond body s = Ok s' -> I s'.
Proof.
  intros Hstep. induction fuel as [|fuel IH]; intros s s' HI; cbn [while_];
    destruct (cond s) eqn:E; try discriminate;
    try (intros [= <-]; exact HI).
  destruct (body s) as [s1| | |] eqn:Eb; try discriminate. cbn.
  apply IH. exact (Hstep s s1 HI E Eb).
Qed.

Section MoreLeaves.

Variable hash : list byte -> ChecksumBase.

Lemma take_length_take (n : nat) (l : list byte) :
  take (length (take n l)) l = take n l.
Proof.
  rewrite length_take. destruct (Nat.le_ge_cases n (length l)) as [H|H].
  - now rewrite Nat.min_l.
  - rewrite Nat.min_r by exact H. now rewrite !take_ge.
Qed.

(** The [i]-th leaf: the hash of the [i]-th chunk, at [i * c], as long as
    the chunk. *)
Lemma leaf_data_lookup (c : Z) (n : nat) :
  1 <= c ->
  forall (rest : list byte) (off : Z) (i : nat) (d : MerkleNodeData),
    (length rest <= n)%nat -> 0 <= off ->
    off + Z.of_nat (length rest) <= SIZE_MAX ->
    leaf_data hash n c off rest !! i = Some d ->
    checksum d = hash (chunk_at c rest i)
    /\ chunk_offset d = off + Z.of_nat i * c
    /\ chunk_size d = Z.min c (Z.of_nat (length rest) - Z.of_nat i * c)
    /\ Z.of_nat i * c < Z.of_nat (length rest).
Proof.
  intros Hc. induction n as [|n IH]; intros rest off i d Hn Hoff Hmax Hi.
  - destruct i; discriminate Hi.
  - destruct rest as [|b rest]; [destruct i; discriminate Hi|].
    destruct (take_length_pos c b rest Hc) as (Hpos & Hsum & Hle).
    cbn [leaf_data] in Hi. set (got := take (Z.to_nat c) (b :: rest)) in *.
    destruct i as [|i].
    + injection Hi as <-. cbn [checksum chunk_offset chunk_size].
      unfold chunk_at. cbn [Nat.mul drop]. fold got.
      split; [reflexivity|]. split; [lia|].
      subst got. rewrite length_take in *. cbn [length] in *. lia.
    + cbn [lookup list_lookup] in Hi.
      assert (Hw : size_t_add off (Z.of_nat (length got)) = off + Z.of_nat (length got)).
      { unfold size_t_add. apply size_t_wrap_small. lia. }
      rewrite Hw in Hi.
      assert (Hdl : Z.of_nat (length (drop (Z.to_nat c) (b :: rest)))
                    = Z.of_nat (length (b :: rest)) - Z.of_nat (length got)) by lia.
      assert (Hdn : (length (drop (Z.to_nat c) (b :: rest)) <= n)%nat).
      { cbn [length] in *. lia. }
      destruct (IH (drop (Z.to_nat c) (b :: rest)) (off + Z.of_nat (length got)) i d
                  Hdn ltac:(lia) ltac:(lia) Hi) as (Hck & Ho & Hs & Hlt).
      assert (Hfull : Z.of_nat (length got) = c).
      { assert (Hgl : length got = Nat.min (Z.to_nat c) (length (b :: rest)))
          by (subst got; apply length_take).
        lia. }
      rewrite Hck, Ho, Hs, Hdl, Hfull.
      split; [|lia].
      unfold chunk_at. rewrite drop_drop. reflexivity.
Qed.

(** As many leaves as chunks. *)
Lemma leaf_data_length (c : Z) (n : nat) :
  1 <= c ->
  forall (rest : list byte) (off : Z),
    (length rest <= n)%nat ->
    Z.of_nat (length (leaf_data hash n c off rest))
    = (Z.of_nat (length rest) + c - 1) / c.
Proof.
  intros Hc.
  assert (Hup : forall n rest off, (length rest <= n)%nat ->
            Z.of_nat (length rest)
            <= Z.of_nat (length (leaf_data hash n c off rest)) * c).
  { clear n. induction n as [|n IH]; intros rest off Hn.
    - destruct rest; [cbn; lia | simpl in Hn; lia].
    - destruct rest as [|b rest]; [cbn; lia|].
      destruct (take_length_pos c b rest Hc) as (Hpos & Hsum & Hle).
      cbn [leaf_data]. set (got := take (Z.to_nat c) (b :: rest)) in *.
      cbn [length].
      specialize (IH (drop (Z.to_nat c) (b :: rest))
                    (size_t_add off (Z.of_nat (length got)))).
      assert (Hd : (length (drop (Z.to_nat c) (b :: rest)) <= n)%nat).
      { subst got. rewrite length_take in Hpos. rewrite length_drop.
        cbn [length] in *. lia. }
      specialize (IH Hd). cbn [length] in Hsum, IH.
      rewrite (Nat2Z.inj_succ (length (leaf_data _ _ _ _ _))), Z.mul_succ_l. lia. }
  intros rest off Hn. specialize (Hup n rest off Hn).
  destruct rest as [|b rest].
  - rewrite leaf_data_nil. cbn [length]. symmetry.
    apply Z.div_small. lia.
  - destruct (leaf_data_count hash c n Hc (b :: rest) off) as (H1 & H2);
      [discriminate | exact Hn |].
    set (L := Z.of_nat (length (leaf_data hash n c off (b :: rest)))) in *.
    apply (Z.div_unique_pos _ c L (Z.of_nat (length (b :: rest)) + c - 1 - c * L));
      nia.
Qed.

(** The leaves cut the input into adjacent pieces, and each leaf holds the
    hash of its piece. *)
Lemma leaf_data_covers (c : Z) (n : nat) :
  1 <= c ->
  forall (pre rest : list byte),
    (length rest <= n)%nat ->
    Z.of_nat (length pre) + Z.of_nat (length rest) <= SIZE_MAX ->
    let ds := leaf_data hash n c (Z.of_nat (length pre)) rest in
    concat (map (covered_bytes (pre ++ rest)) ds) = rest
    /\ Forall (fun d => checksum d = hash (covered_bytes (pre ++ rest) d)) ds.
Proof.
  intros Hc. induction n as [|n IH]; intros pre rest Hn Hmax ds.
  - destruct rest; [split; [reflexivity | constructor] | simpl in Hn; lia].
  - destruct rest as [|b rest]; [split; [reflexivity | constructor]|].
    destruct (take_length_pos c b rest Hc) as (Hpos & Hsum & Hle).
    subst ds. cbn [leaf_data]. set (got := take (Z.to_nat c) (b :: rest)) in *.
    assert (Hw : size_t_add (Z.of_nat (length pre)) (Z.of_nat (length got))
                 = Z.of_nat (length (pre ++ got))).
    { unfold size_t_add. rewrite length_app, Nat2Z.inj_add.
      apply size_t_wrap_small. lia. }
    rewrite Hw.
    assert (Hsplit : pre ++ b :: rest = (pre ++ got) ++ drop (Z.to_nat c) (b :: rest)).
    { rewrite <- app_assoc. f_equal. subst got. symmetry. apply take_drop. }
    assert (Hcov : covered_bytes (pre ++ b :: rest)
                     {| checksum := hash got; chunk_offset := Z.of_nat (length pre);
                        chunk_size := Z.of_nat (length got) |} = got).
    { unfold covered_bytes. cbn [chunk_offset chunk_size].
      rewrite !Nat2Z.id, drop_app_length. subst got. apply take_length_take. }
    destruct (IH (pre ++ got) (drop (Z.to_nat c) (b :: rest))) as (IHc & IHf).
    { subst got. rewrite length_take in Hpos. rewrite length_drop.
      cbn [length] in *. lia. }
    { rewrite length_app. lia. }
    cbv zeta in IHc, IHf. rewrite <- Hsplit in IHc, IHf.
    cbn [map concat]. rewrite Hcov, IHc. split.
    + subst got. apply take_drop.
    + constructor; [now rewrite Hcov | exact IHf].
Qed.

(** X5. For a chunk size [c] of at least 1, [generate_leaves] appends one
    fresh node per chunk to the store, in stream order, and returns their
    addresses: there are [ceil (len / c)] of them, and the [i]-th holds the
    hash of the [i]-th chunk, the offset [i * c] and the length of that
    chunk, [c] but for a shorter last one. *)
Theorem generate_leaves_chunks (fuel : nat) (c : Z) (h0 : store) (s : list byte) :
  1 <= c <= STREAMSIZE_MAX -> Z.of_nat (length s) <= SIZE_MAX ->
  (length s < fuel)%nat ->
  exists ds : list MerkleNodeData,
    generate_leaves hash fuel c h0 (istringstream_of s)
    = Ok (h0 ++ map fresh_node ds, seq (length h0) (length ds))
    /\ Z.of_nat (length ds) = (Z.of_nat (length s) + c - 1) / c
    /\ forall (i : nat) (d : MerkleNodeData),
         ds !! i = Some d ->
         checksum d = hash (chunk_at c s i)
         /\ chunk_offset d = Z.of_nat i * c
         /\ chunk_size d = Z.min c (Z.of_nat (length s) - Z.of_nat i * c)
         /\ 1 <= chunk_size d.
Proof.
  intros Hc Hmax Hfuel.
  exists (leaf_data hash (S (length s)) c 0 s).
  split; [now apply generate_leaves_spec|]. split.
  - apply leaf_data_length; lia.
  - intros i d Hi.
    destruct (leaf_data_lookup c (S (length s)) ltac:(lia) s 0 i d)
      as (H1 & H2 & H3 & H4); try assumption; try lia.
    split; [exact H1|]. split; [lia|]. split; [exact H3|]. lia.
Qed.

(** X6. The leaves cut the input into adjacent pieces that put together
    give the input back, and each leaf holds the hash of the bytes that its
    offset and span designate. *)
Theorem generate_leaves_partition (fuel : nat) (c : Z) (h0 : store) (s : list byte) :
  1 <= c <= STREAMSIZE_MAX -> Z.of_nat (length s) <= SIZE_MAX ->
  (length s < fuel)%nat ->
  exists ds : list MerkleNodeData,
    generate_leaves hash fuel c h0 (istringstream_of s)
    = Ok (h0 ++ map fresh_node ds, seq (length h0) (length ds))
    /\ concat (map (covered_bytes s) ds) = s
    /\ Forall (fun d => checksum d = hash (covered_bytes s d)) ds.
Proof.
  intros Hc Hmax Hfuel.
  exists (leaf_data hash (S (length s)) c 0 s).
  split; [now apply generate_leaves_spec|].
  apply (leaf_data_covers c (S (length s)) ltac:(lia) [] s); cbn [length]; lia.
Qed.

End MoreLeaves.

Lemma generate_leaves_chunks_witness :
  1 <= 4 <= STREAMSIZE_MAX
  /\ Z.of_nat (length (list_byte_of_string "hello world")) <= SIZE_MAX
  /\ (length (list_byte_of_string "hello world") < 12)%nat
  /\ exists ds : list MerkleNodeData,
       generate_leaves Sha256.hash 12 4 [] (istringstream_of (list_byte_of_string "hello world"))
       = Ok ([] ++ map fresh_node ds, seq (length (@nil MerkleNode)) (length ds))
       /\ Z.of_nat (length ds)
          = (Z.of_nat (length (list_byte_of_string "hello world")) + 4 - 1) / 4
       /\ forall (i : nat) (d : MerkleNodeData),
            ds !! i = Some d ->
            checksum d = Sha256.hash (chunk_at 4 (list_byte_of_string "hello world") i)
            /\ chunk_offset d = Z.of_nat i * 4
            /\ chunk_size d
               = Z.min 4 (Z.of_nat (length (list_byte_of_string "hello world"))
                          - Z.of_nat i * 4)
            /\ 1 <= chunk_size d.
Proof.
  assert (Hc : 1 <= 4 <= STREAMSIZE_MAX) by (vm_compute; intuition discriminate).
  assert (Hmax : Z.of_nat (length (list_byte_of_string "hello world")) <= SIZE_MAX)
    by (vm_compute; discriminate).
  assert (Hfuel : (length (list_byte_of_string "hello world") < 12)%nat)
    by (vm_compute; repeat constructor).
  split; [exact Hc|]. split; [exact Hmax|]. split; [exact Hfuel|].
  exact (generate_leaves_chunks Sha256.hash 12 4 [] (list_byte_of_string "hello world")
           Hc Hmax Hfuel).
Defined.

Lemma generate_leaves_partition_witness :
  1 <= 4 <= STREAMSIZE_MAX
  /\ Z.of_nat (length (list_byte_of_string "hello world")) <= SIZE_MAX
  /\ (length (list_byte_of_string "hello world") < 12)%nat
  /\ exists ds : list MerkleNodeData,
       generate_leaves Sha256.hash 12 4 [] (istringstream_of (list_byte_of_string "hello world"))
       = Ok ([] ++ map fresh_node ds, seq (length (@nil MerkleNode)) (length ds))
       /\ concat (map (covered_bytes (list_byte_of_string "hello world")) ds)
          = list_byte_of_string "hello world"
       /\ Forall (fun d => checksum d
                           = Sha256.hash (covered_bytes (list_byte_of_string "hello world") d))
            ds.
Proof.
  assert (Hc : 1 <= 4 <= STREAMSIZE_MAX) by (vm_compute; intuition discriminate).
  assert (Hmax : Z.of_nat (length (list_byte_of_string "hello world")) <= SIZE_MAX)
    by (vm_compute; discriminate).
  assert (Hfuel : (length (list_byte_of_string "hello world") < 12)%nat)
    by (vm_compute; repeat constructor).
  split; [exact Hc|]. split; [exact Hmax|]. split; [exact Hfuel|].
  exact (generate_leaves_partition Sha256.hash 12 4 [] (list_byte_of_string "hello world")
           Hc Hmax Hfuel).
Defined.

(** ** The constructor from a stream *)

Section MoreStream.

Variable hash : list byte -> ChecksumBase.


(** A pass of the loop does not look at the count of the last read. *)
Lemma generate_leaves_body_gcount (c : Z) (h : store) (r : list byte)
    (e f : bool) (k : Z) (buf : list byte) (res : Level) (off : Z) :
  generate_leaves_body hash c
    {| gl_store := h;
       gl_stream := {| rdbuf := r; eofbit := e; failbit := f; gcount := k |};
       gl_buf := buf; gl_result := res; gl_read_offset := off |}
  = generate_leaves_body hash c
      {| gl_store := h;
         gl_stream := {| rdbuf := r; eofbit := e; failbit := f; gcount := 0 |};
         gl_buf := buf; gl_result := res; gl_read_offset := off |}.
Proof. destruct e, f; reflexivity. Qed.

Lemma generate_leaves_loop_gcount (fuel : nat) (c : Z) (h : store)
    (rest : list byte) (k : Z) (buf : list byte) :
  while_ fuel (fun st => negb (eof (gl_stream st))) (generate_leaves_body hash c)
    {| gl_store := h; gl_stream := good_stream rest k; gl_buf := buf;
       gl_result := []; gl_read_offset := 0 |}
  = while_ fuel (fun st => negb (eof (gl_stream st))) (generate_leaves_body hash c)
      {| gl_store := h; gl_stream := istringstream_of rest; gl_buf := buf;
         gl_result := []; gl_read_offset := 0 |}.
Proof.
  destruct fuel as [|fuel]; [reflexivity|].
  cbn [while_ gl_stream good_stream istringstream_of eof eofbit negb].
  unfold good_stream, istringstream_of.
  now rewrite generate_leaves_body_gcount.
Qed.


Lemma generate_leaves_body_stream_inv (c : Z) (st st' : leaves_state) :
  1 <= c <= STREAMSIZE_MAX -> stream_inv st ->
  negb (eof (gl_stream st)) = true ->
  generate_leaves_body hash c st = Ok st' -> stream_inv st'.
Proof.
  intros Hc [[He Hf] | [He _]] Hcond Hb;
    [|unfold eof in Hcond; rewrite He in Hcond; discriminate Hcond].
  destruct st as [h [r e f k] buf res off]. cbn in He, Hf. subst e f.
  pose proof (generate_leaves_body_good hash c r buf h res off k Hc) as Hgood.
  cbv zeta in Hgood. unfold good_stream in Hgood. rewrite Hgood in Hb.
  injection Hb as <-.
  assert (Hs : forall st1 st2 : leaves_state,
             gl_stream st1 = gl_stream st2 -> stream_inv st1 -> stream_inv st2).
  { intros st1 st2 E. unfold stream_inv. now rewrite E. }
  apply (Hs {| gl_store := h;
               gl_stream :=
                 {| rdbuf := drop (Z.to_nat c) r;
                    eofbit := negb (Z.of_nat (length (take (Z.to_nat c) r)) =? c);
                    failbit := negb (Z.of_nat (length (take (Z.to_nat c) r)) =? c);
                    gcount := Z.of_nat (length (take (Z.to_nat c) r)) |};
               gl_buf := buf; gl_result := res; gl_read_offset := off |});
    [destruct r; reflexivity|].
  unfold stream_inv. cbn [gl_stream eofbit failbit rdbuf].
  destruct (Z.eqb_spec (Z.of_nat (length (take (Z.to_nat c) r))) c) as [E|E].
  - left. split; reflexivity.
  - right. split; [reflexivity|]. split; [reflexivity|].
    apply drop_ge. rewrite length_take in E. lia.
Qed.

(** X8. For a chunk size of at least 1, [generate_leaves] on a good stream
    reads the stream to its end: it returns the leaves of the constructor
    from a string, and it leaves the stream of the caller with nothing to
    read and with both [eofbit] and [failbit] set. *)
Theorem generate_leaves_exhausts_stream (fuel : nat) (c : Z) (h : store)
    (rest : list byte) (k : Z) :
  1 <= c <= STREAMSIZE_MAX -> (length rest < fuel)%nat ->
  exists (h' : store) (leaves : Level) (stream' : istringstream),
    generate_leaves_stream hash fuel c h (good_stream rest k)
    = Ok (h', leaves, stream')
    /\ generate_leaves hash fuel c h (istringstream_of rest) = Ok (h', leaves)
    /\ rdbuf stream' = [] /\ eofbit stream' = true /\ failbit stream' = true.
Proof.
  intros Hc Hfuel.
  destruct (generate_leaves_loop hash c (length rest) Hc rest
              (replicate (Z.to_nat c) x00) h [] 0 k fuel (le_n _) Hfuel)
    as (st & Hst & _).
  exists (gl_store st), (gl_result st), (gl_stream st).
  unfold generate_leaves_stream, generate_leaves.
  rewrite <- generate_leaves_loop_gcount with (k := k). rewrite Hst.
  split; [reflexivity|]. split; [reflexivity|].
  pose proof (while__exit _ _ _ _ _ Hst) as Hexit. cbn beta in Hexit.
  assert (Hinv : stream_inv st).
  { eapply (while__invariant stream_inv); [| |exact Hst].
    - intros s s' HI Hcond Hb.
      exact (generate_leaves_body_stream_inv c s s' Hc HI Hcond Hb).
    - left. split; reflexivity. }
  destruct Hinv as [[He _] | (He & Hf & Hr)].
  - unfold eof in Hexit. rewrite He in Hexit. discriminate Hexit.
  - auto.
Qed.



End MoreStream.

Lemma generate_leaves_exhausts_stream_witness :
  1 <= 4 <= STREAMSIZE_MAX
  /\ (length (list_byte_of_string "hello world") < 12)%nat
  /\ exists (h' : store) (leaves : Level) (stream' : istringstream),
       generate_leaves_stream Sha256.hash 12 4 []
         (good_stream (list_byte_of_string "hello world") 7)
       = Ok (h', leaves, stream')
       /\ generate_leaves Sha256.hash 12 4 []
            (istringstream_of (list_byte_of_string "hello world"))
          = Ok (h', leaves)
       /\ rdbuf stream' = [] /\ eofbit stream' = true /\ failbit stream' = true.
Proof.
  assert (Hc : 1 <= 4 <= STREAMSIZE_MAX) by (vm_compute; intuition discriminate).
  assert (Hfuel : (length (list_byte_of_string "hello world") < 12)%nat)
    by (vm_compute; repeat constructor).
  split; [exact Hc|]. split; [exact Hfuel|].
  exact (generate_leaves_exhausts_stream Sha256.hash 12 4 []
           (list_byte_of_string "hello world") 7 Hc Hfuel).
Defined.



(** ** The shape of the tree *)

Lemma leaves_of_stable (base : nat) (h : store) :
  wf_from base h ->
  forall (p : ptr), (base <= p)%nat ->
    forall f1 f2 : nat, (p < f1)%nat -> (p < f2)%nat ->
      leaves_of f1 h p = leaves_of f2 h p.
Proof.
  intros Hwf p. induction p as [p IH] using lt_wf_ind. intros Hp f1 f2 H1 H2.
  destruct f1 as [|f1]; [lia|]. destruct f2 as [|f2]; [lia|].
  cbn [leaves_of]. destruct (h !! p) as [n|] eqn:Hn; [|reflexivity].
  destruct (Hwf p n Hp Hn) as [Hleaf | (l & r & Hl & Hr & Hbl & Hbr)].
  - now rewrite Hleaf.
  - destruct (isLeaf n); [reflexivity|]. rewrite Hl, Hr. cbn [from_option].
    f_equal; apply IH; lia.
Qed.

Lemma leaves_of_mono (base : nat) (h new : store) :
  wf_from base h ->
  forall (p : ptr), (base <= p)%nat -> (p < length h)%nat ->
    forall f : nat, leaves_of f (h ++ new) p = leaves_of f h p.
Proof.
  intros Hwf p. induction p as [p IH] using lt_wf_ind. intros Hp Hlt f.
  destruct f as [|f]; [reflexivity|].
  cbn [leaves_of]. rewrite lookup_app_l by exact Hlt.
  destruct (h !! p) as [n|] eqn:Hn; [|reflexivity].
  destruct (Hwf p n Hp Hn) as [Hleaf | (l & r & Hl & Hr & Hbl & Hbr)].
  - now rewrite Hleaf.
  - destruct (isLeaf n); [reflexivity|]. rewrite Hl, Hr. cbn [from_option].
    f_equal; destruct f; try reflexivity; apply IH; lia.
Qed.

Lemma leaves_below_mono (base : nat) (h new : store) (p : ptr) :
  wf_from base h -> (base <= p)%nat -> (p < length h)%nat ->
  leaves_below (h ++ new) p = leaves_below h p.
Proof. intros. unfold leaves_below. now apply (leaves_of_mono base). Qed.

Lemma flat_map_seq_lookup {A} (g : nat -> list A) (gn : MerkleNode -> list A)
    (new : list MerkleNode) :
  forall start : nat,
    (forall j n, new !! j = Some n -> g (start + j)%nat = gn n) ->
    flat_map g (seq start (length new)) = flat_map gn new.
Proof.
  induction new as [|n new IH]; intros start H; [reflexivity|].
  cbn [length seq flat_map]. f_equal.
  - rewrite <- (H 0%nat n eq_refl). f_equal. lia.
  - apply IH. intros j m Hj. rewrite <- (H (S j) m Hj). f_equal. lia.
Qed.

Lemma flat_map_ext_Forall {A B} (f g : A -> list B) (l : list A) :
  Forall (fun x => f x = g x) l -> flat_map f l = flat_map g l.
Proof.
  induction 1 as [|x l Hx _ IH]; [reflexivity|].
  cbn [flat_map]. now rewrite Hx, IH.
Qed.

Section Shape.

Variable hash : list byte -> ChecksumBase.

(** The leaves below the parents of a pass and below the odd tail are the
    leaves below the level. *)
Lemma paired_leaves (g : ptr -> list ptr) (h : store) (prev : Level) :
  valid_level h prev ->
  flat_map (fun n => from_option g [] (left n) ++ from_option g [] (right n))
    (paired hash h prev)
    ++ flat_map g (odd_tail prev)
  = flat_map g prev.
Proof.
  induction prev as [|x|x y rest IH] using list_pair_ind; intros Hv.
  - reflexivity.
  - change (odd_tail [x]) with [x]. reflexivity.
  - apply Forall_cons in Hv as [Hx Hv]. apply Forall_cons in Hv as [Hy Hv].
    destruct (lookup_lt_is_Some_2 h x Hx) as [nl Hnl].
    destruct (lookup_lt_is_Some_2 h y Hy) as [nr Hnr].
    rewrite odd_tail_SS. cbn [paired]. rewrite Hnl, Hnr.
    cbn [flat_map left right from_option].
    rewrite <- !app_assoc. now rewrite IH.
Qed.

Lemma reduce_data_length (ds : list MerkleNodeData) :
  length (reduce_data hash ds) = halve_up (length ds).
Proof.
  induction ds as [|a|a b rest IH] using list_pair_ind; try reflexivity.
  cbn [reduce_data length]. rewrite IH. unfold halve_up.
  replace (S (S (length rest)) + 1)%nat with (1 * 2 + (length rest + 1))%nat by lia.
  now rewrite Nat.div_add_l by lia.
Qed.

Lemma reduce_to_root_fuel (m : nat) :
  forall (ds : list MerkleNodeData) (f1 f2 : nat),
    (length ds <= m)%nat -> (length ds <= S f1)%nat -> (length ds <= S f2)%nat ->
    reduce_to_root hash f1 ds = reduce_to_root hash f2 ds.
Proof.
  induction m as [|m IH]; intros ds f1 f2 Hm H1 H2.
  - destruct ds; [destruct f1, f2; reflexivity | simpl in Hm; lia].
  - destruct ds as [|a [|b rest]]; [destruct f1, f2; reflexivity.. |].
    cbn [length] in *.
    destruct f1 as [|f1]; [lia|]. destruct f2 as [|f2]; [lia|].
    cbn [reduce_to_root].
    pose proof (reduce_data_length (a :: b :: rest)) as Hl.
    pose proof (halve_up_bounds (length (a :: b :: rest)) ltac:(cbn [length]; lia)) as Hb.
    assert (Hlt : (halve_up (length (a :: b :: rest)) < length (a :: b :: rest))%nat).
    { unfold halve_up. cbn [length]. apply Nat.Div0.div_lt_upper_bound. lia. }
    cbn [length] in Hl, Hb, Hlt.
    apply IH; lia.
Qed.

Lemma reduce_to_root_step (ds : list MerkleNodeData) :
  reduce_to_root hash (length (reduce_data hash ds)) (reduce_data hash ds)
  = reduce_to_root hash (length ds) ds.
Proof.
  destruct ds as [|a [|b rest]]; try reflexivity.
  change (reduce_to_root hash (length (a :: b :: rest)) (a :: b :: rest))
    with (reduce_to_root hash (S (length rest)) (reduce_data hash (a :: b :: rest))).
  pose proof (reduce_data_length (a :: b :: rest)) as Hl.
  assert (Hlt : (halve_up (length (a :: b :: rest)) < length (a :: b :: rest))%nat).
  { unfold halve_up. cbn [length]. apply Nat.Div0.div_lt_upper_bound. lia. }
  cbn [length] in Hl, Hlt.
  apply (reduce_to_root_fuel (length (reduce_data hash (a :: b :: rest)))); lia.
Qed.

Lemma paired_not_leaf (h : store) (prev : Level) :
  Forall (fun n => isLeaf n = false) (paired hash h prev).
Proof.
  apply Forall_forall. intros n Hn. apply list_elem_of_lookup in Hn as [j Hj].
  destruct (paired_lookup hash h prev j n Hj) as (l & r & nl & nr & _ & _ & _ & _ & ->).
  reflexivity.
Qed.

Lemma node_range_mono (total : Z) (h h' : store) (n : MerkleNode) :
  node_range total h n -> node_range total (h ++ h') n.
Proof.
  intros (H1 & H2 & H3 & [Hleaf | (l & r & nl & nr & Hl & Hr & Hnl & Hnr & Hadj)]).
  - unfold node_range. tauto.
  - refine (conj H1 (conj H2 (conj H3 _))). right. exists l, r, nl, nr.
    split; [exact Hl|]. split; [exact Hr|].
    split; [now apply lookup_app_l_Some|]. split; [now apply lookup_app_l_Some|].
    exact Hadj.
Qed.

(** The ranges of the parents made by a pass. *)
Lemma paired_range (total : Z) (h : store) (prev : Level) :
  total <= SIZE_MAX ->
  forall off,
    0 <= off -> valid_level h prev ->
    contiguous off (level_data h prev) ->
    off + total_span (level_data h prev) <= total ->
    Forall (node_range total h) (paired hash h prev).
Proof.
  intros Ht.
  induction prev as [|x|x y rest IH] using list_pair_ind;
    intros off Hoff Hv Hc Hs; try constructor.
  - apply Forall_cons in Hv as [Hx Hv]. apply Forall_cons in Hv as [Hy Hv].
    destruct (lookup_lt_is_Some_2 h x Hx) as [nl Hnl].
    destruct (lookup_lt_is_Some_2 h y Hy) as [nr Hnr].
    rewrite (level_data_cons h x _ nl Hnl), (level_data_cons h y _ nr Hnr) in *.
    cbn [contiguous] in Hc. destruct Hc as (Ha & Hsa & Hb & Hsb & Hrest).
    pose proof (total_span_nonneg _ _ Hrest) as Hnn.
    cbn [total_span foldr] in Hs. fold (total_span (level_data h rest)) in Hs.
    cbn [paired]. rewrite Hnl, Hnr. constructor.
    + assert (Hw : size_t_add (chunk_size (node nl)) (chunk_size (node nr))
                   = chunk_size (node nl) + chunk_size (node nr)).
      { unfold size_t_add. apply size_t_wrap_small. lia. }
      unfold node_range. cbn [node join_data chunk_offset chunk_size left right].
      rewrite Hw. split; [lia|]. split; [lia|]. split; [lia|].
      right. exists x, y, nl, nr. repeat split; try assumption. lia.
    + apply (IH (off + chunk_size (node nl) + chunk_size (node nr)));
        try assumption; lia.
Qed.

Lemma halve_up_plus_half (k : nat) : (halve_up k + k / 2 = k)%nat.
Proof.
  unfold halve_up. apply Nat2Z.inj.
  rewrite Nat2Z.inj_add, !Nat2Z.inj_div, Nat2Z.inj_add. lia.
Qed.

(** A pass keeps the shape. *)
Lemma reduce_level_shape (Q : ChecksumBase -> Prop) (total : Z) (h0 : store)
    (ds : list MerkleNodeData) (h : store) (prev : Level) :
  total <= SIZE_MAX ->
  tree_inv hash Q total (length h0) h prev ->
  shape_inv hash total h0 ds h prev ->
  shape_inv hash total h0 ds
    (reduce_level hash h prev).1 (reduce_level hash h prev).2.
Proof.
  intros Ht (Hv & H1 & Hbase & Hb & Hc & Hs & _ & _)
    ((inner & Hh & Hin & Hcount) & Hwf & Hlv & Hrange & Hroot & Hlast).
  destruct (reduce_level_basics hash h prev Hv H1) as (Hv' & Hl' & Hb').
  pose proof (paired_length hash h prev Hv) as Hpl.
  assert (Hkid : forall j n, paired hash h prev !! j = Some n ->
            exists l r : ptr,
              n = {| node := node n; parent := None; left := Some l; right := Some r |}
              /\ (length h0 <= l < length h)%nat /\ (length h0 <= r < length h)%nat).
  { intros j n Hj.
    destruct (paired_lookup hash h prev j n Hj)
      as (l & r & nl & nr & Hl & Hr & _ & _ & ->).
    exists l, r. split; [reflexivity|].
    pose proof (Forall_lookup_1 _ _ _ _ Hv Hl). pose proof (Forall_lookup_1 _ _ _ _ Hv Hr).
    pose proof (Forall_lookup_1 _ _ _ _ Hb Hl). pose proof (Forall_lookup_1 _ _ _ _ Hb Hr).
    cbn beta in *. lia. }
  assert (Hwf' : wf_from (length h0) (h ++ paired hash h prev)).
  { intros p n Hp Hn. apply lookup_app_Some in Hn as [Hn | [Hge Hn]].
    - exact (Hwf p n Hp Hn).
    - destruct (Hkid _ n Hn) as (l & r & -> & Hlr & Hrr).
      right. exists l, r. cbn [left right]. repeat split; lia. }
  unfold shape_inv, reduce_level. cbn [fst snd].
  refine (conj _ (conj Hwf' (conj _ (conj _ (conj _ _))))).
  - exists (inner ++ paired hash h prev). split; [|split].
    + rewrite Hh at 1. now rewrite <- !app_assoc.
    + apply Forall_app. split; [exact Hin | apply paired_not_leaf].
    + unfold reduce_level in Hl'. cbn [snd] in Hl'.
      rewrite length_app, Hl', Hpl.
      pose proof (halve_up_plus_half (length prev)). lia.
  - rewrite flat_map_app.
    rewrite (flat_map_seq_lookup (leaves_below (h ++ paired hash h prev))
               (fun n => from_option (leaves_below h) [] (left n)
                         ++ from_option (leaves_below h) [] (right n))).
    + rewrite (flat_map_ext_Forall (leaves_below (h ++ paired hash h prev))
                 (leaves_below h) (odd_tail prev)).
      * now rewrite paired_leaves.
      * pose proof (odd_tail_Forall _ _ Hv) as Hov.
        pose proof (odd_tail_Forall _ _ Hb) as Hob.
        apply Forall_forall. intros x Hx.
        rewrite Forall_forall in Hov, Hob.
        apply (leaves_below_mono (length h0)); auto.
    + intros j n Hj. destruct (Hkid j n Hj) as (l & r & Hn & Hlr & Hrr).
      unfold leaves_below at 1. cbn [leaves_of].
      rewrite lookup_app_r by lia.
      replace (length h + j - length h)%nat with j by lia.
      rewrite Hj, Hn. cbn [isLeaf left right bool_decide from_option].
      assert (Hnl : isLeaf {| node := node n; parent := None; left := Some l;
                               right := Some r |} = false) by reflexivity.
      rewrite Hnl. cbn [left right from_option].
      rewrite !(leaves_of_mono (length h0)) by (assumption || lia).
      unfold leaves_below.
      f_equal; apply (leaves_of_stable (length h0) h Hwf); lia.
  - intros p n Hp Hn. apply lookup_app_Some in Hn as [Hn | [Hge Hn]].
    + apply node_range_mono. exact (Hrange p n Hp Hn).
    + apply node_range_mono.
      pose proof (paired_range total h prev Ht 0 ltac:(lia) Hv Hc ltac:(lia)) as Hall.
      rewrite Forall_forall in Hall. apply Hall.
      apply list_elem_of_lookup. eauto.
  - pose proof (reduce_level_data hash h prev Hv) as Hd.
    unfold reduce_level in Hd. cbn [fst snd] in Hd.
    rewrite Hd, reduce_to_root_step. exact Hroot.
  - intros Hone.
    unfold reduce_level in Hl'. cbn [snd] in Hl'. rewrite Hl' in Hone.
    destruct prev as [|x [|y [|z rest]]].
    + simpl in H1. lia.
    + cbn [paired length seq app]. rewrite app_nil_r.
      change (odd_tail [x]) with [x]. now apply Hlast.
    + apply Forall_cons in Hv as [Hx Hv]. apply Forall_cons in Hv as [Hy Hv].
      destruct (lookup_lt_is_Some_2 h x Hx) as [nl Hnl].
      destruct (lookup_lt_is_Some_2 h y Hy) as [nr Hnr].
      cbn [paired]. rewrite Hnl, Hnr. cbn [length seq app].
      change (odd_tail [x; y]) with (@nil nat).
      rewrite length_app. cbn [length app]. f_equal. lia.
    + exfalso. unfold halve_up in Hone. cbn [length] in Hone.
      apply (f_equal Z.of_nat) in Hone. rewrite Nat2Z.inj_div in Hone. lia.
Qed.

End Shape.

(** ** The tree that the constructor builds *)

Lemma contiguous_range (ds : list MerkleNodeData) :
  forall off,
    0 <= off -> contiguous off ds ->
    Forall (fun d => 0 <= chunk_offset d /\ 0 <= chunk_size d
                     /\ chunk_offset d + chunk_size d <= off + total_span ds) ds.
Proof.
  induction ds as [|d ds IH]; intros off Hoff Hc; [constructor|].
  cbn [contiguous] in Hc. destruct Hc as (Ho & Hs & Hrest).
  pose proof (total_span_nonneg _ _ Hrest) as Hnn.
  cbn [total_span foldr]. fold (total_span ds).
  constructor; [lia|].
  specialize (IH (off + chunk_size d) ltac:(lia) Hrest).
  eapply Forall_impl; [exact IH|]. cbn beta. intros x Hx. lia.
Qed.

Lemma flat_map_singletons {A} (g : A -> list A) (l : list A) :
  Forall (fun x => g x = [x]) l -> flat_map g l = l.
Proof.
  induction 1 as [|x l Hx _ IH]; [reflexivity|].
  cbn [flat_map]. now rewrite Hx, IH.
Qed.

Section Tree.

Variable hash : list byte -> ChecksumBase.

(** The shape of the store and of the level when the leaves are made. *)
Lemma leaves_shape (h0 : store) (s : list byte) (c : Z) :
  s <> [] -> 1 <= c -> Z.of_nat (length s) <= SIZE_MAX ->
  let ds := leaf_data hash (S (length s)) c 0 s in
  shape_inv hash (Z.of_nat (length s)) h0 ds
    (h0 ++ map fresh_node ds) (seq (length h0) (length ds)).
Proof.
  intros Hne Hc Hmax ds.
  destruct (leaf_data_contiguous hash c (S (length s)) Hc s 0) as (Hcont & Htot);
    try lia.
  fold ds in Hcont, Htot.
  assert (Hlk : forall p n, (length h0 <= p)%nat ->
            (h0 ++ map fresh_node ds) !! p = Some n ->
            exists d, n = fresh_node d /\ d ∈ ds).
  { intros p n Hp Hn. apply lookup_app_Some in Hn as [Hn | [_ Hn]].
    - apply lookup_lt_Some in Hn. lia.
    - apply list_lookup_fmap_Some in Hn as (d & -> & Hd).
      exists d. split; [reflexivity|]. apply list_elem_of_lookup. eauto. }
  unfold shape_inv. rewrite level_data_fresh.
  refine (conj _ (conj _ (conj _ (conj _ (conj eq_refl _))))).
  - exists []. rewrite app_nil_r, length_seq. split; [reflexivity|].
    split; [constructor | reflexivity].
  - intros p n Hp Hn. destruct (Hlk p n Hp Hn) as (d & -> & _). now left.
  - apply flat_map_singletons. apply Forall_forall. intros p Hp.
    apply elem_of_seq in Hp.
    assert (Hlt : (p < length (h0 ++ map fresh_node ds))%nat)
      by (rewrite length_app, length_map; lia).
    destruct (lookup_lt_is_Some_2 _ p Hlt) as [n Hn].
    destruct (Hlk p n ltac:(lia) Hn) as (d & -> & _).
    unfold leaves_below. cbn [leaves_of]. now rewrite Hn.
  - intros p n Hp Hn. destruct (Hlk p n Hp Hn) as (d & -> & Hd).
    pose proof (contiguous_range ds 0 ltac:(lia) Hcont) as Hall.
    rewrite Forall_forall in Hall. specialize (Hall d Hd).
    unfold node_range. cbn [fresh_node node]. repeat split; try lia. now left.
  - rewrite length_seq. intros Hone. rewrite Hone, length_app, length_map, Hone.
    cbn [seq]. f_equal. lia.
Qed.

(** The constructor on a non-empty input: the two invariants hold of the
    store that it returns and of the root. *)
Lemma MerkleTree_ctor_shape (fuel : nat) (h0 : store) (s : list byte) (c : Z) :
  s <> [] -> 1 <= c -> in_range s c -> (length s < fuel)%nat ->
  let ds := leaf_data hash (S (length s)) c 0 s in
  exists (h : store) (r : ptr),
    MerkleTree_ctor hash fuel h0 s c
    = Ok (h, {| m_ChunkSize := c; root := Some r |})
    /\ tree_inv hash (fun _ => True) (Z.of_nat (length s)) (length h0) h [r]
    /\ shape_inv hash (Z.of_nat (length s)) h0 ds h [r].
Proof.
  intros Hne Hc (Hcmax & Hsmax & Hint) Hfuel ds.
  pose proof (leaves_inv hash (fun _ => True) (fun _ => I) h0 s c Hne Hc Hsmax) as Hinv.
  pose proof (leaves_shape h0 s c Hne Hc Hsmax) as Hshape.
  cbv zeta in Hinv, Hshape.
  destruct (leaf_data_count hash c (S (length s)) Hc s 0 Hne) as (Hpos & Hcount); [lia|].
  fold ds in Hinv, Hshape, Hpos, Hcount.
  assert (Hv : valid_level (h0 ++ map fresh_node ds) (seq (length h0) (length ds)))
    by apply Hinv.
  destruct (make_tree_spec hash
              (fun h lv => tree_inv hash (fun _ => True) (Z.of_nat (length s))
                             (length h0) h lv
                           /\ shape_inv hash (Z.of_nat (length s)) h0 ds h lv)
              (fun h prev _ _ HP =>
                 conj (reduce_level_inv hash (fun _ => True) (fun _ => I) (length h0)
                         (Z.of_nat (length s)) h prev Hsmax (proj1 HP))
                      (reduce_level_shape hash (fun _ => True) (Z.of_nat (length s))
                         h0 ds h prev Hsmax (proj1 HP) (proj2 HP)))
              fuel (h0 ++ map fresh_node ds) (seq (length h0) (length ds)))
    as (st & r & tr' & _ & Hmk & _ & _ & _ & _ & _ & _ & _ & (HP1 & HP2) & _);
    try assumption; rewrite ?length_seq; try lia.
  { unfold INT_MAX in *. nia. }
  { nia. }
  { split; assumption. }
  exists (ts_store st), r. split; [|split; assumption].
  unfold MerkleTree_ctor.
  rewrite generate_leaves_spec by (unfold STREAMSIZE_MAX in *; lia).
  fold ds. rewrite bind_Ok, Hmk, bind_Ok. reflexivity.
Qed.

(** What the two invariants say of the root. *)
Lemma shape_root (total : Z) (h0 : store) (ds : list MerkleNodeData)
    (h : store) (r : ptr) :
  tree_inv hash (fun _ => True) total (length h0) h [r] ->
  shape_inv hash total h0 ds h [r] ->
  exists (n : MerkleNode) (inner : list MerkleNode),
    h !! r = Some n
    /\ h = h0 ++ map fresh_node ds ++ inner
    /\ (length inner + 1 = length ds)%nat
    /\ Forall (fun m => isLeaf m = false) inner
    /\ r = (length h - 1)%nat
    /\ (length h0 <= r)%nat
    /\ reduce_to_root hash (length ds) ds = Some (node n)
    /\ parent n = None
    /\ isLeaf n = (length ds =? 1)%nat.
Proof.
  intros Hinv ((inner & Hh & Hin & Hcount) & Hwf & Hlv & Hrange & Hroot & Hlast).
  destruct (tree_inv_root hash _ _ _ h r Hinv) as (n & Hn & Hbr & _ & _ & _ & Hpar & _).
  specialize (Hlast eq_refl). injection Hlast as Hr.
  cbn [length] in Hcount.
  rewrite (level_data_cons h r [] n Hn) in Hroot.
  exists n, inner. split; [exact Hn|]. split; [exact Hh|]. split; [exact Hcount|].
  split; [exact Hin|]. split; [exact Hr|]. split; [exact Hbr|].
  split; [now rewrite <- Hroot|]. split; [exact Hpar|].
  assert (Hlen : length h = (length h0 + length ds + length inner)%nat).
  { rewrite Hh at 1. rewrite !length_app, length_map. lia. }
  rewrite Hh in Hn.
  rewrite lookup_app_r in Hn by lia.
  destruct inner as [|m inner].
  - cbn [length] in *. rewrite app_nil_r in Hn.
    apply list_lookup_fmap_Some in Hn as (d & -> & _).
    assert (E : length ds = 1%nat) by lia. now rewrite E.
  - rewrite lookup_app_r in Hn by (rewrite length_map; cbn [length] in *; lia).
    rewrite Forall_forall in Hin.
    rewrite (Hin n) by (apply list_elem_of_lookup; eauto).
    symmetry. apply Nat.eqb_neq. cbn [length] in *. lia.
Qed.

End Tree.

(** X11. The constructor puts its nodes after those of the store and
    changes none of them: first the leaves that [generate_leaves] makes,
    which stay as they are, then the internal nodes, one fewer than the
    leaves, none of which is a leaf; the root is the node allocated
    last. *)
Theorem MerkleTree_ctor_allocates (hash : list byte -> ChecksumBase)
    (fuel : nat) (h0 : store) (s : list byte) (c : Z) :
  s <> [] -> 1 <= c -> in_range s c -> (length s < fuel)%nat ->
  exists (ds : list MerkleNodeData) (inner : list MerkleNode) (r : ptr),
    generate_leaves hash fuel c h0 (istringstream_of s)
    = Ok (h0 ++ map fresh_node ds, seq (length h0) (length ds))
    /\ MerkleTree_ctor hash fuel h0 s c
       = Ok (h0 ++ map fresh_node ds ++ inner,
             {| m_ChunkSize := c; root := Some r |})
    /\ (length inner + 1 = length ds)%nat
    /\ Forall (fun n => isLeaf n = false) inner
    /\ r = (length h0 + length ds + length inner - 1)%nat.
Proof.
  intros Hne Hc Hr Hfuel.
  destruct (MerkleTree_ctor_shape hash fuel h0 s c Hne Hc Hr Hfuel)
    as (h & r & Hrun & Hinv & Hshape).
  destruct (shape_root hash _ h0 _ h r Hinv Hshape)
    as (n & inner & Hn & Hh & Hcount & Hin & Hlast & _).
  exists (leaf_data hash (S (length s)) c 0 s), inner, r.
  destruct Hr as (Hcmax & Hsmax & _).
  split; [apply generate_leaves_spec; lia|].
  split; [now rewrite <- Hh|]. split; [exact Hcount|]. split; [exact Hin|].
  rewrite Hlast, Hh, !length_app, length_map. lia.
Qed.

Lemma MerkleTree_ctor_allocates_witness :
  hello_world <> [] /\ 1 <= 4 /\ in_range hello_world 4
  /\ (length hello_world < 12)%nat
  /\
    exists (ds : list MerkleNodeData) (inner : list MerkleNode) (r : ptr),
      generate_leaves Sha256.hash 12%nat 4 three_leaves (istringstream_of hello_world)
      = Ok (three_leaves ++ map fresh_node ds, seq (length three_leaves) (length ds))
      /\ MerkleTree_ctor Sha256.hash 12%nat three_leaves hello_world 4
         = Ok (three_leaves ++ map fresh_node ds ++ inner,
               {| m_ChunkSize := 4; root := Some r |})
      /\ (length inner + 1 = length ds)%nat
      /\ Forall (fun n => isLeaf n = false) inner
      /\ r = (length three_leaves + length ds + length inner - 1)%nat.
Proof.
  assert (Hne : hello_world <> []) by discriminate.
  assert (Hc : 1 <= 4) by (vm_compute; discriminate).
  assert (Hr : in_range hello_world 4).
  { unfold in_range, SIZE_MAX, INT_MAX, STREAMSIZE_MAX. vm_compute.
    intuition discriminate. }
  assert (Hfuel : (length hello_world < 12)%nat) by (vm_compute; repeat constructor).
  split; [exact Hne|]. split; [exact Hc|]. split; [exact Hr|]. split; [exact Hfuel|].
  exact (MerkleTree_ctor_allocates Sha256.hash 12 three_leaves hello_world 4 Hne Hc Hr Hfuel).
Defined.

(** X12. The leaves below the root, read from left to right, are the
    leaves that [generate_leaves] made, in the order of the stream; the
    bytes that they cover, put together, are the input. *)
Theorem root_leaves_in_stream_order (hash : list byte -> ChecksumBase)
    (fuel : nat) (h0 : store) (s : list byte) (c : Z) :
  s <> [] -> 1 <= c -> in_range s c -> (length s < fuel)%nat ->
  exists (ds : list MerkleNodeData) (h : store) (r : ptr),
    generate_leaves hash fuel c h0 (istringstream_of s)
    = Ok (h0 ++ map fresh_node ds, seq (length h0) (length ds))
    /\ MerkleTree_ctor hash fuel h0 s c
       = Ok (h, {| m_ChunkSize := c; root := Some r |})
    /\ forall f : nat,
         (r < f)%nat ->
         leaves_of f h r = seq (length h0) (length ds)
         /\ level_data h (leaves_of f h r) = ds
         /\ concat (map (covered_bytes s) (level_data h (leaves_of f h r))) = s.
Proof.
  intros Hne Hc Hr Hfuel.
  destruct (MerkleTree_ctor_shape hash fuel h0 s c Hne Hc Hr Hfuel)
    as (h & r & Hrun & Hinv & Hshape).
  destruct (shape_root hash _ h0 _ h r Hinv Hshape)
    as (n & inner & Hn & Hh & _ & _ & _ & Hbr & _).
  destruct Hshape as (_ & Hwf & Hlv & _).
  destruct Hr as (Hcmax & Hsmax & _).
  set (ds := leaf_data hash (S (length s)) c 0 s) in *.
  exists ds, h, r.
  split; [apply generate_leaves_spec; lia|]. split; [exact Hrun|].
  intros f Hf.
  assert (Hl : leaves_of f h r = seq (length h0) (length ds)).
  { rewrite <- Hlv. cbn [flat_map]. rewrite app_nil_r. unfold leaves_below.
    apply (leaves_of_stable (length h0) h Hwf); lia. }
  assert (Hd : level_data h (seq (length h0) (length ds)) = ds).
  { rewrite Hh, app_assoc, level_data_mono.
    - apply level_data_fresh.
    - rewrite <- (length_map fresh_node ds). apply valid_level_seq. }
  rewrite Hl, Hd. split; [reflexivity|]. split; [reflexivity|].
  apply (leaf_data_covers hash c (S (length s)) Hc [] s); cbn [length]; lia.
Qed.

Lemma root_leaves_in_stream_order_witness :
  hello_world <> [] /\ 1 <= 4 /\ in_range hello_world 4
  /\ (length hello_world < 12)%nat
  /\
    exists (ds : list MerkleNodeData) (h : store) (r : ptr),
      generate_leaves Sha256.hash 12%nat 4 three_leaves (istringstream_of hello_world)
      = Ok (three_leaves ++ map fresh_node ds, seq (length three_leaves) (length ds))
      /\ MerkleTree_ctor Sha256.hash 12%nat three_leaves hello_world 4
         = Ok (h, {| m_ChunkSize := 4; root := Some r |})
      /\ forall f : nat,
           (r < f)%nat ->
           leaves_of f h r = seq (length three_leaves) (length ds)
           /\ level_data h (leaves_of f h r) = ds
           /\ concat (map (covered_bytes hello_world) (level_data h (leaves_of f h r))) = hello_world.
Proof.
  assert (Hne : hello_world <> []) by discriminate.
  assert (Hc : 1 <= 4) by (vm_compute; discriminate).
  assert (Hr : in_range hello_world 4).
  { unfold in_range, SIZE_MAX, INT_MAX, STREAMSIZE_MAX. vm_compute.
    intuition discriminate. }
  assert (Hfuel : (length hello_world < 12)%nat) by (vm_compute; repeat constructor).
  split; [exact Hne|]. split; [exact Hc|]. split; [exact Hr|]. split; [exact Hfuel|].
  exact (root_leaves_in_stream_order Sha256.hash 12 three_leaves hello_world 4 Hne Hc Hr Hfuel).
Defined.

(** X13. The range of every node that the constructor allocates lies in
    the input: its offset and its span are not negative and their sum is at
    most the length of the input; and the range of the right child of an
    internal node begins where the range of its left child ends. *)
Theorem node_ranges_adjacent (hash : list byte -> ChecksumBase)
    (fuel : nat) (h0 : store) (s : list byte) (c : Z) :
  s <> [] -> 1 <= c -> in_range s c -> (length s < fuel)%nat ->
  exists (h : store) (r : ptr),
    MerkleTree_ctor hash fuel h0 s c
    = Ok (h, {| m_ChunkSize := c; root := Some r |})
    /\ forall (p : ptr) (n : MerkleNode),
         (length h0 <= p)%nat -> h !! p = Some n ->
         0 <= chunk_offset (node n) /\ 0 <= chunk_size (node n)
         /\ chunk_offset (node n) + chunk_size (node n) <= Z.of_nat (length s)
         /\ (isLeaf n = false ->
             exists (l r : ptr) (nl nr : MerkleNode),
               left n = Some l /\ right n = Some r
               /\ h !! l = Some nl /\ h !! r = Some nr
               /\ chunk_offset (node nr)
                  = chunk_offset (node nl) + chunk_size (node nl)).
Proof.
  intros Hne Hc Hr Hfuel.
  destruct (MerkleTree_ctor_shape hash fuel h0 s c Hne Hc Hr Hfuel)
    as (h & r & Hrun & Hinv & Hshape).
  exists h, r. split; [exact Hrun|].
  intros p n Hp Hn.
  destruct Hshape as (_ & _ & _ & Hrange & _).
  destruct (Hrange p n Hp Hn) as (H1 & H2 & H3 & H4).
  split; [exact H1|]. split; [exact H2|]. split; [exact H3|].
  intros Hint. destruct H4 as [Hleaf | H4]; [congruence | exact H4].
Qed.

Lemma node_ranges_adjacent_witness :
  hello_world <> [] /\ 1 <= 4 /\ in_range hello_world 4
  /\ (length hello_world < 12)%nat
  /\
    exists (h : store) (r : ptr),
      MerkleTree_ctor Sha256.hash 12%nat three_leaves hello_world 4
      = Ok (h, {| m_ChunkSize := 4; root := Some r |})
      /\ forall (p : ptr) (n : MerkleNode),
           (length three_leaves <= p)%nat -> h !! p = Some n ->
           0 <= chunk_offset (node n) /\ 0 <= chunk_size (node n)
           /\ chunk_offset (node n) + chunk_size (node n) <= Z.of_nat (length hello_world)
           /\ (isLeaf n = false ->
               exists (l r : ptr) (nl nr : MerkleNode),
                 left n = Some l /\ right n = Some r
                 /\ h !! l = Some nl /\ h !! r = Some nr
                 /\ chunk_offset (node nr)
                    = chunk_offset (node nl) + chunk_size (node nl)).
Proof.
  assert (Hne : hello_world <> []) by discriminate.
  assert (Hc : 1 <= 4) by (vm_compute; discriminate).
  assert (Hr : in_range hello_world 4).
  { unfold in_range, SIZE_MAX, INT_MAX, STREAMSIZE_MAX. vm_compute.
    intuition discriminate. }
  assert (Hfuel : (length hello_world < 12)%nat) by (vm_compute; repeat constructor).
  split; [exact Hne|]. split; [exact Hc|]. split; [exact Hr|]. split; [exact Hfuel|].
  exact (node_ranges_adjacent Sha256.hash 12 three_leaves hello_world 4 Hne Hc Hr Hfuel).
Defined.

(** X14. The data of the root is the root of the data of the leaves under
    [reduce_data]: pass after pass, adjacent nodes are joined and an odd
    last one is kept, until one node is left. The addresses and the store
    play no part in it. *)
Theorem root_reduces_the_leaves (hash : list byte -> ChecksumBase)
    (fuel : nat) (h0 : store) (s : list byte) (c : Z) :
  s <> [] -> 1 <= c -> in_range s c -> (length s < fuel)%nat ->
  exists (ds : list MerkleNodeData) (h : store) (r : ptr) (n : MerkleNode),
    generate_leaves hash fuel c h0 (istringstream_of s)
    = Ok (h0 ++ map fresh_node ds, seq (length h0) (length ds))
    /\ MerkleTree_ctor hash fuel h0 s c
       = Ok (h, {| m_ChunkSize := c; root := Some r |})
    /\ h !! r = Some n
    /\ reduce_to_root hash (length ds) ds = Some (node n)
    /\ isLeaf n = (length ds =? 1)%nat.
Proof.
  intros Hne Hc Hr Hfuel.
  destruct (MerkleTree_ctor_shape hash fuel h0 s c Hne Hc Hr Hfuel)
    as (h & r & Hrun & Hinv & Hshape).
  destruct (shape_root hash _ h0 _ h r Hinv Hshape)
    as (n & inner & Hn & _ & _ & _ & _ & _ & Hroot & _ & Hleaf).
  destruct Hr as (Hcmax & Hsmax & _).
  exists (leaf_data hash (S (length s)) c 0 s), h, r, n.
  split; [apply generate_leaves_spec; lia|]. auto.
Qed.

Lemma root_reduces_the_leaves_witness :
  hello_world <> [] /\ 1 <= 4 /\ in_range hello_world 4
  /\ (length hello_world < 12)%nat
  /\
    exists (ds : list MerkleNodeData) (h : store) (r : ptr) (n : MerkleNode),
      generate_leaves Sha256.hash 12%nat 4 three_leaves (istringstream_of hello_world)
      = Ok (three_leaves ++ map fresh_node ds, seq (length three_leaves) (length ds))
      /\ MerkleTree_ctor Sha256.hash 12%nat three_leaves hello_world 4
         = Ok (h, {| m_ChunkSize := 4; root := Some r |})
      /\ h !! r = Some n
      /\ reduce_to_root Sha256.hash (length ds) ds = Some (node n)
      /\ isLeaf n = (length ds =? 1)%nat.
Proof.
  assert (Hne : hello_world <> []) by discriminate.
  assert (Hc : 1 <= 4) by (vm_compute; discriminate).
  assert (Hr : in_range hello_world 4).
  { unfold in_range, SIZE_MAX, INT_MAX, STREAMSIZE_MAX. vm_compute.
    intuition discriminate. }
  assert (Hfuel : (length hello_world < 12)%nat) by (vm_compute; repeat constructor).
  split; [exact Hne|]. split; [exact Hc|]. split; [exact Hr|]. split; [exact Hfuel|].
  exact (root_reduces_the_leaves Sha256.hash 12 three_leaves hello_world 4 Hne Hc Hr Hfuel).
Defined.

(** X15. Two trees built from the same contents with the same chunk size
    are equal, whatever has been allocated before the first and between
    the two; and the second construction changes nothing of the first
    tree. *)
Theorem same_contents_equal_trees (hash : list byte -> ChecksumBase)
    (fuel : nat) (h0 ext : store) (s : list byte) (c : Z) :
  s <> [] -> 1 <= c -> in_range s c -> (length s < fuel)%nat ->
  exists (h1 h2 : store) (t1 t2 : MerkleTree),
    MerkleTree_ctor hash fuel h0 s c = Ok (h1, t1)
    /\ MerkleTree_ctor hash fuel (h1 ++ ext) s c = Ok (h2, t2)
    /\ take (length h1) h2 = h1
    /\ MerkleTree_eq h2 t1 t2 = Ok true
    /\ MerkleTree_eq h2 t2 t1 = Ok true.
Proof.
  intros Hne Hc Hr Hfuel.
  destruct (MerkleTree_ctor_shape hash fuel h0 s c Hne Hc Hr Hfuel)
    as (h1 & r1 & Hrun1 & Hinv1 & Hshape1).
  destruct (MerkleTree_ctor_shape hash fuel (h1 ++ ext) s c Hne Hc Hr Hfuel)
    as (h2 & r2 & Hrun2 & Hinv2 & Hshape2).
  destruct (shape_root hash _ h0 _ h1 r1 Hinv1 Hshape1)
    as (n1 & inner1 & Hn1 & _ & _ & _ & _ & _ & Hroot1 & Hpar1 & Hleaf1).
  destruct (shape_root hash _ (h1 ++ ext) _ h2 r2 Hinv2 Hshape2)
    as (n2 & inner2 & Hn2 & Hh2 & _ & _ & _ & _ & Hroot2 & Hpar2 & Hleaf2).
  exists h1, h2, {| m_ChunkSize := c; root := Some r1 |},
    {| m_ChunkSize := c; root := Some r2 |}.
  split; [exact Hrun1|]. split; [exact Hrun2|].
  assert (Hn1' : h2 !! r1 = Some n1).
  { rewrite Hh2, <- !app_assoc. now apply lookup_app_l_Some. }
  assert (Heq : MerkleNode_eqb n1 n2 = true).
  { apply MerkleNode_eqb_spec. unfold isRoot. rewrite Hpar1, Hpar2, Hleaf1, Hleaf2.
    split; [reflexivity|]. split; [reflexivity|]. congruence. }
  split.
  { rewrite Hh2, <- !app_assoc. now rewrite take_app_length. }
  unfold MerkleTree_eq. cbn [root]. split.
  - rewrite (deref_Some _ _ _ Hn1'), bind_Ok, (deref_Some _ _ _ Hn2), bind_Ok.
    now rewrite Heq.
  - rewrite (deref_Some _ _ _ Hn2), bind_Ok, (deref_Some _ _ _ Hn1'), bind_Ok.
    now rewrite MerkleNode_eqb_sym, Heq.
Qed.

Lemma same_contents_equal_trees_witness :
  hello_world <> [] /\ 1 <= 4 /\ in_range hello_world 4
  /\ (length hello_world < 12)%nat
  /\
    exists (h1 h2 : store) (t1 t2 : MerkleTree),
      MerkleTree_ctor Sha256.hash 12%nat three_leaves hello_world 4 = Ok (h1, t1)
      /\ MerkleTree_ctor Sha256.hash 12%nat (h1 ++ twin_nodes) hello_world 4 = Ok (h2, t2)
      /\ take (length h1) h2 = h1
      /\ MerkleTree_eq h2 t1 t2 = Ok true
      /\ MerkleTree_eq h2 t2 t1 = Ok true.
Proof.
  assert (Hne : hello_world <> []) by discriminate.
  assert (Hc : 1 <= 4) by (vm_compute; discriminate).
  assert (Hr : in_range hello_world 4).
  { unfold in_range, SIZE_MAX, INT_MAX, STREAMSIZE_MAX. vm_compute.
    intuition discriminate. }
  assert (Hfuel : (length hello_world < 12)%nat) by (vm_compute; repeat constructor).
  split; [exact Hne|]. split; [exact Hc|]. split; [exact Hr|]. split; [exact Hfuel|].
  exact (same_contents_equal_trees Sha256.hash 12 three_leaves twin_nodes hello_world 4 Hne Hc Hr Hfuel).
Defined.

(** ** Equal and unequal trees *)

(** The constructor when one chunk holds the whole input. *)
Lemma MerkleTree_ctor_single (hash : list byte -> ChecksumBase) (fuel : nat)
    (h0 : store) (s : list byte) (c : Z) :
  s <> [] -> Z.of_nat (length s) <= c -> c <= STREAMSIZE_MAX ->
  (length s < fuel)%nat ->
  MerkleTree_ctor hash fuel h0 s c
  = Ok (h0 ++ [fresh_node {| checksum := hash s; chunk_offset := 0;
                             chunk_size := Z.of_nat (length s) |}],
        {| m_ChunkSize := c; root := Some (length h0) |}).
Proof.
  intros Hne Hlen Hc Hfuel.
  assert (H1 : 1 <= c) by (destruct s; [congruence | simpl in Hlen; lia]).
  unfold MerkleTree_ctor. rewrite generate_leaves_spec by lia.
  rewrite leaf_data_single by assumption. rewrite bind_Ok.
  cbn [map length seq].
  destruct (make_tree_single hash fuel
              (h0 ++ [fresh_node {| checksum := hash s; chunk_offset := 0;
                                    chunk_size := Z.of_nat (length s) |}])
              (length h0)) as (_ & Hmk).
  rewrite Hmk. reflexivity.
Qed.

(** X16. No node that the constructor allocates is ever given a parent:
    [isRoot] is true of every node of the tree, of the leaves as of the
    root. *)
Theorem isRoot_true_of_every_node (hash : list byte -> ChecksumBase)
    (fuel : nat) (h0 : store) (s : list byte) (c : Z) :
  s <> [] -> 1 <= c -> in_range s c -> (length s < fuel)%nat ->
  exists (h : store) (r : ptr),
    MerkleTree_ctor hash fuel h0 s c
    = Ok (h, {| m_ChunkSize := c; root := Some r |})
    /\ forall (p : ptr) (n : MerkleNode),
         (length h0 <= p)%nat -> h !! p = Some n ->
         parent n = None /\ isRoot n = true.
Proof.
  intros Hne Hc Hr Hfuel.
  destruct (MerkleTree_ctor_spec hash (fun _ => True) (fun _ => I)
              fuel h0 s c Hne Hc Hr Hfuel) as (h & r & Hrun & Hinv & _).
  exists h, r. split; [exact Hrun|].
  intros p n Hp Hn.
  destruct Hinv as (_ & _ & _ & _ & _ & _ & _ & Hok).
  destruct (Hok p n Hp Hn) as (Hpar & _).
  split; [exact Hpar|]. unfold isRoot. now rewrite Hpar.
Qed.

Lemma isRoot_true_of_every_node_witness :
  hello_world <> [] /\ 1 <= 4 /\ in_range hello_world 4
  /\ (length hello_world < 12)%nat
  /\ exists (h : store) (r : ptr),
       MerkleTree_ctor Sha256.hash 12 three_leaves hello_world 4
       = Ok (h, {| m_ChunkSize := 4; root := Some r |})
       /\ forall (p : ptr) (n : MerkleNode),
            (length three_leaves <= p)%nat -> h !! p = Some n ->
            parent n = None /\ isRoot n = true.
Proof.
  assert (Hne : hello_world <> []) by discriminate.
  assert (Hc : 1 <= 4) by (vm_compute; discriminate).
  assert (Hr : in_range hello_world 4).
  { unfold in_range, SIZE_MAX, INT_MAX, STREAMSIZE_MAX. vm_compute.
    intuition discriminate. }
  assert (Hfuel : (length hello_world < 12)%nat) by (vm_compute; repeat constructor).
  split; [exact Hne|]. split; [exact Hc|]. split; [exact Hr|]. split; [exact Hfuel|].
  exact (isRoot_true_of_every_node Sha256.hash 12 three_leaves hello_world 4
           Hne Hc Hr Hfuel).
Defined.

(** X17. Equality does not look at the chunk size: the trees of the same
    contents built with two chunk sizes that both hold the whole contents
    are equal, different as the chunk sizes may be. *)
Theorem chunk_size_is_not_compared (hash : list byte -> ChecksumBase)
    (fuel : nat) (h0 : store) (s : list byte) (c1 c2 : Z) :
  s <> [] ->
  Z.of_nat (length s) <= c1 -> c1 <= STREAMSIZE_MAX ->
  Z.of_nat (length s) <= c2 -> c2 <= STREAMSIZE_MAX ->
  (length s < fuel)%nat ->
  exists (h1 h2 : store) (t1 t2 : MerkleTree),
    MerkleTree_ctor hash fuel h0 s c1 = Ok (h1, t1)
    /\ MerkleTree_ctor hash fuel h1 s c2 = Ok (h2, t2)
    /\ m_ChunkSize t1 = c1 /\ m_ChunkSize t2 = c2
    /\ MerkleTree_eq h2 t1 t2 = Ok true.
Proof.
  intros Hne Hl1 Hc1 Hl2 Hc2 Hfuel.
  pose proof (MerkleTree_ctor_single hash fuel h0 s c1 Hne Hl1 Hc1 Hfuel) as H1.
  set (leaf := fresh_node {| checksum := hash s; chunk_offset := 0;
                             chunk_size := Z.of_nat (length s) |}) in *.
  pose proof (MerkleTree_ctor_single hash fuel (h0 ++ [leaf]) s c2 Hne Hl2 Hc2 Hfuel)
    as H2.
  fold leaf in H2.
  eexists _, _, _, _. split; [exact H1|]. split; [exact H2|].
  split; [reflexivity|]. split; [reflexivity|].
  assert (Ha : ((h0 ++ [leaf]) ++ [leaf]) !! length h0 = Some leaf).
  { rewrite <- app_assoc. apply list_lookup_middle. reflexivity. }
  assert (Hb : ((h0 ++ [leaf]) ++ [leaf]) !! length (h0 ++ [leaf]) = Some leaf).
  { apply list_lookup_middle. reflexivity. }
  unfold MerkleTree_eq. cbn [root].
  rewrite (deref_Some _ _ _ Ha), bind_Ok, (deref_Some _ _ _ Hb), bind_Ok.
  f_equal. apply MerkleNode_eqb_spec. auto.
Qed.

Lemma chunk_size_is_not_compared_witness :
  hello_world <> []
  /\ Z.of_nat (length hello_world) <= 11 /\ 11 <= STREAMSIZE_MAX
  /\ Z.of_nat (length hello_world) <= 64 /\ 64 <= STREAMSIZE_MAX
  /\ (length hello_world < 12)%nat
  /\ exists (h1 h2 : store) (t1 t2 : MerkleTree),
       MerkleTree_ctor Sha256.hash 12 [] hello_world 11 = Ok (h1, t1)
       /\ MerkleTree_ctor Sha256.hash 12 h1 hello_world 64 = Ok (h2, t2)
       /\ m_ChunkSize t1 = 11 /\ m_ChunkSize t2 = 64
       /\ MerkleTree_eq h2 t1 t2 = Ok true.
Proof.
  assert (Hne : hello_world <> []) by discriminate.
  assert (Hl1 : Z.of_nat (length hello_world) <= 11) by (vm_compute; discriminate).
  assert (Hc1 : 11 <= STREAMSIZE_MAX) by (vm_compute; discriminate).
  assert (Hl2 : Z.of_nat (length hello_world) <= 64) by (vm_compute; discriminate).
  assert (Hc2 : 64 <= STREAMSIZE_MAX) by (vm_compute; discriminate).
  assert (Hfuel : (length hello_world < 12)%nat) by (vm_compute; repeat constructor).
  split; [exact Hne|]. split; [exact Hl1|]. split; [exact Hc1|].
  split; [exact Hl2|]. split; [exact Hc2|]. split; [exact Hfuel|].
  exact (chunk_size_is_not_compared Sha256.hash 12 [] hello_world 11 64
           Hne Hl1 Hc1 Hl2 Hc2 Hfuel).
Defined.

(** X18. Contents of different lengths give trees that are not equal,
    whatever the hash and the chunk sizes: the spans of the roots
    differ. *)
Theorem different_lengths_unequal_trees (hash : list byte -> ChecksumBase)
    (fuel : nat) (h0 : store) (s1 s2 : list byte) (c1 c2 : Z) :
  s1 <> [] -> s2 <> [] -> 1 <= c1 -> 1 <= c2 ->
  in_range s1 c1 -> in_range s2 c2 ->
  (length s1 < fuel)%nat -> (length s2 < fuel)%nat ->
  length s1 <> length s2 ->
  exists (h1 h2 : store) (t1 t2 : MerkleTree),
    MerkleTree_ctor hash fuel h0 s1 c1 = Ok (h1, t1)
    /\ MerkleTree_ctor hash fuel h1 s2 c2 = Ok (h2, t2)
    /\ MerkleTree_eq h2 t1 t2 = Ok false
    /\ MerkleTree_eq h2 t2 t1 = Ok false.
Proof.
  intros Hne1 Hne2 Hc1 Hc2 Hr1 Hr2 Hf1 Hf2 Hlen.
  destruct (MerkleTree_ctor_spec hash (fun _ => True) (fun _ => I)
              fuel h0 s1 c1 Hne1 Hc1 Hr1 Hf1) as (h1 & r1 & Hrun1 & Hinv1 & _).
  destruct (MerkleTree_ctor_spec hash (fun _ => True) (fun _ => I)
              fuel h1 s2 c2 Hne2 Hc2 Hr2 Hf2) as (h2 & r2 & Hrun2 & Hinv2 & new & Hh2).
  destruct (tree_inv_root hash _ _ _ h1 r1 Hinv1) as (n1 & Hn1 & _ & _ & Hs1 & _).
  destruct (tree_inv_root hash _ _ _ h2 r2 Hinv2) as (n2 & Hn2 & _ & _ & Hs2 & _).
  exists h1, h2, {| m_ChunkSize := c1; root := Some r1 |},
    {| m_ChunkSize := c2; root := Some r2 |}.
  split; [exact Hrun1|]. split; [exact Hrun2|].
  assert (Hn1' : h2 !! r1 = Some n1) by (rewrite Hh2; now apply lookup_app_l_Some).
  assert (Hneq : MerkleNode_eqb n1 n2 = false).
  { destruct (MerkleNode_eqb n1 n2) eqn:E; [|reflexivity]. exfalso.
    apply MerkleNode_eqb_spec in E as (_ & _ & E). rewrite E in Hs1. lia. }
  unfold MerkleTree_eq. cbn [root]. split.
  - rewrite (deref_Some _ _ _ Hn1'), bind_Ok, (deref_Some _ _ _ Hn2), bind_Ok.
    now rewrite Hneq.
  - rewrite (deref_Some _ _ _ Hn2), bind_Ok, (deref_Some _ _ _ Hn1'), bind_Ok.
    now rewrite MerkleNode_eqb_sym, Hneq.
Qed.

Lemma different_lengths_unequal_trees_witness :
  hello_world <> [] /\ list_byte_of_string "hello" <> []
  /\ 1 <= 4 /\ 1 <= 2
  /\ in_range hello_world 4 /\ in_range (list_byte_of_string "hello") 2
  /\ (length hello_world < 12)%nat
  /\ (length (list_byte_of_string "hello") < 12)%nat
  /\ length hello_world <> length (list_byte_of_string "hello")
  /\ exists (h1 h2 : store) (t1 t2 : MerkleTree),
       MerkleTree_ctor Sha256.hash 12 [] hello_world 4 = Ok (h1, t1)
       /\ MerkleTree_ctor Sha256.hash 12 h1 (list_byte_of_string "hello") 2
          = Ok (h2, t2)
       /\ MerkleTree_eq h2 t1 t2 = Ok false
       /\ MerkleTree_eq h2 t2 t1 = Ok false.
Proof.
  assert (Hne1 : hello_world <> []) by discriminate.
  assert (Hne2 : list_byte_of_string "hello" <> []) by discriminate.
  assert (Hc1 : 1 <= 4) by (vm_compute; discriminate).
  assert (Hc2 : 1 <= 2) by (vm_compute; discriminate).
  assert (Hr1 : in_range hello_world 4).
  { unfold in_range, SIZE_MAX, INT_MAX, STREAMSIZE_MAX. vm_compute.
    intuition discriminate. }
  assert (Hr2 : in_range (list_byte_of_string "hello") 2).
  { unfold in_range, SIZE_MAX, INT_MAX, STREAMSIZE_MAX. vm_compute.
    intuition discriminate. }
  assert (Hf1 : (length hello_world < 12)%nat) by (vm_compute; repeat constructor).
  assert (Hf2 : (length (list_byte_of_string "hello") < 12)%nat)
    by (vm_compute; repeat constructor).
  assert (Hlen : length hello_world <> length (list_byte_of_string "hello"))
    by (vm_compute; discriminate).
  split; [exact Hne1|]. split; [exact Hne2|]. split; [exact Hc1|]. split; [exact Hc2|].
  split; [exact Hr1|]. split; [exact Hr2|]. split; [exact Hf1|]. split; [exact Hf2|].
  split; [exact Hlen|].
  exact (different_lengths_unequal_trees Sha256.hash 12 [] hello_world
           (list_byte_of_string "hello") 4 2 Hne1 Hne2 Hc1 Hc2 Hr1 Hr2 Hf1 Hf2 Hlen).
Defined.
